(** * The simulation step of the side-scrolling shooter

    A shallow embedding of [src/components/GameCanvas.tsx] (the [update]
    loop body, [handlePlayerDeath], [createParticles], [checkCollision]
    and [initLevel]) together with the records of [types.ts].

    Numbers.  JavaScript has one numeric type.  Coordinates, sizes and
    velocities take fractional values (gravity, the 0.7 and 0.5 scalings,
    the trigonometric aim), so they are rationals [Q]; where a value is
    computed rather than stored, statements compare it with [==].
    Counters that the code only ever initialises with integer literals and
    changes by integer steps (hp, score, bullet and particle life, the
    enemy cooldown, the invincibility timer, the tick) are integers [Z].
    Rounding of IEEE doubles is not modelled.

    Mutable refs become one [World] record that every operation takes and
    returns.  The calls [setScore], [setLives] and [setGameState] made on
    the parent component are logged in [events] (most recent first);
    [gameState] is the value the parent holds after the pending calls,
    that is the argument of the last [setGameState]. *)

From Stdlib Require Import ZArith QArith Qabs Bool List String Lia Lqa.
Import ListNotations.

Local Open Scope Q_scope.

(** ** Comparisons on numbers, as booleans *)

Definition Qltb (a b : Q) : bool := negb (Qle_bool b a).
Definition Qgtb (a b : Q) : bool := Qltb b a.
Definition Qleb (a b : Q) : bool := Qle_bool a b.

(** [Math.max] and [Math.abs]. *)
Definition Math_max (a b : Q) : Q := if Qltb a b then b else a.
Definition Math_abs (a : Q) : Q := Qabs a.

(** ** types.ts *)

Inductive Direction := Right | Left.

(** The numeric value of the enum, used where the code multiplies by it. *)
Definition dirQ (d : Direction) : Q :=
  match d with Right => 1 | Left => -1 end.

Inductive GameState := MENU | PLAYING | GAME_OVER | VICTORY.

Definition GameState_eqb (a b : GameState) : bool :=
  match a, b with
  | MENU, MENU | PLAYING, PLAYING | GAME_OVER, GAME_OVER | VICTORY, VICTORY => true
  | _, _ => false
  end.

Inductive Owner := OwnerPlayer | OwnerEnemy.
Inductive EnemyType := runner | turret | boss.
Inductive EnemyState := e_idle | e_running | e_shooting.
Inductive PlatformType := solid | pass_through.
Inductive PlayerState := idle | run | jump.

Definition isBoss (t : EnemyType) : bool :=
  match t with boss => true | _ => false end.
Definition isRunner (t : EnemyType) : bool :=
  match t with runner => true | _ => false end.
Definition isTurret (t : EnemyType) : bool :=
  match t with turret => true | _ => false end.

Record Box := mkBox { x : Q; y : Q; width : Q; height : Q }.

Record Bullet := mkBullet {
  b_x : Q; b_y : Q; b_width : Q; b_height : Q;
  b_vx : Q; b_vy : Q; b_color : string; b_isDead : bool;
  b_owner : Owner; b_life : Z
}.

Record Enemy := mkEnemy {
  e_x : Q; e_y : Q; e_width : Q; e_height : Q;
  e_vx : Q; e_vy : Q; e_color : string; e_isDead : bool;
  e_id : Q; e_type : EnemyType; e_hp : Z; e_shootCooldown : Z;
  e_state : EnemyState; e_direction : Direction
}.

Record Platform := mkPlatform {
  plat_x : Q; plat_y : Q; plat_width : Q; plat_height : Q;
  plat_type : PlatformType
}.

Record Player := mkPlayer {
  p_x : Q; p_y : Q; p_width : Q; p_height : Q;
  p_vx : Q; p_vy : Q; p_color : string; p_isDead : bool;
  p_direction : Direction; p_isGrounded : bool; p_isCrouching : bool;
  p_shootCooldown : Q; p_invincibleTimer : Z; p_hp : Z; p_score : Z;
  p_state : PlayerState; p_facingVertical : Z
}.

Record InputState := mkInput {
  left : bool; right : bool; up : bool; down : bool;
  i_jump : bool; shoot : bool
}.

(** The untyped particle objects of [particlesRef]. *)
Record Particle := mkParticle {
  pt_x : Q; pt_y : Q; pt_vx : Q; pt_vy : Q; pt_life : Z; pt_color : string
}.

(** The boxes that [checkCollision] reads off each entity. *)
Definition boxOfBullet (b : Bullet) : Box :=
  mkBox (b_x b) (b_y b) (b_width b) (b_height b).
Definition boxOfEnemy (e : Enemy) : Box :=
  mkBox (e_x e) (e_y e) (e_width e) (e_height e).
Definition boxOfPlayer (p : Player) : Box :=
  mkBox (p_x p) (p_y p) (p_width p) (p_height p).

(** Calls made on the parent component. *)
Inductive Event :=
| SetScore (score : Z)
| SetLives (lives : Z)
| SetGameState (s : GameState).

Record World := mkWorld {
  player : Player;
  bullets : list Bullet;
  enemies : list Enemy;
  particles : list Particle;
  camera : Q;
  platforms : list Platform;
  tick : Z;
  gameState : GameState;
  events : list Event;
  rng : nat
}.

(** ** Field assignments *)

Definition p_set_x (v : Q) (p : Player) : Player :=
  mkPlayer v (p_y p) (p_width p) (p_height p) (p_vx p) (p_vy p) (p_color p)
    (p_isDead p) (p_direction p) (p_isGrounded p) (p_isCrouching p)
    (p_shootCooldown p) (p_invincibleTimer p) (p_hp p) (p_score p)
    (p_state p) (p_facingVertical p).
Definition p_set_y (v : Q) (p : Player) : Player :=
  mkPlayer (p_x p) v (p_width p) (p_height p) (p_vx p) (p_vy p) (p_color p)
    (p_isDead p) (p_direction p) (p_isGrounded p) (p_isCrouching p)
    (p_shootCooldown p) (p_invincibleTimer p) (p_hp p) (p_score p)
    (p_state p) (p_facingVertical p).
Definition p_set_vx (v : Q) (p : Player) : Player :=
  mkPlayer (p_x p) (p_y p) (p_width p) (p_height p) v (p_vy p) (p_color p)
    (p_isDead p) (p_direction p) (p_isGrounded p) (p_isCrouching p)
    (p_shootCooldown p) (p_invincibleTimer p) (p_hp p) (p_score p)
    (p_state p) (p_facingVertical p).
Definition p_set_vy (v : Q) (p : Player) : Player :=
  mkPlayer (p_x p) (p_y p) (p_width p) (p_height p) (p_vx p) v (p_color p)
    (p_isDead p) (p_direction p) (p_isGrounded p) (p_isCrouching p)
    (p_shootCooldown p) (p_invincibleTimer p) (p_hp p) (p_score p)
    (p_state p) (p_facingVertical p).
Definition p_set_direction (v : Direction) (p : Player) : Player :=
  mkPlayer (p_x p) (p_y p) (p_width p) (p_height p) (p_vx p) (p_vy p) (p_color p)
    (p_isDead p) v (p_isGrounded p) (p_isCrouching p)
    (p_shootCooldown p) (p_invincibleTimer p) (p_hp p) (p_score p)
    (p_state p) (p_facingVertical p).
Definition p_set_isGrounded (v : bool) (p : Player) : Player :=
  mkPlayer (p_x p) (p_y p) (p_width p) (p_height p) (p_vx p) (p_vy p) (p_color p)
    (p_isDead p) (p_direction p) v (p_isCrouching p)
    (p_shootCooldown p) (p_invincibleTimer p) (p_hp p) (p_score p)
    (p_state p) (p_facingVertical p).
Definition p_set_shootCooldown (v : Q) (p : Player) : Player :=
  mkPlayer (p_x p) (p_y p) (p_width p) (p_height p) (p_vx p) (p_vy p) (p_color p)
    (p_isDead p) (p_direction p) (p_isGrounded p) (p_isCrouching p)
    v (p_invincibleTimer p) (p_hp p) (p_score p)
    (p_state p) (p_facingVertical p).
Definition p_set_invincibleTimer (v : Z) (p : Player) : Player :=
  mkPlayer (p_x p) (p_y p) (p_width p) (p_height p) (p_vx p) (p_vy p) (p_color p)
    (p_isDead p) (p_direction p) (p_isGrounded p) (p_isCrouching p)
    (p_shootCooldown p) v (p_hp p) (p_score p)
    (p_state p) (p_facingVertical p).
Definition p_set_hp (v : Z) (p : Player) : Player :=
  mkPlayer (p_x p) (p_y p) (p_width p) (p_height p) (p_vx p) (p_vy p) (p_color p)
    (p_isDead p) (p_direction p) (p_isGrounded p) (p_isCrouching p)
    (p_shootCooldown p) (p_invincibleTimer p) v (p_score p)
    (p_state p) (p_facingVertical p).
Definition p_set_score (v : Z) (p : Player) : Player :=
  mkPlayer (p_x p) (p_y p) (p_width p) (p_height p) (p_vx p) (p_vy p) (p_color p)
    (p_isDead p) (p_direction p) (p_isGrounded p) (p_isCrouching p)
    (p_shootCooldown p) (p_invincibleTimer p) (p_hp p) v
    (p_state p) (p_facingVertical p).
Definition p_set_facingVertical (v : Z) (p : Player) : Player :=
  mkPlayer (p_x p) (p_y p) (p_width p) (p_height p) (p_vx p) (p_vy p) (p_color p)
    (p_isDead p) (p_direction p) (p_isGrounded p) (p_isCrouching p)
    (p_shootCooldown p) (p_invincibleTimer p) (p_hp p) (p_score p)
    (p_state p) v.

Definition e_set_x (v : Q) (e : Enemy) : Enemy :=
  mkEnemy v (e_y e) (e_width e) (e_height e) (e_vx e) (e_vy e) (e_color e)
    (e_isDead e) (e_id e) (e_type e) (e_hp e) (e_shootCooldown e)
    (e_state e) (e_direction e).
Definition e_set_y (v : Q) (e : Enemy) : Enemy :=
  mkEnemy (e_x e) v (e_width e) (e_height e) (e_vx e) (e_vy e) (e_color e)
    (e_isDead e) (e_id e) (e_type e) (e_hp e) (e_shootCooldown e)
    (e_state e) (e_direction e).
Definition e_set_vx (v : Q) (e : Enemy) : Enemy :=
  mkEnemy (e_x e) (e_y e) (e_width e) (e_height e) v (e_vy e) (e_color e)
    (e_isDead e) (e_id e) (e_type e) (e_hp e) (e_shootCooldown e)
    (e_state e) (e_direction e).
Definition e_set_isDead (v : bool) (e : Enemy) : Enemy :=
  mkEnemy (e_x e) (e_y e) (e_width e) (e_height e) (e_vx e) (e_vy e) (e_color e)
    v (e_id e) (e_type e) (e_hp e) (e_shootCooldown e)
    (e_state e) (e_direction e).
Definition e_set_hp (v : Z) (e : Enemy) : Enemy :=
  mkEnemy (e_x e) (e_y e) (e_width e) (e_height e) (e_vx e) (e_vy e) (e_color e)
    (e_isDead e) (e_id e) (e_type e) v (e_shootCooldown e)
    (e_state e) (e_direction e).
Definition e_set_shootCooldown (v : Z) (e : Enemy) : Enemy :=
  mkEnemy (e_x e) (e_y e) (e_width e) (e_height e) (e_vx e) (e_vy e) (e_color e)
    (e_isDead e) (e_id e) (e_type e) (e_hp e) v
    (e_state e) (e_direction e).
Definition e_set_direction (v : Direction) (e : Enemy) : Enemy :=
  mkEnemy (e_x e) (e_y e) (e_width e) (e_height e) (e_vx e) (e_vy e) (e_color e)
    (e_isDead e) (e_id e) (e_type e) (e_hp e) (e_shootCooldown e)
    (e_state e) v.

Definition b_set_x (v : Q) (b : Bullet) : Bullet :=
  mkBullet v (b_y b) (b_width b) (b_height b) (b_vx b) (b_vy b) (b_color b)
    (b_isDead b) (b_owner b) (b_life b).
Definition b_set_y (v : Q) (b : Bullet) : Bullet :=
  mkBullet (b_x b) v (b_width b) (b_height b) (b_vx b) (b_vy b) (b_color b)
    (b_isDead b) (b_owner b) (b_life b).
Definition b_set_life (v : Z) (b : Bullet) : Bullet :=
  mkBullet (b_x b) (b_y b) (b_width b) (b_height b) (b_vx b) (b_vy b) (b_color b)
    (b_isDead b) (b_owner b) v.

Definition w_set_player (v : Player) (w : World) : World :=
  mkWorld v (bullets w) (enemies w) (particles w) (camera w) (platforms w)
    (tick w) (gameState w) (events w) (rng w).
Definition w_set_bullets (v : list Bullet) (w : World) : World :=
  mkWorld (player w) v (enemies w) (particles w) (camera w) (platforms w)
    (tick w) (gameState w) (events w) (rng w).
Definition w_set_enemies (v : list Enemy) (w : World) : World :=
  mkWorld (player w) (bullets w) v (particles w) (camera w) (platforms w)
    (tick w) (gameState w) (events w) (rng w).
Definition w_set_particles (v : list Particle) (w : World) : World :=
  mkWorld (player w) (bullets w) (enemies w) v (camera w) (platforms w)
    (tick w) (gameState w) (events w) (rng w).
Definition w_set_camera (v : Q) (w : World) : World :=
  mkWorld (player w) (bullets w) (enemies w) (particles w) v (platforms w)
    (tick w) (gameState w) (events w) (rng w).
Definition w_set_platforms (v : list Platform) (w : World) : World :=
  mkWorld (player w) (bullets w) (enemies w) (particles w) (camera w) v
    (tick w) (gameState w) (events w) (rng w).
Definition w_set_tick (v : Z) (w : World) : World :=
  mkWorld (player w) (bullets w) (enemies w) (particles w) (camera w)
    (platforms w) v (gameState w) (events w) (rng w).
Definition w_set_rng (v : nat) (w : World) : World :=
  mkWorld (player w) (bullets w) (enemies w) (particles w) (camera w)
    (platforms w) (tick w) (gameState w) (events w) v.

(** The three callbacks of [GameCanvasProps]. *)
Definition setScore (s : Z) (w : World) : World :=
  mkWorld (player w) (bullets w) (enemies w) (particles w) (camera w)
    (platforms w) (tick w) (gameState w) (SetScore s :: events w) (rng w).
Definition setLives (l : Z) (w : World) : World :=
  mkWorld (player w) (bullets w) (enemies w) (particles w) (camera w)
    (platforms w) (tick w) (gameState w) (SetLives l :: events w) (rng w).
Definition setGameState (s : GameState) (w : World) : World :=
  mkWorld (player w) (bullets w) (enemies w) (particles w) (camera w)
    (platforms w) (tick w) s (SetGameState s :: events w) (rng w).

(** ** The environment of the component

    [constants.ts] is not part of the sources at hand: its values are
    fields of [Env].  [Math.random] is an oracle read through the call
    counter [rng] of the world; [Math.atan2], [Math.cos] and [Math.sin] are
    fields too. *)

Record Env := mkEnv {
  K_CANVAS_WIDTH : Q; K_CANVAS_HEIGHT : Q; K_GRAVITY : Q;
  K_PLAYER_SPEED : Q; K_JUMP_FORCE : Q; K_BULLET_SPEED : Q;
  K_SHOOT_COOLDOWN : Q; K_CAMERA_OFFSET_X : Q; K_ENEMY_SPEED : Q;
  K_LEVEL_LENGTH : Q;
  K_COLORS_BULLET : string; K_COLORS_ENEMY_RED : string;
  K_Math_random : nat -> Q;
  K_Math_atan2 : Q -> Q -> Q;
  K_Math_cos : Q -> Q; K_Math_sin : Q -> Q
}.

(** ** Scenarios

    A concrete environment and a few worlds on which the component is run
    further down. *)

Definition arcade : Env :=
  mkEnv 800 600 (1#2) 4 (-12) 10 15 300 2 4000 "yellow" "red"
    (fun _ => 1#2) (fun _ _ => 0) (fun _ => 1) (fun _ => 0).

Definition noInput : InputState := mkInput false false false false false false.
Definition holdRight : InputState := mkInput false true false false false false.

Definition holdShootUp : InputState := mkInput false false true false false true.

(** A player standing in the air at (100, 100), with [hp] lives. *)
Definition airborne (hp : Z) : Player :=
  mkPlayer 100 100 24 48 0 0 "blue" false Right false false 0 0 hp 0 idle 0.

(** An enemy bullet at rest inside the player's box. *)
Definition strayBullet : Bullet :=
  mkBullet 110 120 8 8 0 0 "orange" false OwnerEnemy 50.

(** A player bullet flying right, one tick away from (510, y). *)
Definition shotAt (by' : Q) : Bullet :=
  mkBullet 500 by' 8 8 10 0 "yellow" false OwnerPlayer 50.

Definition lastBoss : Enemy :=
  mkEnemy 500 480 60 80 0 0 "red" false 0 boss 1 60 e_idle Left.

Definition loneRunner : Enemy :=
  mkEnemy 500 300 24 48 0 0 "red" false 0 runner 1 0 e_idle Left.

(** The player has one life left and two enemy bullets are on it. *)
Definition twoBulletsOnLastLife : World :=
  mkWorld (airborne 1) [strayBullet; strayBullet] [] [] 0 [] 0 PLAYING [] 0.

(** The player has one life left with an enemy bullet on it, while its own
    bullet is about to finish the boss. *)
Definition bossAndPlayerFall : World :=
  mkWorld (airborne 1) [strayBullet; shotAt 500] [lastBoss] [] 0 [] 0
    PLAYING [] 0.

(** A player bullet is about to hit a runner. *)
Definition shotOnRunner : World :=
  mkWorld (airborne 3) [shotAt 310] [loneRunner] [] 0 [] 0 PLAYING [] 0.

(** The player, falling at vy = 5, has just sunk into the ground slab. *)
Definition groundSlab : Platform := mkPlatform 0 560 800 40 solid.

Definition sinkingIn : World :=
  mkWorld
    (mkPlayer 100 515 24 48 0 5 "blue" false Right false false 0 0 3 0 idle 0)
    [] [] [] 0 [groundSlab] 0 PLAYING [] 0.

(** The player aims straight up with its cooldown at 0. *)
Definition aimingUp : World :=
  mkWorld
    (mkPlayer 100 100 24 48 0 0 "blue" false Right false false 0 0 3 0 idle 1)
    [] [] [] 0 [] 0 PLAYING [] 0.



(** Two boxes that share an edge: the right edge of the first lies on the
    left edge of the second. *)
Definition leftBox : Box := mkBox 0 0 10 10.
Definition rightBox : Box := mkBox 10 0 10 10.

(** Jump and down held together. *)
Definition jumpDown : InputState := mkInput false false false true true false.

(** The player at rest on the ground slab. *)
Definition standingOn : World :=
  mkWorld
    (mkPlayer 100 512 24 48 0 0 "blue" false Right true false 0 0 3 0 idle 0)
    [] [] [] 0 [groundSlab] 0 PLAYING [] 0.

(** The player has just respawned (180 frames of invincibility) and an
    enemy bullet is on it. *)
Definition justHit : World :=
  mkWorld
    (mkPlayer 100 100 24 48 0 0 "blue" false Right false false 0 180 2 0 idle 0)
    [strayBullet] [] [] 0 [] 0 PLAYING [] 0.

(** The player has just fired: its cooldown is SHOOT_COOLDOWN = 15. *)
Definition justFired : World :=
  mkWorld
    (mkPlayer 100 100 24 48 0 0 "blue" false Right false false 15 0 3 0 idle 0)
    [] [] [] 0 [] 0 PLAYING [] 0.

(** A turret that has just fired, next to a runner. *)
Definition firedTurret : Enemy :=
  mkEnemy 400 350 24 48 0 0 "red" false 0 turret 1 120 e_idle Left.

Definition afterVolley : World :=
  mkWorld (airborne 3) [] [firedTurret; loneRunner] [] 0 [] 0 PLAYING [] 0.

(** The game is over, with a bullet on the player and a runner in range. *)
Definition gameOverScreen : World :=
  mkWorld (airborne 0) [strayBullet] [loneRunner] [] 0 [] 0 GAME_OVER [] 0.

(** ** The keyboard handlers

    [handleKeyDown] and [handleKeyUp] of the input effect, as functions on
    the input flags; [code] is [e.code]. *)

Definition i_set_left (v : bool) (i : InputState) : InputState :=
  mkInput v (right i) (up i) (down i) (i_jump i) (shoot i).
Definition i_set_right (v : bool) (i : InputState) : InputState :=
  mkInput (left i) v (up i) (down i) (i_jump i) (shoot i).
Definition i_set_up (v : bool) (i : InputState) : InputState :=
  mkInput (left i) (right i) v (down i) (i_jump i) (shoot i).
Definition i_set_down (v : bool) (i : InputState) : InputState :=
  mkInput (left i) (right i) (up i) v (i_jump i) (shoot i).
Definition i_set_jump (v : bool) (i : InputState) : InputState :=
  mkInput (left i) (right i) (up i) (down i) v (shoot i).
Definition i_set_shoot (v : bool) (i : InputState) : InputState :=
  mkInput (left i) (right i) (up i) (down i) (i_jump i) v.

(** [case a: case b:] of the two switches. *)
Definition caseOf (code a b : string) : bool :=
  String.eqb code a || String.eqb code b.

Definition handleKeyDown (code : string) (i : InputState) : InputState :=
  if caseOf code "KeyA" "ArrowLeft" then i_set_left true i
  else if caseOf code "KeyD" "ArrowRight" then i_set_right true i
  else if caseOf code "KeyW" "ArrowUp" then i_set_up true i
  else if caseOf code "KeyS" "ArrowDown" then i_set_down true i
  else if caseOf code "KeyK" "KeyZ" then
    (if negb (i_jump i) then i_set_jump true i else i)
  else if caseOf code "KeyJ" "KeyX" then i_set_shoot true i
  else i.

Definition handleKeyUp (code : string) (i : InputState) : InputState :=
  if caseOf code "KeyA" "ArrowLeft" then i_set_left false i
  else if caseOf code "KeyD" "ArrowRight" then i_set_right false i
  else if caseOf code "KeyW" "ArrowUp" then i_set_up false i
  else if caseOf code "KeyS" "ArrowDown" then i_set_down false i
  else if caseOf code "KeyK" "KeyZ" then i_set_jump false i
  else if caseOf code "KeyJ" "KeyX" then i_set_shoot false i
  else i.

(** The six controls, the control a key code is bound to, and the flag of
    a control. *)
Inductive Control := CLeft | CRight | CUp | CDown | CJump | CShoot.

Definition controlOf (code : string) : option Control :=
  if caseOf code "KeyA" "ArrowLeft" then Some CLeft
  else if caseOf code "KeyD" "ArrowRight" then Some CRight
  else if caseOf code "KeyW" "ArrowUp" then Some CUp
  else if caseOf code "KeyS" "ArrowDown" then Some CDown
  else if caseOf code "KeyK" "KeyZ" then Some CJump
  else if caseOf code "KeyJ" "KeyX" then Some CShoot
  else None.

Definition held (c : Control) (i : InputState) : bool :=
  match c with
  | CLeft => left i | CRight => right i | CUp => up i
  | CDown => down i | CJump => i_jump i | CShoot => shoot i
  end.

Definition setControl (c : Control) (v : bool) (i : InputState) : InputState :=
  match c with
  | CLeft => i_set_left v i | CRight => i_set_right v i | CUp => i_set_up v i
  | CDown => i_set_down v i | CJump => i_set_jump v i
  | CShoot => i_set_shoot v i
  end.

Definition Control_eqb (a b : Control) : bool :=
  match a, b with
  | CLeft, CLeft | CRight, CRight | CUp, CUp
  | CDown, CDown | CJump, CJump | CShoot, CShoot => true
  | _, _ => false
  end.

(** ** The heads-up display

    What the parent component holds in its [score] and [lives] states after
    the calls [evs] (most recent first; the initial states are 0 and 3),
    and the number of life icons the HUD draws:
    [Array.from({length: Math.max(0, lives)})]. *)

Fixpoint shownLives (evs : list Event) : Z :=
  match evs with
  | [] => 3%Z
  | SetLives l :: _ => l
  | _ :: rest => shownLives rest
  end.

Fixpoint shownScore (evs : list Event) : Z :=
  match evs with
  | [] => 0%Z
  | SetScore s :: _ => s
  | _ :: rest => shownScore rest
  end.

Definition lifeIcons (lives : Z) : nat := Z.to_nat (Z.max 0 lives).

(** ** Array helpers: [a[i] = v] and [a.splice(i, 1)] for [i] in range *)

Definition setAt {A} (i : nat) (v : A) (l : list A) : list A :=
  firstn i l ++ v :: skipn (S i) l.

Definition removeAt {A} (i : nat) (l : list A) : list A :=
  firstn i l ++ skipn (S i) l.

(** ** The component body *)

Section GameCanvas.

Variable K : Env.

Local Abbreviation CANVAS_WIDTH := (K_CANVAS_WIDTH K).
Local Abbreviation CANVAS_HEIGHT := (K_CANVAS_HEIGHT K).
Local Abbreviation GRAVITY := (K_GRAVITY K).
Local Abbreviation PLAYER_SPEED := (K_PLAYER_SPEED K).
Local Abbreviation JUMP_FORCE := (K_JUMP_FORCE K).
Local Abbreviation BULLET_SPEED := (K_BULLET_SPEED K).
Local Abbreviation SHOOT_COOLDOWN := (K_SHOOT_COOLDOWN K).
Local Abbreviation CAMERA_OFFSET_X := (K_CAMERA_OFFSET_X K).
Local Abbreviation ENEMY_SPEED := (K_ENEMY_SPEED K).
Local Abbreviation LEVEL_LENGTH := (K_LEVEL_LENGTH K).
Local Abbreviation COLORS_BULLET := (K_COLORS_BULLET K).
Local Abbreviation COLORS_ENEMY_RED := (K_COLORS_ENEMY_RED K).
Local Abbreviation Math_random := (K_Math_random K).
Local Abbreviation Math_atan2 := (K_Math_atan2 K).
Local Abbreviation Math_cos := (K_Math_cos K).
Local Abbreviation Math_sin := (K_Math_sin K).

(** *** checkCollision *)

Definition checkCollision (r1 r2 : Box) : bool :=
  Qltb (x r1) (x r2 + width r2) &&
  Qgtb (x r1 + width r1) (x r2) &&
  Qltb (y r1) (y r2 + height r2) &&
  Qgtb (y r1 + height r1) (y r2).

(** *** createParticles *)

Definition newParticle (px py : Q) (color : string) (n : nat) : Particle :=
  mkParticle px py
    ((Math_random n - (1#2)) * 5)
    ((Math_random (S n) - (1#2)) * 5)
    30 color.

Fixpoint createParticlesLoop (k : nat) (px py : Q) (color : string)
    (w : World) : World :=
  match k with
  | O => w
  | S k' =>
      createParticlesLoop k' px py color
        (w_set_rng (rng w + 2)
           (w_set_particles (particles w ++ [newParticle px py color (rng w)]) w))
  end.

Definition createParticles (px py : Q) (color : string) (w : World) : World :=
  createParticlesLoop 8 px py color w.

(** *** handlePlayerDeath *)

(** The else branch: "Respawn logic". *)
Definition respawn (cam : Q) (p : Player) : Player :=
  let p1 := p_set_y (-100) p in
  let p2 := p_set_x (Math_max (cam + 50) (p_x p1)) p1 in
  let p3 := p_set_vx 0 p2 in
  let p4 := p_set_vy 0 p3 in
  p_set_invincibleTimer 180 p4.

Definition handlePlayerDeath (w : World) : World :=
  if (p_invincibleTimer (player w) >? 0)%Z then w
  else
    let w1 := w_set_player (p_set_hp (p_hp (player w) - 1) (player w)) w in
    let w2 := setLives (p_hp (player w1)) w1 in
    let w3 := createParticles (p_x (player w2)) (p_y (player w2)) "white" w2 in
    if (p_hp (player w3) <=? 0)%Z then setGameState GAME_OVER w3
    else w_set_player (respawn (camera w3) (player w3)) w3.

(** *** update: player physics *)

Definition horizontalMovement (inputs : InputState) (p : Player) : Player :=
  if left inputs then p_set_direction Left (p_set_vx (- PLAYER_SPEED) p)
  else if right inputs then p_set_direction Right (p_set_vx PLAYER_SPEED p)
  else p_set_vx 0 p.

Definition verticalFacing (inputs : InputState) (p : Player) : Player :=
  if up inputs then p_set_facingVertical 1 p
  else if down inputs then p_set_facingVertical (-1) p
  else p_set_facingVertical 0 p.

Definition jumping (inputs : InputState) (p : Player) : Player :=
  if i_jump inputs && p_isGrounded p then
    if down inputs then
      p_set_vy 1 (p_set_isGrounded false (p_set_y (p_y p + 1) p))
    else
      p_set_isGrounded false (p_set_vy JUMP_FORCE p)
  else p.

Definition gravity (p : Player) : Player :=
  let p1 := p_set_vy (p_vy p + GRAVITY) p in
  let p2 := p_set_x (p_x p1 + p_vx p1) p1 in
  p_set_y (p_y p2 + p_vy p2) p2.

Definition levelBounds (cam : Q) (p : Player) : Player :=
  if Qltb (p_x p) cam then p_set_x cam p else p.

Definition playerPhysics (inputs : InputState) (w : World) : World :=
  w_set_player
    (levelBounds (camera w)
       (gravity (jumping inputs (verticalFacing inputs
          (horizontalMovement inputs (player w)))))) w.

(** *** update: collision detection against the platforms *)

(** The "Basic AABB" test written out in the platform loop. *)
Definition overlapsPlatform (p : Player) (plat : Platform) : bool :=
  Qltb (p_x p) (plat_x plat + plat_width plat) &&
  Qgtb (p_x p + p_width p) (plat_x plat) &&
  Qltb (p_y p) (plat_y plat + plat_height plat) &&
  Qgtb (p_y p + p_height p) (plat_y plat).

Definition wasAbove (p : Player) (plat : Platform) : bool :=
  Qleb (p_y p - p_vy p + p_height p) (plat_y plat).

(** One iteration of [for (const plat of platforms)]. *)
Definition checkPlatform (p : Player) (plat : Platform) : Player :=
  if overlapsPlatform p plat then
    if Qgtb (p_vy p) 0 && wasAbove p plat then
      p_set_isGrounded true (p_set_vy 0 (p_set_y (plat_y plat - p_height p) p))
    else p
  else p.

Definition checkPlatforms (plats : list Platform) (p : Player) : Player :=
  fold_left checkPlatform plats p.

Definition collisionDetection (w : World) : World :=
  w_set_player (checkPlatforms (platforms w) (p_set_isGrounded false (player w))) w.

Definition pitfallDeath (w : World) : World :=
  if Qgtb (p_y (player w)) CANVAS_HEIGHT then handlePlayerDeath w else w.

(** *** update: shooting *)

Definition tickCooldown (p : Player) : Player :=
  if Qgtb (p_shootCooldown p) 0
  then p_set_shootCooldown (p_shootCooldown p - 1) p else p.

(** "Determine shoot direction": the pair (bx, by). *)
Definition shootDirection (inputs : InputState) (p : Player) : Q * Q :=
  if (p_facingVertical p =? 1)%Z then
    if left inputs || right inputs
    then (dirQ (p_direction p) * BULLET_SPEED * (7#10), - BULLET_SPEED * (7#10))
    else (0, - BULLET_SPEED)
  else if (p_facingVertical p =? -1)%Z && negb (p_isGrounded p) then
    if left inputs || right inputs
    then (dirQ (p_direction p) * BULLET_SPEED * (7#10), BULLET_SPEED * (7#10))
    else (0, BULLET_SPEED)
  else if (p_facingVertical p =? -1)%Z && p_isGrounded p then
    (dirQ (p_direction p) * BULLET_SPEED, 0)
  else
    (dirQ (p_direction p) * BULLET_SPEED, 0).

Definition playerBullet (inputs : InputState) (p : Player) : Bullet :=
  let '(bx, by') := shootDirection inputs p in
  mkBullet (p_x p + p_width p / 2) (p_y p + p_height p / 2) 8 8
    bx by' COLORS_BULLET false OwnerPlayer 100.

(** The guard of the shooting block, read after the cooldown has ticked. *)
Definition fires (inputs : InputState) (p : Player) : bool :=
  shoot inputs && Qleb (p_shootCooldown (tickCooldown p)) 0.

Definition shooting (inputs : InputState) (w : World) : World :=
  let w1 := w_set_player (tickCooldown (player w)) w in
  if shoot inputs && Qleb (p_shootCooldown (player w1)) 0 then
    let w2 := w_set_bullets (bullets w1 ++ [playerBullet inputs (player w1)]) w1 in
    w_set_player (p_set_shootCooldown SHOOT_COOLDOWN (player w2)) w2
  else w1.

(** *** update: bullets *)

(** The body of [if (!enemy.isDead && checkCollision(b, enemy))], without
    the [b.life = 0] that the caller does: the enemy loses one hp, particles
    burst at its centre, and at hp <= 0 it dies and the score is paid. *)
Definition damageEnemy (e : Enemy) (w : World) : Enemy * World :=
  let e1 := e_set_hp (e_hp e - 1) e in
  let w1 := createParticles (e_x e1 + e_width e1 / 2)
              (e_y e1 + e_height e1 / 2) "red" w in
  if (e_hp e1 <=? 0)%Z then
    let e2 := e_set_isDead true e1 in
    let w2 := w_set_player
                (p_set_score
                   (p_score (player w1)
                    + (if isBoss (e_type e2) then 1000 else 100))%Z
                   (player w1)) w1 in
    let w3 := setScore (p_score (player w2)) w2 in
    let w4 := if isBoss (e_type e2) then setGameState VICTORY w3 else w3 in
    (e2, w4)
  else (e1, w1).

(** The test of that [if]. *)
Definition bulletHits (b : Bullet) (e : Enemy) : bool :=
  negb (e_isDead e) && checkCollision (boxOfBullet b) (boxOfEnemy e).

(** The inner [for (const enemy of enemies)] of a player bullet, up to its
    [break].  Returns the enemies, the world and whether an enemy was hit
    (in which case [b.life = 0] has run). *)
Fixpoint bulletVsEnemies (b : Bullet) (es : list Enemy) (w : World)
    : list Enemy * World * bool :=
  match es with
  | [] => ([], w, false)
  | e :: rest =>
      if bulletHits b e then
        let '(e', w') := damageEnemy e w in
        (e' :: rest, w', true)
      else
        let '(rest', w', hit) := bulletVsEnemies b rest w in
        (e :: rest', w', hit)
  end.

(** The test that splices a bullet out of the array. *)
Definition bulletGone (cam : Q) (b : Bullet) : bool :=
  (b_life b <=? 0)%Z || Qltb (b_x b) cam || Qgtb (b_x b) (cam + CANVAS_WIDTH)
  || Qltb (b_y b) 0 || Qgtb (b_y b) CANVAS_HEIGHT.

Definition moveBullet (b : Bullet) : Bullet :=
  let b1 := b_set_x (b_x b + b_vx b) b in
  let b2 := b_set_y (b_y b1 + b_vy b1) b1 in
  b_set_life (b_life b2 - 1) b2.

(** The body of the bullet loop for one bullet: [None] when it is spliced
    out, [Some b'] when it stays in the array. *)
Definition stepBullet (b : Bullet) (w : World) : option Bullet * World :=
  let b1 := moveBullet b in
  if bulletGone (camera w) b1 then (None, w)
  else
    match b_owner b1 with
    | OwnerPlayer =>
        let '(es, w1, hit) := bulletVsEnemies b1 (enemies w) w in
        (Some (if hit then b_set_life 0 b1 else b1), w_set_enemies es w1)
    | OwnerEnemy =>
        if checkCollision (boxOfBullet b1) (boxOfPlayer (player w))
           && (p_invincibleTimer (player w) <=? 0)%Z
        then (Some (b_set_life 0 b1), handlePlayerDeath w)
        else (Some b1, w)
    end.

(** [for (let i = bullets.length - 1; i >= 0; i--)]: the last bullet of
    the array is processed first. *)
Fixpoint bulletsLoop (bs : list Bullet) (w : World) : list Bullet * World :=
  match bs with
  | [] => ([], w)
  | b :: rest =>
      let '(rest', w1) := bulletsLoop rest w in
      let '(ob, w2) := stepBullet b w1 in
      (match ob with Some b' => b' :: rest' | None => rest' end, w2)
  end.

Definition bulletsUpdate (w : World) : World :=
  let '(bs, w1) := bulletsLoop (bullets w) w in
  w_set_bullets bs w1.

(** *** update: enemies *)

Definition overlapsPlatformE (e : Enemy) (plat : Platform) : bool :=
  Qltb (e_x e) (plat_x plat + plat_width plat) &&
  Qgtb (e_x e + e_width e) (plat_x plat) &&
  Qltb (e_y e) (plat_y plat + plat_height plat) &&
  Qgtb (e_y e + e_height e) (plat_y plat).

(** "Floor clamp for enemies". *)
Definition floorClamp (plats : list Platform) (e : Enemy) : Enemy :=
  fold_left
    (fun e plat =>
       if overlapsPlatformE e plat
       then e_set_y (plat_y plat - e_height e) e else e)
    plats e.

Definition runnerMove (plats : list Platform) (distToPlayer : Q) (e : Enemy)
    : Enemy :=
  let e1 :=
    if Qgtb (Math_abs distToPlayer) 10 then
      e_set_direction (if Qgtb distToPlayer 0 then Right else Left)
        (e_set_vx ((if Qgtb distToPlayer 0 then 1 else -1) * ENEMY_SPEED) e)
    else e in
  let e2 := e_set_x (e_x e1 + e_vx e1) e1 in
  let e3 := e_set_y (e_y e2 + 10) e2 in
  floorClamp plats e3.

(** The point the aim angle is measured from, and the aim angle. *)
Definition muzzle (e : Enemy) : Q * Q := (e_x e, e_y e + 10).

Definition aimAngle (p : Player) (e : Enemy) : Q :=
  Math_atan2 ((p_y p + p_height p / 2) - snd (muzzle e))
             ((p_x p + p_width p / 2) - fst (muzzle e)).

Definition enemyBullet (p : Player) (e : Enemy) : Bullet :=
  let angle := aimAngle p e in
  let speed := BULLET_SPEED * (1#2) in
  mkBullet (e_x e + e_width e / 2) (e_y e + 10) 8 8
    (Math_cos angle * speed) (Math_sin angle * speed)
    "orange" false OwnerEnemy 200.

(** "Shooting Logic (Turrets and Boss)": the enemy after the block and the
    bullets it pushed. *)
Definition enemyShoot (p : Player) (e : Enemy) : Enemy * list Bullet :=
  let e1 := e_set_shootCooldown (e_shootCooldown e - 1) e in
  if (e_shootCooldown e1 <=? 0)%Z
  then (e_set_shootCooldown 120 e1, [enemyBullet p e1])
  else (e1, []).

(** The AI block of one live enemy: movement and fire control. *)
Definition enemyAI (w : World) (e : Enemy) : Enemy * list Bullet :=
  let distToPlayer := p_x (player w) - e_x e in
  if Qltb (Math_abs distToPlayer) 600 then
    let e1 := if isRunner (e_type e)
              then runnerMove (platforms w) distToPlayer e else e in
    if isTurret (e_type e1) || isBoss (e_type e1)
    then enemyShoot (player w) e1
    else (e1, [])
  else (e, []).

(** The body of [for (const enemy of enemies)] for one enemy. *)
Definition stepEnemy (e : Enemy) (w : World) : Enemy * World :=
  if e_isDead e then (e, w)
  else
    let '(e1, pushed) := enemyAI w e in
    let w1 := w_set_bullets (bullets w ++ pushed) w in
    if checkCollision (boxOfPlayer (player w1)) (boxOfEnemy e1)
       && (p_invincibleTimer (player w1) <=? 0)%Z
       && negb (e_isDead e1)
    then (e1, handlePlayerDeath w1)
    else (e1, w1).

Fixpoint enemiesLoop (es : list Enemy) (w : World) : list Enemy * World :=
  match es with
  | [] => ([], w)
  | e :: rest =>
      let '(e', w1) := stepEnemy e w in
      let '(rest', w2) := enemiesLoop rest w1 in
      (e' :: rest', w2)
  end.

Definition enemiesUpdate (w : World) : World :=
  let '(es, w1) := enemiesLoop (enemies w) w in
  w_set_enemies es w1.

(** *** update: particles, camera, invincibility *)

Definition stepParticle (pt : Particle) : option Particle :=
  let pt1 := mkParticle (pt_x pt + pt_vx pt) (pt_y pt + pt_vy pt)
               (pt_vx pt) (pt_vy pt) (pt_life pt - 1) (pt_color pt) in
  if (pt_life pt1 <=? 0)%Z then None else Some pt1.

Fixpoint particlesLoop (ps : list Particle) : list Particle :=
  match ps with
  | [] => []
  | pt :: rest =>
      let rest' := particlesLoop rest in
      match stepParticle pt with
      | Some pt' => pt' :: rest'
      | None => rest'
      end
  end.

Definition particlesUpdate (w : World) : World :=
  w_set_particles (particlesLoop (particles w)) w.

Definition cameraUpdate (w : World) : World :=
  let w1 :=
    if Qgtb (p_x (player w)) (camera w + CAMERA_OFFSET_X)
    then w_set_camera (p_x (player w) - CAMERA_OFFSET_X) w else w in
  if Qgtb (camera w1) (LEVEL_LENGTH - CANVAS_WIDTH)
  then w_set_camera (LEVEL_LENGTH - CANVAS_WIDTH) w1 else w1.

Definition invincibility (w : World) : World :=
  if (p_invincibleTimer (player w) >? 0)%Z
  then w_set_player
         (p_set_invincibleTimer (p_invincibleTimer (player w) - 1) (player w)) w
  else w.

(** *** update *)

Definition update (inputs : InputState) (w : World) : World :=
  if negb (GameState_eqb (gameState w) PLAYING) then w
  else
    let w := w_set_tick (tick w + 1) w in
    let w := playerPhysics inputs w in
    let w := collisionDetection w in
    let w := pitfallDeath w in
    let w := shooting inputs w in
    let w := bulletsUpdate w in
    let w := enemiesUpdate w in
    let w := particlesUpdate w in
    let w := cameraUpdate w in
    invincibility w.

(** *** initLevel *)

Definition addGround (px pw : Q) : Platform :=
  mkPlatform px (CANVAS_HEIGHT - 40) pw 40 solid.

Definition addPlat (px py pw : Q) : Platform :=
  mkPlatform px py pw 10 pass_through.

Definition levelPlatforms : list Platform :=
  [ addGround 0 800; addGround 900 300; addGround 1300 600;
    addGround 2000 200; addGround 2300 1700;
    addPlat 400 400 100; addPlat 600 300 100; addPlat 950 400 100;
    addPlat 1400 450 100; addPlat 1600 350 100; addPlat 1800 250 100;
    addPlat 2400 400 100; addPlat 2600 300 100 ].

Definition initialPlayer : Player :=
  mkPlayer 100 100 24 48 0 0 "blue" false Right false false 0 0 3 0 idle 0.

(** [spawnEnemy(x, type, y = 0)]; [n] is the [Math.random] call of the id. *)
Definition spawnEnemy (n : nat) (ex : Q) (ty : EnemyType) (ey : Q) : Enemy :=
  mkEnemy ex (if Qeq_bool ey 0 then CANVAS_HEIGHT - 88 else ey)
    (if isBoss ty then 60 else 24) (if isBoss ty then 80 else 48)
    0 0 COLORS_ENEMY_RED false (Math_random n) ty
    (if isBoss ty then 50 else 1) 0 e_idle Left.

Definition levelEnemies (n : nat) : list Enemy :=
  [ spawnEnemy n 600 runner 0;
    spawnEnemy (n + 1) 1000 turret 350;
    spawnEnemy (n + 2) 1200 runner 0;
    spawnEnemy (n + 3) 1500 runner 0;
    spawnEnemy (n + 4) 1700 turret 300;
    spawnEnemy (n + 5) 2200 runner 0;
    spawnEnemy (n + 6) 2500 runner 0;
    spawnEnemy (n + 7) 2800 runner 0;
    spawnEnemy (n + 8) 3500 boss (CANVAS_HEIGHT - 120) ].

Definition initLevel (w : World) : World :=
  mkWorld initialPlayer [] (levelEnemies (rng w)) [] 0 levelPlatforms 0
    (gameState w) (events w) (rng w + 9).

(** [handleStart] of the parent component, which opens a play session. *)
Definition handleStart (w : World) : World :=
  setGameState PLAYING (setLives 3 (setScore 0 w)).

(** A play session: the level is initialised, the game is started and
    [update] runs once per frame on the inputs of that frame. *)
Definition session (frames : list InputState) (w : World) : World :=
  fold_left (fun w inputs => update inputs w) frames (handleStart (initLevel w)).


(** ** Vocabulary of the properties *)

Definition hpOf (w : World) : Z := p_hp (player w).
Definition scoreOf (w : World) : Z := p_score (player w).
Definition timerOf (w : World) : Z := p_invincibleTimer (player w).

(** The state the parent holds after the calls [evs] (most recent first),
    starting from [s0]. *)
Fixpoint lastSet (evs : list Event) (s0 : GameState) : GameState :=
  match evs with
  | [] => s0
  | SetGameState s :: _ => s
  | _ :: rest => lastSet rest s0
  end.

(** [update] only ever requests the two terminal states. *)
Definition terminalEvent (ev : Event) : Prop :=
  match ev with
  | SetGameState s => s = GAME_OVER \/ s = VICTORY
  | _ => True
  end.

(** How one enemy may differ between two moments of a step during which
    the calls [evs] were made: its type is fixed, death is final, and the
    death of a boss comes with a VICTORY request. *)
Definition enemyEvolves (evs : list Event) (e e' : Enemy) : Prop :=
  e_type e' = e_type e /\
  (e_isDead e = true -> e_isDead e' = true) /\
  (e_isDead e = false -> e_isDead e' = true -> e_type e = boss ->
   In (SetGameState VICTORY) evs).

(** What the score gains when enemy [e] has become [e']: 1000 for a boss
    and 100 for a runner or a turret that was alive and is dead, nothing
    otherwise; and the sum over the enemy array. *)
Definition bounty (e e' : Enemy) : Z :=
  if negb (e_isDead e) && e_isDead e'
  then (if isBoss (e_type e) then 1000 else 100)%Z
  else 0%Z.

Fixpoint bounties (es es' : list Enemy) : Z :=
  match es, es' with
  | e :: rest, e' :: rest' => (bounty e e' + bounties rest rest')%Z
  | _, _ => 0%Z
  end.

(** [evolves w w']: [w'] is reached from [w] by part of a step that runs
    before the camera moves. *)
Definition evolves (w w' : World) : Prop :=
  platforms w' = platforms w /\
  camera w' = camera w /\
  (scoreOf w <= scoreOf w')%Z /\
  (hpOf w' <= hpOf w)%Z /\
  (0 <= timerOf w -> 0 <= timerOf w')%Z /\
  (0 < timerOf w -> 0 < timerOf w' /\ hpOf w' = hpOf w)%Z /\
  (timerOf w' = timerOf w \/ timerOf w' = 180%Z) /\
  scoreOf w' = (scoreOf w + bounties (enemies w) (enemies w'))%Z /\
  exists evs,
    events w' = evs ++ events w /\
    gameState w' = lastSet evs (gameState w) /\
    Forall terminalEvent evs /\
    (hpOf w' <= 0 -> hpOf w' < hpOf w -> In (SetGameState GAME_OVER) evs)%Z /\
    (In (SetGameState GAME_OVER) evs -> hpOf w' <= 0)%Z /\
    Forall2 (enemyEvolves evs) (enemies w) (enemies w').

(** The three conditions of a landing, as the platform loop tests them:
    the boxes overlap, the player moves down, and its bottom edge was at or
    above the platform top before this tick's vy was applied. *)
Definition landsOn (p : Player) (plat : Platform) : bool :=
  Qltb (p_x p) (plat_x plat + plat_width plat) &&
  Qgtb (p_x p + p_width p) (plat_x plat) &&
  Qltb (p_y p) (plat_y plat + plat_height plat) &&
  Qgtb (p_y p + p_height p) (plat_y plat) &&
  Qgtb (p_vy p) 0 &&
  Qleb (p_y p - p_vy p + p_height p) (plat_y plat).

(** The three counters of the player that movement never touches. *)
Definition sameVitals (p p' : Player) : Prop :=
  p_hp p' = p_hp p /\ p_score p' = p_score p /\
  p_invincibleTimer p' = p_invincibleTimer p.

(** What the AI never changes on an enemy. *)
Definition sameKind (e e' : Enemy) : Prop :=
  e_type e' = e_type e /\ e_isDead e' = e_isDead e /\ e_hp e' = e_hp e.

(** [b'] is what the bullet loop keeps of [b]: [b] moved and still in
    play, its life either counted down or set to 0 by a hit. *)
Definition survivor (cam : Q) (b b' : Bullet) : Prop :=
  bulletGone cam (moveBullet b) = false /\
  (b' = moveBullet b \/ b' = b_set_life 0 (moveBullet b)).

(** The phases of [update] that run before the camera moves. *)
Definition beforeCamera (inputs : InputState) (w : World) : World :=
  particlesUpdate (enemiesUpdate (bulletsUpdate (shooting inputs
    (pitfallDeath (collisionDetection (playerPhysics inputs
       (w_set_tick (tick w + 1) w))))))).

(** The phases of [update] that follow the player physics and precede the
    camera. *)
Definition afterPhysics (inputs : InputState) (w : World) : World :=
  particlesUpdate (enemiesUpdate (bulletsUpdate (shooting inputs
    (pitfallDeath (collisionDetection w))))).

(** ** The loop driver

    [animate] of the loop-driver effect: the state is [lastTime] and the
    world; [draw] writes nothing the simulation reads. *)
Definition animate (inputs : InputState) (time : Q) (st : Q * World)
    : Q * World :=
  let '(lastTime, w) := st in
  let deltaTime := time - lastTime in
  if Qleb 16 deltaTime then (time, update inputs w) else (lastTime, w).

(** The animation frames of a run, each with its timestamp and the input
    flags held when it fires. *)
Definition runFrames (frames : list (Q * InputState)) (st : Q * World)
    : Q * World :=
  fold_left (fun st f => animate (snd f) (fst f) st) frames st.

(** ** The particle loop on array indices

    [for (let i = particles.length - 1; i >= 0; i--)] with its in-place
    update and [splice(i, 1)]: [sweepFrom i ps] runs the iterations for the
    indices [i - 1] down to [0]. *)
Fixpoint sweepFrom (i : nat) (ps : list Particle) : list Particle :=
  match i with
  | O => ps
  | S j =>
      match nth_error ps j with
      | None => sweepFrom j ps
      | Some pt =>
          let pt1 := mkParticle (pt_x pt + pt_vx pt) (pt_y pt + pt_vy pt)
                       (pt_vx pt) (pt_vy pt) (pt_life pt - 1) (pt_color pt) in
          let ps1 := setAt j pt1 ps in
          if (pt_life pt1 <=? 0)%Z
          then sweepFrom j (removeAt j ps1)
          else sweepFrom j ps1
      end
  end.

Definition particlesSweep (ps : list Particle) : list Particle :=
  sweepFrom (List.length ps) ps.

(** A frame's inputs with the jump flag replaced. *)
Definition withJump (j : bool) (i : InputState) : InputState :=
  mkInput (left i) (right i) (up i) (down i) j (shoot i).

(** The number of player-owned bullets in an array. *)
Definition playerShots (bs : list Bullet) : nat :=
  List.length (filter (fun b => match b_owner b with
                           | OwnerPlayer => true | OwnerEnemy => false end) bs).

(** The part of the player that no phase of a step writes. *)
Definition sameBody (p p' : Player) : Prop :=
  p_width p' = p_width p /\ p_height p' = p_height p /\
  p_color p' = p_color p /\ p_isDead p' = p_isDead p /\
  p_isCrouching p' = p_isCrouching p /\ p_state p' = p_state p.

(** What the physics phase never touches on the player, besides the
    counters of [sameVitals]. *)
Definition physicsKeeps (p p' : Player) : Prop :=
  p_width p' = p_width p /\ p_height p' = p_height p /\
  p_color p' = p_color p /\ p_isDead p' = p_isDead p /\
  p_isCrouching p' = p_isCrouching p /\
  p_shootCooldown p' = p_shootCooldown p /\ p_state p' = p_state p.

(** How hp and the invincibility timer may move before the timer ticks. *)
Definition livesMove (w w' : World) : Prop :=
  (hpOf w' <= hpOf w)%Z /\
  ((0 < timerOf w)%Z -> timerOf w' = timerOf w /\ hpOf w' = hpOf w) /\
  ((0 < hpOf w')%Z ->
   (hpOf w' = hpOf w /\ timerOf w' = timerOf w) \/
   (hpOf w' = hpOf w - 1 /\ timerOf w' = 180 /\ timerOf w <= 0)%Z).

(** The HUD agrees with the player. *)
Definition hudInSync (w : World) : Prop :=
  shownLives (events w) = hpOf w /\ shownScore (events w) = scoreOf w.

(** What a step may do to one enemy of the array: identity, type and size
    are fixed, and a dead enemy is not written at all. *)
Definition enemyKept (e e' : Enemy) : Prop :=
  e_id e' = e_id e /\ e_type e' = e_type e /\
  e_width e' = e_width e /\ e_height e' = e_height e /\
  (e_isDead e = true -> e' = e).

(** The hp an enemy type starts with, and the agreement of an enemy's hp
    with its dead flag. *)
Definition startHp (t : EnemyType) : Z := if isBoss t then 50%Z else 1%Z.

Definition hpAgrees (e : Enemy) : Prop :=
  (e_isDead e = false /\ (1 <= e_hp e <= startHp (e_type e))%Z) \/
  (e_isDead e = true /\ e_hp e = 0%Z).

(** The number of enemy-owned bullets in an array. *)
Definition enemyShots (bs : list Bullet) : nat :=
  List.length (filter (fun b => match b_owner b with
                                | OwnerPlayer => false | OwnerEnemy => true end) bs).

(** An enemy that cannot fire during the next [k] steps: a runner, or a
    turret or boss whose cooldown still counts more than [k]. *)
Definition holdsFire (k : Z) (e : Enemy) : Prop :=
  e_type e = runner \/ (k < e_shootCooldown e)%Z.

(** Whether the bullet [b], already moved, finds a target in [w]: for a
    player bullet a live enemy that overlaps it, for an enemy bullet the
    player, when it overlaps it and is not invincible. *)
Definition scoresHit (b : Bullet) (w : World) : bool :=
  match b_owner b with
  | OwnerPlayer => existsb (bulletHits b) (enemies w)
  | OwnerEnemy =>
      checkCollision (boxOfBullet b) (boxOfPlayer (player w))
      && (p_invincibleTimer (player w) <=? 0)%Z
  end.

(** The world in which the bullet loop of a step starts. *)
Definition beforeBullets (inputs : InputState) (w : World) : World :=
  shooting inputs
    (pitfallDeath (collisionDetection (playerPhysics inputs
       (w_set_tick (tick w + 1) w)))).

(** ** Properties *)

(** *** Boolean comparisons against their propositions *)

Lemma Qltb_lt (a b : Q) : Qltb a b = true <-> a < b.
Proof.
  unfold Qltb. rewrite negb_true_iff.
  split; intro H.
  - apply Qnot_le_lt. intro L. apply Qle_bool_iff in L. congruence.
  - destruct (Qle_bool b a) eqn:E; trivial.
    apply Qle_bool_iff in E. apply Qle_not_lt in E. contradiction.
Qed.

Lemma Qltb_ge (a b : Q) : Qltb a b = false <-> b <= a.
Proof.
  unfold Qltb. rewrite negb_false_iff. apply Qle_bool_iff.
Qed.

Lemma Qgtb_gt (a b : Q) : Qgtb a b = true <-> b < a.
Proof. apply Qltb_lt. Qed.

Lemma Qgtb_le (a b : Q) : Qgtb a b = false <-> a <= b.
Proof. apply Qltb_ge. Qed.

Lemma Qleb_le (a b : Q) : Qleb a b = true <-> a <= b.
Proof. apply Qle_bool_iff. Qed.

Lemma Qleb_gt (a b : Q) : Qleb a b = false <-> b < a.
Proof.
  unfold Qleb. split; intro H.
  - apply Qnot_le_lt. intro L. apply Qle_bool_iff in L. congruence.
  - destruct (Qle_bool a b) eqn:E; trivial.
    apply Qle_bool_iff in E. apply Qle_not_lt in E. contradiction.
Qed.

Lemma GameState_eqb_eq (a b : GameState) : GameState_eqb a b = true <-> a = b.
Proof. destruct a, b; simpl; split; intro H; congruence. Qed.

(** Turns the boolean tests found in the context into propositions. *)
Ltac reflect_tests :=
  repeat match goal with
  | H : _ && _ = true |- _ => apply andb_true_iff in H; destruct H
  | H : _ || _ = false |- _ => apply orb_false_iff in H; destruct H
  | H : negb _ = true |- _ => apply negb_true_iff in H
  | H : negb _ = false |- _ => apply negb_false_iff in H
  | H : Qltb _ _ = true |- _ => apply Qltb_lt in H
  | H : Qltb _ _ = false |- _ => apply Qltb_ge in H
  | H : Qgtb _ _ = true |- _ => apply Qgtb_gt in H
  | H : Qgtb _ _ = false |- _ => apply Qgtb_le in H
  | H : Qleb _ _ = true |- _ => apply Qleb_le in H
  | H : Qleb _ _ = false |- _ => apply Qleb_gt in H
  | H : (_ <=? _)%Z = true |- _ => apply Z.leb_le in H
  | H : (_ <=? _)%Z = false |- _ => apply Z.leb_gt in H
  | H : (_ >? _)%Z = true |- _ => apply Z.gtb_lt in H
  | H : (_ >? _)%Z = false |- _ => rewrite Z.gtb_ltb in H; apply Z.ltb_ge in H
  | H : (_ =? _)%Z = true |- _ => apply Z.eqb_eq in H
  | H : (_ =? _)%Z = false |- _ => apply Z.eqb_neq in H
  end.

(** *** What createParticles leaves alone *)

Lemma createParticlesLoop_frame k px py c w :
  let w' := createParticlesLoop k px py c w in
  player w' = player w /\ bullets w' = bullets w /\ enemies w' = enemies w /\
  camera w' = camera w /\ platforms w' = platforms w /\ tick w' = tick w /\
  gameState w' = gameState w /\ events w' = events w.
Proof.
  revert w. induction k as [|k IH]; intro w; simpl.
  - repeat split.
  - specialize (IH (w_set_rng (rng w + 2)
      (w_set_particles (particles w ++ [newParticle px py c (rng w)]) w))).
    simpl in IH. exact IH.
Qed.

Lemma createParticles_player px py c w :
  player (createParticles px py c w) = player w.
Proof. apply (createParticlesLoop_frame 8 px py c w). Qed.
Lemma createParticles_bullets px py c w :
  bullets (createParticles px py c w) = bullets w.
Proof. apply (createParticlesLoop_frame 8 px py c w). Qed.
Lemma createParticles_enemies px py c w :
  enemies (createParticles px py c w) = enemies w.
Proof. apply (createParticlesLoop_frame 8 px py c w). Qed.
Lemma createParticles_camera px py c w :
  camera (createParticles px py c w) = camera w.
Proof. apply (createParticlesLoop_frame 8 px py c w). Qed.
Lemma createParticles_platforms px py c w :
  platforms (createParticles px py c w) = platforms w.
Proof. apply (createParticlesLoop_frame 8 px py c w). Qed.
Lemma createParticles_tick px py c w :
  tick (createParticles px py c w) = tick w.
Proof. apply (createParticlesLoop_frame 8 px py c w). Qed.
Lemma createParticles_gameState px py c w :
  gameState (createParticles px py c w) = gameState w.
Proof. apply (createParticlesLoop_frame 8 px py c w). Qed.
Lemma createParticles_events px py c w :
  events (createParticles px py c w) = events w.
Proof. apply (createParticlesLoop_frame 8 px py c w). Qed.

Create Rewrite HintDb frame.
#[local] Hint Rewrite createParticles_player createParticles_bullets
  createParticles_enemies createParticles_camera createParticles_platforms
  createParticles_tick createParticles_gameState createParticles_events
  : frame.

(** *** handlePlayerDeath *)

(** The two outcomes of an accepted death, and the rejected call. *)
Lemma handlePlayerDeath_cases w :
  let p := player w in
  let w' := handlePlayerDeath w in
  ((0 < p_invincibleTimer p)%Z /\ w' = w) \/
  ((p_invincibleTimer p <= 0)%Z /\ (p_hp p - 1 <= 0)%Z /\
   player w' = p_set_hp (p_hp p - 1) p /\
   gameState w' = GAME_OVER /\
   events w' = SetGameState GAME_OVER :: SetLives (p_hp p - 1) :: events w) \/
  ((p_invincibleTimer p <= 0)%Z /\ (0 < p_hp p - 1)%Z /\
   player w' = respawn (camera w) (p_set_hp (p_hp p - 1) p) /\
   gameState w' = gameState w /\
   events w' = SetLives (p_hp p - 1) :: events w).
Proof.
  intros p w'. subst p w'. unfold handlePlayerDeath.
  destruct (p_invincibleTimer (player w) >? 0)%Z eqn:G.
  - left. reflect_tests. auto.
  - right. reflect_tests. autorewrite with frame. simpl.
    destruct (p_hp (player w) - 1 <=? 0)%Z eqn:D; reflect_tests.
    + left. simpl. autorewrite with frame. simpl. auto.
    + right. simpl. autorewrite with frame. simpl. auto.
Qed.

Lemma handlePlayerDeath_arena w :
  bullets (handlePlayerDeath w) = bullets w /\
  enemies (handlePlayerDeath w) = enemies w /\
  camera (handlePlayerDeath w) = camera w /\
  platforms (handlePlayerDeath w) = platforms w /\
  tick (handlePlayerDeath w) = tick w.
Proof.
  unfold handlePlayerDeath.
  destruct (p_invincibleTimer (player w) >? 0)%Z; [auto|].
  autorewrite with frame. simpl.
  destruct (p_hp (player w) - 1 <=? 0)%Z; simpl; autorewrite with frame;
    simpl; auto.
Qed.

Lemma handlePlayerDeath_bullets w : bullets (handlePlayerDeath w) = bullets w.
Proof. apply handlePlayerDeath_arena. Qed.
Lemma handlePlayerDeath_enemies w : enemies (handlePlayerDeath w) = enemies w.
Proof. apply handlePlayerDeath_arena. Qed.
Lemma handlePlayerDeath_camera w : camera (handlePlayerDeath w) = camera w.
Proof. apply handlePlayerDeath_arena. Qed.
Lemma handlePlayerDeath_platforms w : platforms (handlePlayerDeath w) = platforms w.
Proof. apply handlePlayerDeath_arena. Qed.

#[local] Hint Rewrite handlePlayerDeath_bullets handlePlayerDeath_enemies
  handlePlayerDeath_camera handlePlayerDeath_platforms : frame.

(** *** The relation [evolves] *)

Lemma lastSet_app evs' evs s0 :
  lastSet (evs' ++ evs) s0 = lastSet evs' (lastSet evs s0).
Proof.
  induction evs' as [|ev evs' IH]; simpl; [reflexivity|].
  destruct ev; auto.
Qed.

Lemma enemyEvolves_refl evs e : enemyEvolves evs e e.
Proof. unfold enemyEvolves. repeat split; auto. congruence. Qed.

Lemma Forall2_enemyEvolves_refl evs es : Forall2 (enemyEvolves evs) es es.
Proof. induction es; constructor; auto using enemyEvolves_refl. Qed.

Lemma enemyEvolves_trans evs evs' e e' e'' :
  enemyEvolves evs e e' -> enemyEvolves evs' e' e'' ->
  enemyEvolves (evs' ++ evs) e e''.
Proof.
  intros (T1 & D1 & V1) (T2 & D2 & V2). unfold enemyEvolves.
  repeat split.
  - congruence.
  - auto.
  - intros A D B. apply in_or_app.
    destruct (e_isDead e') eqn:E.
    + right. auto.
    + left. apply V2; congruence.
Qed.

Lemma Forall2_enemyEvolves_trans evs evs' es es' es'' :
  Forall2 (enemyEvolves evs) es es' -> Forall2 (enemyEvolves evs') es' es'' ->
  Forall2 (enemyEvolves (evs' ++ evs)) es es''.
Proof.
  intro H. revert es''. induction H as [|e e' es es' He Hes IH]; intros es'' H2.
  - inversion H2. constructor.
  - inversion H2 as [|? e'' ? es2 He' Hes']; subst.
    constructor; eauto using enemyEvolves_trans.
Qed.

Lemma bounty_same e e' : e_isDead e' = e_isDead e -> bounty e e' = 0%Z.
Proof. unfold bounty. intros ->. destruct (e_isDead e); reflexivity. Qed.

Lemma bounties_refl es : bounties es es = 0%Z.
Proof.
  induction es as [|e es IH]; simpl; [reflexivity|].
  rewrite IH, bounty_same; reflexivity.
Qed.

Lemma bounty_trans evs evs' e e' e'' :
  enemyEvolves evs e e' -> enemyEvolves evs' e' e'' ->
  bounty e e'' = (bounty e e' + bounty e' e'')%Z.
Proof.
  intros (T1 & D1 & _) (T2 & D2 & _). unfold bounty. rewrite T1.
  destruct (e_isDead e) eqn:A.
  - rewrite (D1 eq_refl), (D2 (D1 eq_refl)). reflexivity.
  - destruct (e_isDead e') eqn:B.
    + rewrite (D2 eq_refl). simpl. lia.
    + simpl. destruct (e_isDead e''); lia.
Qed.

Lemma bounties_trans evs evs' es es' es'' :
  Forall2 (enemyEvolves evs) es es' -> Forall2 (enemyEvolves evs') es' es'' ->
  bounties es es'' = (bounties es es' + bounties es' es'')%Z.
Proof.
  intro H. revert es''. induction H as [|e e' es es' He Hes IH]; intros es'' H2.
  - inversion H2. reflexivity.
  - inversion H2 as [|? e'' ? es2 He' Hes']; subst. simpl.
    rewrite (IH _ Hes'), (bounty_trans _ _ _ _ _ He He'). lia.
Qed.

Lemma evolves_refl w : evolves w w.
Proof.
  unfold evolves. rewrite bounties_refl.
  repeat apply conj; try lia; try tauto.
  exists []. simpl.
  repeat apply conj; auto; try lia; try tauto.
  apply Forall2_enemyEvolves_refl.
Qed.

Lemma evolves_trans w1 w2 w3 : evolves w1 w2 -> evolves w2 w3 -> evolves w1 w3.
Proof.
  intros (P1 & C1 & S1 & H1 & T1 & I1 & J1 & B1 & evs & E1 & G1 & F1 & O1 & D1 & R1)
         (P2 & C2 & S2 & H2 & T2 & I2 & J2 & B2 & evs' & E2 & G2 & F2 & O2 & D2 & R2).
  pose proof (bounties_trans _ _ _ _ _ R1 R2) as B3.
  unfold evolves. repeat apply conj; try congruence; try lia.
  exists (evs' ++ evs). repeat apply conj.
  - rewrite E2, E1. apply app_assoc.
  - rewrite G2, G1. symmetry. apply lastSet_app.
  - apply Forall_app. auto.
  - intros A B. apply in_or_app.
    destruct (Z.eq_dec (hpOf w3) (hpOf w2)) as [Q|Q].
    + right. apply O1; lia.
    + left. apply O2; lia.
  - intro A. apply in_app_or in A. destruct A as [A|A].
    + apply D2, A.
    + specialize (D1 A). lia.
  - eapply Forall2_enemyEvolves_trans; eauto.
Qed.

(** A phase that touches none of the tracked fields. *)
Lemma evolves_same w w' :
  platforms w' = platforms w -> camera w' = camera w ->
  scoreOf w' = scoreOf w -> hpOf w' = hpOf w -> timerOf w' = timerOf w ->
  events w' = events w -> gameState w' = gameState w ->
  enemies w' = enemies w ->
  evolves w w'.
Proof.
  intros P C S H T E G N. unfold evolves.
  rewrite P, C, S, H, T, N, bounties_refl. repeat apply conj; try lia; auto.
  exists []. simpl.
  repeat apply conj; auto; try lia; try tauto.
  apply Forall2_enemyEvolves_refl.
Qed.

Lemma handlePlayerDeath_evolves w : evolves w (handlePlayerDeath w).
Proof.
  destruct (handlePlayerDeath_arena w) as (B & N & C & P & _).
  destruct (handlePlayerDeath_cases w)
    as [[I E]|[(I & D & E & G & V)|(I & D & E & G & V)]].
  - rewrite E. apply evolves_refl.
  - unfold evolves, hpOf, scoreOf, timerOf.
    rewrite P, C, N, E, G, V, bounties_refl. simpl.
    repeat apply conj; try reflexivity; try lia.
    exists [SetGameState GAME_OVER; SetLives (p_hp (player w) - 1)].
    simpl. repeat apply conj; auto; try (intros; lia).
    + repeat constructor; simpl; auto.
    + apply Forall2_enemyEvolves_refl.
  - unfold evolves, hpOf, scoreOf, timerOf.
    rewrite P, C, N, E, G, V, bounties_refl. simpl.
    repeat apply conj; try reflexivity; try lia.
    exists [SetLives (p_hp (player w) - 1)].
    simpl. repeat apply conj; auto; try lia.
    + repeat constructor.
    + intros [A|[]]. discriminate.
    + apply Forall2_enemyEvolves_refl.
Qed.

(** *** The player-only phases *)

Lemma sameVitals_refl p : sameVitals p p.
Proof. unfold sameVitals. auto. Qed.

Lemma sameVitals_trans p q r : sameVitals p q -> sameVitals q r -> sameVitals p r.
Proof. unfold sameVitals. intuition congruence. Qed.

Lemma checkPlatform_vitals p plat : sameVitals p (checkPlatform p plat).
Proof.
  unfold checkPlatform, sameVitals.
  destruct (overlapsPlatform p plat); auto.
  destruct (Qgtb (p_vy p) 0 && wasAbove p plat); simpl; auto.
Qed.

Lemma checkPlatforms_vitals plats p : sameVitals p (checkPlatforms plats p).
Proof.
  revert p. induction plats as [|plat plats IH]; intro p; simpl.
  - apply sameVitals_refl.
  - eapply sameVitals_trans; [apply checkPlatform_vitals | apply IH].
Qed.

Lemma horizontalMovement_vitals inputs p :
  sameVitals p (horizontalMovement inputs p).
Proof.
  unfold horizontalMovement, sameVitals.
  destruct (left inputs), (right inputs); simpl; auto.
Qed.

Lemma verticalFacing_vitals inputs p : sameVitals p (verticalFacing inputs p).
Proof.
  unfold verticalFacing, sameVitals.
  destruct (up inputs), (down inputs); simpl; auto.
Qed.

Lemma jumping_vitals inputs p : sameVitals p (jumping inputs p).
Proof.
  unfold jumping, sameVitals.
  destruct (i_jump inputs && p_isGrounded p), (down inputs); simpl; auto.
Qed.

Lemma gravity_vitals p : sameVitals p (gravity p).
Proof. unfold gravity, sameVitals. simpl. auto. Qed.

Lemma levelBounds_vitals cam p : sameVitals p (levelBounds cam p).
Proof.
  unfold levelBounds, sameVitals. destruct (Qltb (p_x p) cam); simpl; auto.
Qed.

Lemma physics_vitals inputs cam p :
  sameVitals p
    (levelBounds cam (gravity (jumping inputs (verticalFacing inputs
       (horizontalMovement inputs p))))).
Proof.
  eapply sameVitals_trans; [apply horizontalMovement_vitals|].
  eapply sameVitals_trans; [apply verticalFacing_vitals|].
  eapply sameVitals_trans; [apply jumping_vitals|].
  eapply sameVitals_trans; [apply gravity_vitals|].
  apply levelBounds_vitals.
Qed.

Lemma evolves_player w p' :
  sameVitals (player w) p' -> evolves w (w_set_player p' w).
Proof.
  intros (H & S & T). apply evolves_same; simpl; auto.
Qed.

Lemma playerPhysics_evolves inputs w : evolves w (playerPhysics inputs w).
Proof. apply evolves_player, physics_vitals. Qed.

Lemma collisionDetection_evolves w : evolves w (collisionDetection w).
Proof.
  apply evolves_player.
  eapply sameVitals_trans; [|apply checkPlatforms_vitals].
  unfold sameVitals. simpl. auto.
Qed.

Lemma pitfallDeath_evolves w : evolves w (pitfallDeath w).
Proof.
  unfold pitfallDeath. destruct (Qgtb (p_y (player w)) CANVAS_HEIGHT).
  - apply handlePlayerDeath_evolves.
  - apply evolves_refl.
Qed.

Lemma shooting_evolves inputs w : evolves w (shooting inputs w).
Proof.
  unfold shooting, tickCooldown.
  destruct (Qgtb (p_shootCooldown (player w)) 0); simpl;
  match goal with |- context [if ?c then _ else _] => destruct c end;
  apply evolves_same; reflexivity.
Qed.

Lemma particlesUpdate_evolves w : evolves w (particlesUpdate w).
Proof. apply evolves_same; reflexivity. Qed.

(** *** Player bullets against enemies *)

Lemma damageEnemy_arena e w :
  platforms (snd (damageEnemy e w)) = platforms w /\
  camera (snd (damageEnemy e w)) = camera w /\
  bullets (snd (damageEnemy e w)) = bullets w /\
  enemies (snd (damageEnemy e w)) = enemies w /\
  p_hp (player (snd (damageEnemy e w))) = p_hp (player w) /\
  p_invincibleTimer (player (snd (damageEnemy e w))) = p_invincibleTimer (player w).
Proof.
  unfold damageEnemy. simpl.
  destruct (e_hp e - 1 <=? 0)%Z; simpl.
  - destruct (isBoss (e_type e)); simpl; autorewrite with frame;
      repeat apply conj; reflexivity.
  - autorewrite with frame. repeat apply conj; reflexivity.
Qed.

(** The two outcomes of a hit: the enemy survives, or it dies and pays. *)
Lemma damageEnemy_cases e w :
  let r := damageEnemy e w in
  ((0 < e_hp e - 1)%Z /\
   fst r = e_set_hp (e_hp e - 1) e /\
   player (snd r) = player w /\
   events (snd r) = events w /\
   gameState (snd r) = gameState w) \/
  ((e_hp e - 1 <= 0)%Z /\
   fst r = e_set_isDead true (e_set_hp (e_hp e - 1) e) /\
   player (snd r) =
     p_set_score (p_score (player w)
                  + (if isBoss (e_type e) then 1000 else 100))%Z (player w) /\
   events (snd r) =
     (if isBoss (e_type e) then [SetGameState VICTORY] else [])
     ++ SetScore (p_score (player w)
                  + (if isBoss (e_type e) then 1000 else 100))%Z
     :: events w /\
   gameState (snd r) = if isBoss (e_type e) then VICTORY else gameState w).
Proof.
  intro r. subst r. unfold damageEnemy. simpl.
  destruct (e_hp e - 1 <=? 0)%Z eqn:D; reflect_tests; simpl.
  - right. destruct (isBoss (e_type e)); simpl; autorewrite with frame;
      repeat apply conj; auto.
  - left. autorewrite with frame. repeat apply conj; auto.
Qed.

Lemma damageEnemy_evolves_enemy e w :
  e_isDead e = false ->
  exists evs,
    events (snd (damageEnemy e w)) = evs ++ events w /\
    gameState (snd (damageEnemy e w)) = lastSet evs (gameState w) /\
    Forall terminalEvent evs /\
    enemyEvolves evs e (fst (damageEnemy e w)) /\
    (scoreOf w <= scoreOf (snd (damageEnemy e w)))%Z /\
    scoreOf (snd (damageEnemy e w))
      = (scoreOf w + bounty e (fst (damageEnemy e w)))%Z /\
    ~ In (SetGameState GAME_OVER) evs.
Proof.
  intro A. unfold scoreOf, bounty. rewrite A.
  destruct (damageEnemy_cases e w)
    as [(H & F & P & E & G)|(H & F & P & E & G)]; rewrite F, P, E, G.
  - exists []. simpl. rewrite A. simpl.
    repeat apply conj; auto; try lia.
    unfold enemyEvolves. simpl. repeat apply conj; auto. congruence.
  - destruct (e_type e) eqn:T; simpl.
    + exists [SetScore (p_score (player w) + 100)]. simpl.
      repeat apply conj; auto; try lia.
      * repeat constructor.
      * unfold enemyEvolves. simpl. rewrite T.
        repeat apply conj; auto. congruence.
      * intros [X|[]]. discriminate.
    + exists [SetScore (p_score (player w) + 100)]. simpl.
      repeat apply conj; auto; try lia.
      * repeat constructor.
      * unfold enemyEvolves. simpl. rewrite T.
        repeat apply conj; auto. congruence.
      * intros [X|[]]. discriminate.
    + exists [SetGameState VICTORY; SetScore (p_score (player w) + 1000)].
      simpl. repeat apply conj; auto; try lia.
      * constructor; [simpl; auto | repeat constructor].
      * unfold enemyEvolves. simpl. repeat apply conj; auto.
      * intros [X|[X|[]]]; discriminate.
Qed.

Lemma bulletHits_alive b e : bulletHits b e = true -> e_isDead e = false.
Proof.
  unfold bulletHits. intro H. apply andb_true_iff in H. destruct H as [H _].
  apply negb_true_iff in H. exact H.
Qed.

Lemma bulletVsEnemies_evolves b es w :
  let r := bulletVsEnemies b es w in
  platforms (snd (fst r)) = platforms w /\
  camera (snd (fst r)) = camera w /\
  bullets (snd (fst r)) = bullets w /\
  enemies (snd (fst r)) = enemies w /\
  hpOf (snd (fst r)) = hpOf w /\
  timerOf (snd (fst r)) = timerOf w /\
  (scoreOf w <= scoreOf (snd (fst r)))%Z /\
  scoreOf (snd (fst r)) = (scoreOf w + bounties es (fst (fst r)))%Z /\
  exists evs,
    events (snd (fst r)) = evs ++ events w /\
    gameState (snd (fst r)) = lastSet evs (gameState w) /\
    Forall terminalEvent evs /\
    ~ In (SetGameState GAME_OVER) evs /\
    Forall2 (enemyEvolves evs) es (fst (fst r)).
Proof.
  induction es as [|e es IH]; simpl.
  - repeat apply conj; auto; try lia.
    exists []. simpl. repeat apply conj; auto.
  - destruct (bulletHits b e) eqn:BH.
    + destruct (damageEnemy_arena e w) as (A1 & A2 & A3 & A4 & A5 & A6).
      destruct (damageEnemy_evolves_enemy e w (bulletHits_alive _ _ BH))
        as (evs & E & G & F & V & S & Sc & NG).
      destruct (damageEnemy e w) as [e' w'] eqn:D. simpl in *.
      unfold hpOf, timerOf. rewrite bounties_refl.
      repeat apply conj; auto; try lia.
      exists evs. repeat apply conj; auto.
      constructor; [exact V | apply Forall2_enemyEvolves_refl].
    + destruct (bulletVsEnemies b es w) as [[es' w'] hit]. simpl in *.
      destruct IH
        as (A1 & A2 & A3 & A4 & A5 & A6 & S & Sc & evs & E & G & F & NG & R).
      rewrite bounty_same by reflexivity.
      repeat apply conj; auto.
      exists evs. repeat apply conj; auto.
      constructor; [apply enemyEvolves_refl | exact R].
Qed.

(** *** The bullet loop *)

Lemma stepBullet_evolves b w : evolves w (snd (stepBullet b w)).
Proof.
  unfold stepBullet.
  destruct (bulletGone (camera w) (moveBullet b)); [apply evolves_refl|].
  destruct (b_owner (moveBullet b)).
  - pose proof (bulletVsEnemies_evolves (moveBullet b) (enemies w) w) as H.
    destruct (bulletVsEnemies (moveBullet b) (enemies w) w) as [[es w1] hit].
    simpl in *.
    destruct H
      as (A1 & A2 & A3 & A4 & A5 & A6 & S & Sc & evs & E & G & F & NG & R).
    unfold evolves. unfold hpOf, timerOf, scoreOf in *. simpl.
    repeat apply conj; auto; try lia.
    exists evs. repeat apply conj; auto; try lia.
    intro X. contradiction.
  - destruct (checkCollision (boxOfBullet (moveBullet b))
                (boxOfPlayer (player w))
              && (p_invincibleTimer (player w) <=? 0)%Z); simpl.
    + apply handlePlayerDeath_evolves.
    + apply evolves_refl.
Qed.

Lemma bulletsLoop_evolves bs w : evolves w (snd (bulletsLoop bs w)).
Proof.
  induction bs as [|b bs IH]; simpl.
  - apply evolves_refl.
  - destruct (bulletsLoop bs w) as [rest' w1]. simpl in IH.
    pose proof (stepBullet_evolves b w1) as H.
    destruct (stepBullet b w1) as [ob w2]. simpl in *.
    eapply evolves_trans; eauto.
Qed.

Lemma bulletsUpdate_evolves w : evolves w (bulletsUpdate w).
Proof.
  unfold bulletsUpdate.
  pose proof (bulletsLoop_evolves (bullets w) w) as H.
  destruct (bulletsLoop (bullets w) w) as [bs w1]. exact H.
Qed.

(** *** The enemy loop *)

Lemma sameKind_refl e : sameKind e e.
Proof. unfold sameKind. auto. Qed.

Lemma sameKind_trans e1 e2 e3 : sameKind e1 e2 -> sameKind e2 e3 -> sameKind e1 e3.
Proof. unfold sameKind. intuition congruence. Qed.

Lemma floorClamp_kind plats e : sameKind e (floorClamp plats e).
Proof.
  unfold floorClamp. revert e.
  induction plats as [|plat plats IH]; intro e; simpl.
  - apply sameKind_refl.
  - eapply sameKind_trans; [|apply IH].
    destruct (overlapsPlatformE e plat); unfold sameKind; simpl; auto.
Qed.

Lemma runnerMove_kind plats d e : sameKind e (runnerMove plats d e).
Proof.
  unfold runnerMove.
  eapply sameKind_trans; [|apply floorClamp_kind].
  destruct (Qgtb (Math_abs d) 10); unfold sameKind; simpl; auto.
Qed.

Lemma enemyShoot_kind p e : sameKind e (fst (enemyShoot p e)).
Proof.
  unfold enemyShoot. simpl.
  destruct (e_shootCooldown e - 1 <=? 0)%Z; unfold sameKind; simpl; auto.
Qed.

Lemma enemyAI_kind w e : sameKind e (fst (enemyAI w e)).
Proof.
  unfold enemyAI.
  destruct (Qltb (Math_abs (p_x (player w) - e_x e)) 600);
    [|apply sameKind_refl].
  destruct (isRunner (e_type e)).
  - match goal with |- context [if ?c then _ else _] => destruct c end.
    + eapply sameKind_trans; [apply runnerMove_kind | apply enemyShoot_kind].
    + apply runnerMove_kind.
  - match goal with |- context [if ?c then _ else _] => destruct c end.
    + apply enemyShoot_kind.
    + apply sameKind_refl.
Qed.

Lemma stepEnemy_kind e w : sameKind e (fst (stepEnemy e w)).
Proof.
  unfold stepEnemy. destruct (e_isDead e); [apply sameKind_refl|].
  pose proof (enemyAI_kind w e) as HK.
  destruct (enemyAI w e) as [e1 pushed]. simpl in HK.
  match goal with |- context [if ?c then _ else _] => destruct c end; exact HK.
Qed.

Lemma evolves_push w bs : evolves w (w_set_bullets bs w).
Proof. apply evolves_same; reflexivity. Qed.

Lemma stepEnemy_evolves e w : evolves w (snd (stepEnemy e w)).
Proof.
  unfold stepEnemy. destruct (e_isDead e); [apply evolves_refl|].
  destruct (enemyAI w e) as [e1 pushed].
  match goal with |- context [if ?c then _ else _] => destruct c end; simpl.
  - eapply evolves_trans; [apply evolves_push | apply handlePlayerDeath_evolves].
  - apply evolves_push.
Qed.

Lemma stepEnemy_enemies e w : enemies (snd (stepEnemy e w)) = enemies w.
Proof.
  unfold stepEnemy. destruct (e_isDead e); [reflexivity|].
  destruct (enemyAI w e) as [e1 pushed].
  match goal with |- context [if ?c then _ else _] => destruct c end; simpl;
    autorewrite with frame; reflexivity.
Qed.

Lemma enemiesLoop_spec es w :
  Forall2 sameKind es (fst (enemiesLoop es w)) /\
  enemies (snd (enemiesLoop es w)) = enemies w /\
  evolves w (snd (enemiesLoop es w)).
Proof.
  revert w. induction es as [|e es IH]; intro w; simpl.
  - split; [constructor | split; [reflexivity | apply evolves_refl]].
  - pose proof (stepEnemy_kind e w) as HK.
    pose proof (stepEnemy_evolves e w) as V.
    pose proof (stepEnemy_enemies e w) as N.
    destruct (stepEnemy e w) as [e' w1]. simpl in *.
    specialize (IH w1).
    destruct (enemiesLoop es w1) as [rest' w2]. simpl in *.
    destruct IH as (F & N2 & V2).
    split; [|split].
    + constructor; assumption.
    + congruence.
    + eapply evolves_trans; eauto.
Qed.

Lemma sameKind_evolves evs e e' : sameKind e e' -> enemyEvolves evs e e'.
Proof.
  intros (T & D & _). unfold enemyEvolves. rewrite T, D.
  repeat apply conj; auto. congruence.
Qed.

Lemma sameKind_bounties es es' : Forall2 sameKind es es' -> bounties es es' = 0%Z.
Proof.
  induction 1 as [|e e' es es' He Hes IH]; simpl; [reflexivity|].
  destruct He as (_ & D & _). rewrite IH, bounty_same; auto.
Qed.

Lemma enemiesUpdate_evolves w : evolves w (enemiesUpdate w).
Proof.
  unfold enemiesUpdate.
  destruct (enemiesLoop_spec (enemies w) w) as (F & N & V).
  destruct (enemiesLoop (enemies w) w) as [es w1]. simpl in *.
  destruct V as (A1 & A2 & A3 & A4 & A5 & A6 & A7 & A8 & evs & E & G & T & O & D & R).
  rewrite N, bounties_refl in A8.
  unfold evolves. unfold hpOf, timerOf, scoreOf in *. simpl.
  rewrite (sameKind_bounties _ _ F).
  repeat apply conj; auto.
  exists evs. repeat apply conj; auto.
  clear - F. induction F; constructor; auto using sameKind_evolves.
Qed.

(** *** The step up to the camera *)

Lemma update_playing inputs w :
  gameState w = PLAYING ->
  update inputs w = invincibility (cameraUpdate (beforeCamera inputs w)).
Proof. intro G. unfold update. rewrite G. reflexivity. Qed.

Lemma update_not_playing inputs w :
  gameState w <> PLAYING -> update inputs w = w.
Proof.
  intro G. unfold update.
  destruct (gameState w); try reflexivity. congruence.
Qed.

Lemma beforeCamera_evolves inputs w : evolves w (beforeCamera inputs w).
Proof.
  unfold beforeCamera.
  eapply evolves_trans; [|apply particlesUpdate_evolves].
  eapply evolves_trans; [|apply enemiesUpdate_evolves].
  eapply evolves_trans; [|apply bulletsUpdate_evolves].
  eapply evolves_trans; [|apply shooting_evolves].
  eapply evolves_trans; [|apply pitfallDeath_evolves].
  eapply evolves_trans; [|apply collisionDetection_evolves].
  eapply evolves_trans; [|apply playerPhysics_evolves].
  apply evolves_same; reflexivity.
Qed.

(** *** Camera and invincibility, and whole steps *)

Lemma cameraUpdate_frame w :
  player (cameraUpdate w) = player w /\ bullets (cameraUpdate w) = bullets w /\
  enemies (cameraUpdate w) = enemies w /\ events (cameraUpdate w) = events w /\
  gameState (cameraUpdate w) = gameState w /\
  platforms (cameraUpdate w) = platforms w.
Proof.
  unfold cameraUpdate.
  destruct (Qgtb (p_x (player w)) (camera w + CAMERA_OFFSET_X)); simpl;
  match goal with |- context [if ?c then _ else _] => destruct c end;
  simpl; repeat apply conj; reflexivity.
Qed.

Lemma cameraUpdate_spec w :
  camera w <= LEVEL_LENGTH - CANVAS_WIDTH ->
  camera w <= camera (cameraUpdate w) /\
  camera (cameraUpdate w) <= LEVEL_LENGTH - CANVAS_WIDTH /\
  (camera (cameraUpdate w) = camera w \/
   camera w + CAMERA_OFFSET_X < p_x (player w) /\
   (camera (cameraUpdate w) = p_x (player w) - CAMERA_OFFSET_X \/
    camera (cameraUpdate w) = LEVEL_LENGTH - CANVAS_WIDTH /\
    LEVEL_LENGTH - CANVAS_WIDTH < p_x (player w) - CAMERA_OFFSET_X)).
Proof.
  intro B. unfold cameraUpdate.
  destruct (Qgtb (p_x (player w)) (camera w + CAMERA_OFFSET_X)) eqn:A; simpl;
  match goal with |- context [if ?c then _ else _] => destruct c eqn:C end;
  simpl in *; reflect_tests.
  - repeat apply conj; try lra. right. split; [lra|]. right. split; [reflexivity|lra].
  - repeat apply conj; try lra. right. split; [lra|]. left. reflexivity.
  - lra.
  - repeat apply conj; try lra. left. reflexivity.
Qed.

Lemma invincibility_frame w :
  camera (invincibility w) = camera w /\
  bullets (invincibility w) = bullets w /\
  enemies (invincibility w) = enemies w /\
  events (invincibility w) = events w /\
  gameState (invincibility w) = gameState w /\
  platforms (invincibility w) = platforms w /\
  p_x (player (invincibility w)) = p_x (player w) /\
  hpOf (invincibility w) = hpOf w /\
  scoreOf (invincibility w) = scoreOf w /\
  (timerOf (invincibility w) = timerOf w /\ (timerOf w <= 0)%Z \/
   timerOf (invincibility w) = (timerOf w - 1)%Z /\ (0 < timerOf w)%Z).
Proof.
  unfold invincibility, hpOf, scoreOf, timerOf.
  destruct (p_invincibleTimer (player w) >? 0)%Z eqn:T; reflect_tests; simpl;
    repeat apply conj; auto.
Qed.

(** What a whole step does to the tracked fields while the game is on. *)
Lemma update_step inputs w :
  gameState w = PLAYING ->
  exists m,
    evolves w m /\
    hpOf (update inputs w) = hpOf m /\
    scoreOf (update inputs w) = scoreOf m /\
    events (update inputs w) = events m /\
    gameState (update inputs w) = gameState m /\
    enemies (update inputs w) = enemies m /\
    platforms (update inputs w) = platforms m /\
    p_x (player (update inputs w)) = p_x (player m) /\
    camera (update inputs w) = camera (cameraUpdate m) /\
    (timerOf (update inputs w) = timerOf m /\ (timerOf m <= 0)%Z \/
     timerOf (update inputs w) = (timerOf m - 1)%Z /\ (0 < timerOf m)%Z).
Proof.
  intro G. exists (beforeCamera inputs w).
  rewrite (update_playing inputs w G).
  split; [apply beforeCamera_evolves|].
  set (m := beforeCamera inputs w).
  destruct (cameraUpdate_frame m) as (P & B & N & E & S & L).
  destruct (invincibility_frame (cameraUpdate m))
    as (C' & B' & N' & E' & S' & L' & X' & H' & Sc' & T').
  unfold hpOf, scoreOf, timerOf in *. rewrite P in *.
  repeat apply conj; try congruence.
Qed.

(** A property kept by every step holds throughout a play session. *)
Lemma session_invariant (P : World -> Prop) :
  (forall w, P (handleStart (initLevel w))) ->
  (forall inputs w, P w -> P (update inputs w)) ->
  forall frames w, P (session frames w).
Proof.
  intros Init Step frames w. unfold session.
  generalize (Init w). generalize (handleStart (initLevel w)).
  induction frames as [|inputs frames IH]; intros w0 H; simpl.
  - exact H.
  - apply IH. apply Step. exact H.
Qed.

Lemma update_timer_nonneg inputs w :
  (0 <= timerOf w)%Z -> (0 <= timerOf (update inputs w))%Z.
Proof.
  intro T. destruct (GameState_eqb (gameState w) PLAYING) eqn:G.
  - apply GameState_eqb_eq in G.
    destruct (update_step inputs w G)
      as (m & V & _ & _ & _ & _ & _ & _ & _ & _ & D).
    destruct V as (_ & _ & _ & _ & V & _). specialize (V T). lia.
  - rewrite update_not_playing; [exact T|].
    intro E. apply GameState_eqb_eq in E. congruence.
Qed.

Lemma update_camera inputs w :
  0 <= camera w -> camera w <= LEVEL_LENGTH - CANVAS_WIDTH ->
  camera w <= camera (update inputs w) /\
  camera (update inputs w) <= LEVEL_LENGTH - CANVAS_WIDTH /\
  (camera (update inputs w) = camera w \/
   camera w + CAMERA_OFFSET_X < p_x (player (update inputs w)) /\
   (camera (update inputs w) = p_x (player (update inputs w)) - CAMERA_OFFSET_X \/
    camera (update inputs w) = LEVEL_LENGTH - CANVAS_WIDTH /\
    LEVEL_LENGTH - CANVAS_WIDTH
      < p_x (player (update inputs w)) - CAMERA_OFFSET_X)).
Proof.
  intros Z B. destruct (GameState_eqb (gameState w) PLAYING) eqn:G.
  - apply GameState_eqb_eq in G.
    destruct (update_step inputs w G)
      as (m & V & _ & _ & _ & _ & _ & _ & X & C & _).
    destruct V as (_ & Cm & _).
    rewrite X, C. rewrite <- Cm in *.
    apply cameraUpdate_spec. exact B.
  - rewrite update_not_playing.
    + repeat apply conj; try lra. left. reflexivity.
    + intro E. apply GameState_eqb_eq in E. congruence.
Qed.

(** *** C9: the invincibility timer *)

(** C9.  The player's invincibleTimer is never negative: it is 0 after
    initLevel, every step keeps it at or above 0, so it is at or above 0
    throughout a play session; a step leaves it alone, takes 1 off it
    when it is strictly positive, or leaves the respawn value 180 less
    that step's decrement. *)
Theorem invincibleTimer_never_negative (frames : list InputState) (w0 : World) :
  timerOf (initLevel w0) = 0%Z /\
  (forall inputs w, (0 <= timerOf w)%Z -> (0 <= timerOf (update inputs w))%Z) /\
  (0 <= timerOf (session frames w0))%Z /\
  (forall inputs w,
     timerOf (update inputs w) = timerOf w \/
     (timerOf (update inputs w) = timerOf w - 1 /\ 0 < timerOf w)%Z \/
     timerOf (update inputs w) = (180 - 1)%Z).
Proof.
  split; [reflexivity|]. split; [|split].
  - intros inputs w. apply update_timer_nonneg.
  - apply (session_invariant (fun w => (0 <= timerOf w)%Z)).
    + intro w. unfold timerOf. simpl. lia.
    + intros inputs w. apply update_timer_nonneg.
  - intros inputs w. destruct (GameState_eqb (gameState w) PLAYING) eqn:G.
    + apply GameState_eqb_eq in G.
      destruct (update_step inputs w G)
        as (m & V & _ & _ & _ & _ & _ & _ & _ & _ & D).
      destruct V as (_ & _ & _ & _ & _ & _ & J & _). lia.
    + left. rewrite update_not_playing; [reflexivity|].
      intro E. apply GameState_eqb_eq in E. congruence.
Qed.

(** The camera follows: when the player is further right than the camera
    plus the offset, the camera is put at player.x - CAMERA_OFFSET_X, or at
    the upper bound when that would pass it. *)
Lemma cameraUpdate_follows w :
  camera w + CAMERA_OFFSET_X < p_x (player w) ->
  (p_x (player w) - CAMERA_OFFSET_X <= LEVEL_LENGTH - CANVAS_WIDTH ->
   camera (cameraUpdate w) = p_x (player w) - CAMERA_OFFSET_X) /\
  (LEVEL_LENGTH - CANVAS_WIDTH < p_x (player w) - CAMERA_OFFSET_X ->
   camera (cameraUpdate w) = LEVEL_LENGTH - CANVAS_WIDTH).
Proof.
  intro A. unfold cameraUpdate.
  assert (T : Qgtb (p_x (player w)) (camera w + CAMERA_OFFSET_X) = true)
    by (apply Qgtb_gt; exact A).
  rewrite T. cbn [camera w_set_camera].
  destruct (Qgtb (p_x (player w) - CAMERA_OFFSET_X)
              (LEVEL_LENGTH - CANVAS_WIDTH)) eqn:C;
    cbn [camera w_set_camera]; reflect_tests; split; intro H;
    solve [reflexivity | lra].
Qed.

Lemma update_camera_follows inputs w :
  gameState w = PLAYING ->
  camera w + CAMERA_OFFSET_X < p_x (player (update inputs w)) ->
  (p_x (player (update inputs w)) - CAMERA_OFFSET_X
     <= LEVEL_LENGTH - CANVAS_WIDTH ->
   camera (update inputs w)
     = p_x (player (update inputs w)) - CAMERA_OFFSET_X) /\
  (LEVEL_LENGTH - CANVAS_WIDTH
     < p_x (player (update inputs w)) - CAMERA_OFFSET_X ->
   camera (update inputs w) = LEVEL_LENGTH - CANVAS_WIDTH).
Proof.
  intros G.
  destruct (update_step inputs w G)
    as (m & V & _ & _ & _ & _ & _ & _ & X & C & _).
  destruct V as (_ & Cm & _).
  rewrite X, C. rewrite <- Cm.
  apply cameraUpdate_follows.
Qed.

(** *** C6: the camera *)

(** C6.  With a level at least as long as the viewport is wide, throughout
    a play session 0 <= camera.x <= LEVEL_LENGTH - CANVAS_WIDTH, and one
    more step never moves the camera back; when that step moves it, the
    player's x exceeds the old camera.x plus CAMERA_OFFSET_X and the new
    camera.x is player.x - CAMERA_OFFSET_X, held at the upper bound
    LEVEL_LENGTH - CANVAS_WIDTH when that would pass it.  And the camera
    does follow: whenever a step taken while PLAYING ends with the
    player's x above the old camera.x plus CAMERA_OFFSET_X, the new
    camera.x is player.x - CAMERA_OFFSET_X, or the upper bound when that
    would pass it; in particular it has advanced unless it was at the
    upper bound already.  Outside PLAYING a step leaves the camera where
    it was. *)
Theorem camera_monotone_and_bounded
    (frames : list InputState) (w0 : World) (inputs : InputState) :
  CANVAS_WIDTH <= LEVEL_LENGTH ->
  let s := session frames w0 in
  let s' := update inputs s in
  (0 <= camera s /\ camera s <= LEVEL_LENGTH - CANVAS_WIDTH) /\
  camera s <= camera s' /\
  (0 <= camera s' /\ camera s' <= LEVEL_LENGTH - CANVAS_WIDTH) /\
  (camera s' = camera s \/
   camera s + CAMERA_OFFSET_X < p_x (player s') /\
   (camera s' = p_x (player s') - CAMERA_OFFSET_X \/
    camera s' = LEVEL_LENGTH - CANVAS_WIDTH /\
    LEVEL_LENGTH - CANVAS_WIDTH < p_x (player s') - CAMERA_OFFSET_X)) /\
  (gameState s = PLAYING ->
   camera s + CAMERA_OFFSET_X < p_x (player s') ->
   (p_x (player s') - CAMERA_OFFSET_X <= LEVEL_LENGTH - CANVAS_WIDTH ->
    camera s' = p_x (player s') - CAMERA_OFFSET_X) /\
   (LEVEL_LENGTH - CANVAS_WIDTH < p_x (player s') - CAMERA_OFFSET_X ->
    camera s' = LEVEL_LENGTH - CANVAS_WIDTH) /\
   (camera s < LEVEL_LENGTH - CANVAS_WIDTH -> camera s < camera s')) /\
  (gameState s <> PLAYING -> camera s' = camera s).
Proof.
  intros L s s'.
  assert (I : 0 <= camera s /\ camera s <= LEVEL_LENGTH - CANVAS_WIDTH).
  { subst s.
    apply (session_invariant
             (fun w => 0 <= camera w /\ camera w <= LEVEL_LENGTH - CANVAS_WIDTH)).
    - intro w. simpl. split; lra.
    - intros i w [Z B]. destruct (update_camera i w Z B) as (M & U & _).
      split; lra. }
  destruct I as [Z B].
  destruct (update_camera inputs s Z B) as (M & U & A).
  fold s' in M, U, A.
  repeat apply conj; try lra.
  - exact A.
  - intros G F.
    destruct (update_camera_follows inputs s G F) as [F1 F2].
    fold s' in F1, F2. repeat apply conj; [exact F1 | exact F2 |].
    intro S.
    destruct (Qlt_le_dec (LEVEL_LENGTH - CANVAS_WIDTH)
                (p_x (player s') - CAMERA_OFFSET_X)) as [D|D].
    + rewrite (F2 D). exact S.
    + rewrite (F1 D). lra.
  - intro G. subst s'. rewrite (update_not_playing inputs s G). reflexivity.
Qed.

(** *** C10: what player death leaves alone *)

(** C10.  A call of the death handler, accepted or rejected, leaves the
    player's score and the platform list as they were; so are the bullets,
    the enemies, the camera, the tick and every player field other than hp,
    position, velocity and invincibleTimer. *)
Theorem handlePlayerDeath_keeps_score_and_platforms (w : World) :
  let w' := handlePlayerDeath w in
  p_score (player w') = p_score (player w) /\
  platforms w' = platforms w /\
  bullets w' = bullets w /\ enemies w' = enemies w /\
  camera w' = camera w /\ tick w' = tick w /\
  p_width (player w') = p_width (player w) /\
  p_height (player w') = p_height (player w) /\
  p_color (player w') = p_color (player w) /\
  p_isDead (player w') = p_isDead (player w) /\
  p_direction (player w') = p_direction (player w) /\
  p_isGrounded (player w') = p_isGrounded (player w) /\
  p_isCrouching (player w') = p_isCrouching (player w) /\
  p_shootCooldown (player w') = p_shootCooldown (player w) /\
  p_state (player w') = p_state (player w) /\
  p_facingVertical (player w') = p_facingVertical (player w).
Proof.
  intro w'. subst w'.
  destruct (handlePlayerDeath_arena w) as (B & N & C & P & T).
  destruct (handlePlayerDeath_cases w)
    as [[_ E]|[(_ & _ & E & _)|(_ & _ & E & _)]];
    rewrite ?B, ?N, ?C, ?P, ?T, E; simpl; repeat apply conj; reflexivity.
Qed.

(** *** C4: one life per accepted damage event *)

Lemma handlePlayerDeath_accepted w :
  (timerOf w <= 0)%Z -> hpOf (handlePlayerDeath w) = (hpOf w - 1)%Z.
Proof.
  unfold timerOf, hpOf. intro T.
  destruct (handlePlayerDeath_cases w)
    as [[I _]|[(_ & _ & E & _)|(_ & _ & E & _)]].
  - lia.
  - rewrite E. reflexivity.
  - rewrite E. reflexivity.
Qed.

Lemma handlePlayerDeath_rejected w :
  (0 < timerOf w)%Z -> handlePlayerDeath w = w.
Proof.
  unfold timerOf. intro T. unfold handlePlayerDeath.
  destruct (p_invincibleTimer (player w) >? 0)%Z eqn:G; [reflexivity|].
  reflect_tests. lia.
Qed.

Lemma update_invincible_hp inputs w :
  (0 < timerOf w)%Z -> hpOf (update inputs w) = hpOf w.
Proof.
  intro T. destruct (GameState_eqb (gameState w) PLAYING) eqn:G.
  - apply GameState_eqb_eq in G.
    destruct (update_step inputs w G) as (m & V & H & _).
    destruct V as (_ & _ & _ & _ & _ & I & _). destruct (I T). congruence.
  - rewrite update_not_playing; [reflexivity|].
    intro E. apply GameState_eqb_eq in E. congruence.
Qed.

(** C4.  An accepted call of the death handler (invincibleTimer <= 0)
    takes exactly 1 off hp, and that is what each of the three triggers
    does: the pitfall, an enemy bullet that hits the player, and the touch
    of a live enemy.  A call made while invincibleTimer > 0 changes
    nothing, and over a whole step begun with invincibleTimer > 0 hp stays
    as it was. *)
Theorem damage_takes_exactly_one_life (w : World) :
  ((timerOf w <= 0)%Z -> hpOf (handlePlayerDeath w) = (hpOf w - 1)%Z) /\
  ((0 < timerOf w)%Z -> handlePlayerDeath w = w) /\
  ((timerOf w <= 0)%Z -> K_CANVAS_HEIGHT K < p_y (player w) ->
   hpOf (pitfallDeath w) = (hpOf w - 1)%Z) /\
  (forall b,
     (timerOf w <= 0)%Z -> b_owner b = OwnerEnemy ->
     bulletGone (camera w) (moveBullet b) = false ->
     checkCollision (boxOfBullet (moveBullet b)) (boxOfPlayer (player w)) = true ->
     hpOf (snd (stepBullet b w)) = (hpOf w - 1)%Z) /\
  (forall e,
     (timerOf w <= 0)%Z -> e_isDead e = false ->
     checkCollision (boxOfPlayer (player w))
       (boxOfEnemy (fst (enemyAI w e))) = true ->
     hpOf (snd (stepEnemy e w)) = (hpOf w - 1)%Z) /\
  (forall inputs,
     (0 < timerOf w)%Z -> hpOf (update inputs w) = hpOf w).
Proof.
  split; [apply handlePlayerDeath_accepted|].
  split; [apply handlePlayerDeath_rejected|].
  split; [|split; [|split]].
  - intros T Y. unfold pitfallDeath.
    apply Qgtb_gt in Y. rewrite Y. apply handlePlayerDeath_accepted, T.
  - intros b T O G C. unfold stepBullet. rewrite G.
    assert (O' : b_owner (moveBullet b) = OwnerEnemy) by exact O.
    rewrite O', C.
    unfold timerOf in T. apply Z.leb_le in T. rewrite T. simpl.
    apply handlePlayerDeath_accepted. unfold timerOf. apply Z.leb_le, T.
  - intros e T D C. unfold stepEnemy. rewrite D.
    pose proof (enemyAI_kind w e) as HK.
    destruct (enemyAI w e) as [e1 pushed]. simpl in *.
    destruct HK as (_ & D1 & _). rewrite C, D1, D.
    unfold timerOf in T. apply Z.leb_le in T. rewrite T. simpl.
    rewrite handlePlayerDeath_accepted; [reflexivity|].
    unfold timerOf. simpl. apply Z.leb_le, T.
  - intros inputs T. apply update_invincible_hp, T.
Qed.

(** *** C3: death at the last life *)

Lemma lastSet_terminal evs s s0 :
  Forall terminalEvent evs -> In (SetGameState s) evs ->
  lastSet evs s0 = GAME_OVER \/ lastSet evs s0 = VICTORY.
Proof.
  induction evs as [|ev evs IH]; intros F I; [destruct I|].
  inversion F as [|? ? T F']; subst.
  destruct ev as [sc|lv|s']; simpl.
  - destruct I as [I|I]; [discriminate|]. auto.
  - destruct I as [I|I]; [discriminate|]. auto.
  - exact T.
Qed.

Lemma lastSet_game_over evs s0 :
  lastSet evs s0 = GAME_OVER -> s0 <> GAME_OVER ->
  In (SetGameState GAME_OVER) evs.
Proof.
  induction evs as [|ev evs IH]; simpl; intros L N; [congruence|].
  destruct ev as [sc|lv|s']; auto.
  left. congruence.
Qed.

(** The calls made on the parent during a step, with the state they leave. *)
Lemma update_events inputs w :
  gameState w = PLAYING ->
  exists evs,
    events (update inputs w) = evs ++ events w /\
    gameState (update inputs w) = lastSet evs PLAYING /\
    Forall terminalEvent evs /\
    ((hpOf (update inputs w) <= 0)%Z ->
     (hpOf (update inputs w) < hpOf w)%Z ->
     In (SetGameState GAME_OVER) evs) /\
    (In (SetGameState GAME_OVER) evs -> (hpOf (update inputs w) <= 0)%Z) /\
    Forall2 (enemyEvolves evs) (enemies w) (enemies (update inputs w)) /\
    scoreOf (update inputs w)
      = (scoreOf w + bounties (enemies w) (enemies (update inputs w)))%Z.
Proof.
  intro G.
  destruct (update_step inputs w G)
    as (m & V & H & S & E & GS & N & _).
  destruct V
    as (_ & _ & _ & _ & _ & _ & _ & Sc & evs & Ev & Gm & F & O & D & R).
  exists evs. rewrite H, S, E, GS, N, <- G.
  repeat apply conj; auto.
Qed.

(** C3, as the code has it.  When an accepted death takes hp to 0 or
    below, GAME_OVER is requested in that very call and the respawn logic
    does not run: apart from hp the player is as before (position,
    velocity and invincibleTimer included).  As invincibleTimer is left
    <= 0, a further death in the same step is accepted as well and takes
    one more hp.  Over a step: if hp has dropped and is at or below 0 when
    the step ends, GAME_OVER was requested during that step, and the step
    ends in a terminal state. *)
Theorem death_at_last_life_requests_game_over (w : World) :
  ((timerOf w <= 0)%Z -> (hpOf w - 1 <= 0)%Z ->
   gameState (handlePlayerDeath w) = GAME_OVER /\
   events (handlePlayerDeath w)
     = SetGameState GAME_OVER :: SetLives (hpOf w - 1) :: events w /\
   player (handlePlayerDeath w) = p_set_hp (hpOf w - 1) (player w) /\
   hpOf (handlePlayerDeath (handlePlayerDeath w)) = (hpOf w - 2)%Z) /\
  (forall inputs,
     gameState w = PLAYING ->
     (hpOf (update inputs w) <= 0)%Z ->
     (hpOf (update inputs w) < hpOf w)%Z ->
     (exists evs,
        events (update inputs w) = evs ++ events w /\
        In (SetGameState GAME_OVER) evs) /\
     (gameState (update inputs w) = GAME_OVER \/
      gameState (update inputs w) = VICTORY)).
Proof.
  split.
  - intros T H.
    pose proof (handlePlayerDeath_accepted (handlePlayerDeath w)) as A.
    unfold timerOf, hpOf in *.
    destruct (handlePlayerDeath_cases w)
      as [[I _]|[(_ & _ & E & G & V)|(_ & D & _)]]; try lia.
    repeat apply conj; auto.
    rewrite A; rewrite E; simpl; lia.
  - intros inputs G H D.
    destruct (update_events inputs w G) as (evs & E & GS & F & O & _).
    specialize (O H D). split.
    + exists evs. auto.
    + rewrite GS. eapply lastSet_terminal; eauto.
Qed.

(** *** C1: landing on a platform *)

Lemma checkPlatforms_app l1 l2 p :
  checkPlatforms (l1 ++ l2) p = checkPlatforms l2 (checkPlatforms l1 p).
Proof. unfold checkPlatforms. apply fold_left_app. Qed.

(** Once vy is not positive, no later platform of the loop changes the
    player. *)
Lemma checkPlatform_idle p plat :
  Qgtb (p_vy p) 0 = false -> checkPlatform p plat = p.
Proof.
  intro V. unfold checkPlatform. rewrite V. simpl.
  destruct (overlapsPlatform p plat); reflexivity.
Qed.

Lemma checkPlatforms_idle plats p :
  Qgtb (p_vy p) 0 = false -> checkPlatforms plats p = p.
Proof.
  intro V. induction plats as [|plat plats IH]; simpl; [reflexivity|].
  rewrite checkPlatform_idle; assumption.
Qed.

Lemma checkPlatform_landsOn p plat :
  checkPlatform p plat =
  if landsOn p plat
  then p_set_isGrounded true (p_set_vy 0 (p_set_y (plat_y plat - p_height p) p))
  else p.
Proof.
  unfold checkPlatform, landsOn, overlapsPlatform, wasAbove.
  destruct (Qltb (p_x p) (plat_x plat + plat_width plat)
            && Qgtb (p_x p + p_width p) (plat_x plat)
            && Qltb (p_y p) (plat_y plat + plat_height plat)
            && Qgtb (p_y p + p_height p) (plat_y plat)); simpl.
  - reflexivity.
  - reflexivity.
Qed.

Lemma checkPlatforms_no_landing plats p :
  Forall (fun plat => landsOn p plat = false) plats ->
  checkPlatforms plats p = p.
Proof.
  induction 1 as [|plat plats H _ IH]; simpl; [reflexivity|].
  rewrite checkPlatform_landsOn, H. exact IH.
Qed.

Lemma landsOn_intro p plat :
  overlapsPlatform p plat = true -> 0 < p_vy p ->
  p_y p - p_vy p + p_height p <= plat_y plat ->
  landsOn p plat = true.
Proof.
  intros O V A. unfold landsOn. unfold overlapsPlatform in O. rewrite O.
  apply Qgtb_gt in V. apply Qleb_le in A. rewrite V, A. reflexivity.
Qed.

Lemma landing_rests p plats plat :
  landsOn p plat = true ->
  let r := checkPlatforms plats (checkPlatform p plat) in
  p_y r + p_height r == plat_y plat /\ p_vy r == 0 /\ p_isGrounded r = true.
Proof.
  intros L r. subst r. rewrite checkPlatform_landsOn, L.
  rewrite checkPlatforms_idle by reflexivity. simpl.
  repeat apply conj; try reflexivity. ring.
Qed.

(** C1.  In the platform loop of a step: when the loop reaches a platform
    and the player overlaps its box, moves downward (vy > 0) and had its
    bottom edge at or above the platform top in the previous position
    (y - vy + height <= platform.y), then after the platform collision
    resolution the player's bottom edge is exactly at the platform top,
    vy is 0 and isGrounded is true.  The state the loop reaches the
    platform in is the state the resolution starts from whenever no
    earlier platform of the list is landed on. *)
Theorem landing_rests_on_platform
    (w : World) (pre post : list Platform) (plat : Platform) :
  platforms w = pre ++ plat :: post ->
  let p0 := p_set_isGrounded false (player w) in
  let r := player (collisionDetection w) in
  (let q := checkPlatforms pre p0 in
   overlapsPlatform q plat = true -> 0 < p_vy q ->
   p_y q - p_vy q + p_height q <= plat_y plat ->
   p_y r + p_height r == plat_y plat /\ p_vy r == 0 /\ p_isGrounded r = true) /\
  (Forall (fun earlier => landsOn p0 earlier = false) pre ->
   overlapsPlatform p0 plat = true -> 0 < p_vy p0 ->
   p_y p0 - p_vy p0 + p_height p0 <= plat_y plat ->
   p_y r + p_height r == plat_y plat /\ p_vy r == 0 /\ p_isGrounded r = true).
Proof.
  intros E p0 r. subst r. unfold collisionDetection. simpl.
  rewrite E, checkPlatforms_app. fold p0. simpl. split.
  - intros O V A. apply landing_rests. apply landsOn_intro; assumption.
  - intros N O V A. rewrite (checkPlatforms_no_landing pre p0 N).
    apply landing_rests. apply landsOn_intro; assumption.
Qed.

(** *** C7: the player's shot *)

Lemma tickCooldown_spec p :
  (0 < p_shootCooldown p ->
   p_shootCooldown (tickCooldown p) = p_shootCooldown p - 1) /\
  (p_shootCooldown p <= 0 ->
   p_shootCooldown (tickCooldown p) = p_shootCooldown p).
Proof.
  unfold tickCooldown.
  destruct (Qgtb (p_shootCooldown p) 0) eqn:T; reflect_tests; simpl;
    split; intro; try reflexivity; lra.
Qed.

Lemma playerBullet_tick inputs p :
  playerBullet inputs (tickCooldown p) = playerBullet inputs p.
Proof.
  unfold tickCooldown. destruct (Qgtb (p_shootCooldown p) 0); reflexivity.
Qed.

Lemma playerBullet_spec inputs p :
  let b := playerBullet inputs p in
  b_owner b = OwnerPlayer /\ b_life b = 100%Z /\
  b_x b = p_x p + p_width p / 2 /\
  b_y b = p_y p + p_height p / 2 /\
  (p_facingVertical p = 1%Z -> left inputs = false -> right inputs = false ->
   b_vx b = 0 /\ b_vy b = - K_BULLET_SPEED K).
Proof.
  unfold playerBullet.
  destruct (shootDirection inputs p) as [bx by'] eqn:D. simpl.
  repeat apply conj; try reflexivity.
  intros F L R. unfold shootDirection in D.
  rewrite F, L, R in D. simpl in D. inversion D. auto.
Qed.

(** C7.  In the shooting block of a step the cooldown first goes down by 1
    when it is > 0.  A shot fires exactly when shoot is held and the
    cooldown is then <= 0: one bullet is appended, with owner player and
    life 100, placed at the player's centre, and the cooldown is set to
    SHOOT_COOLDOWN; with facingVertical = 1 and neither left nor right
    held the bullet has vx = 0 and vy = -BULLET_SPEED.  Otherwise no
    bullet is added and the cooldown keeps its ticked value. *)
Theorem player_shot_fires_on_cooldown (inputs : InputState) (w : World) :
  let p := player w in
  let cd := p_shootCooldown (tickCooldown p) in
  let w' := shooting inputs w in
  (0 < p_shootCooldown p -> cd = p_shootCooldown p - 1) /\
  (p_shootCooldown p <= 0 -> cd = p_shootCooldown p) /\
  (shoot inputs = true /\ cd <= 0 ->
   exists b,
     bullets w' = bullets w ++ [b] /\
     b_owner b = OwnerPlayer /\ b_life b = 100%Z /\
     b_x b = p_x p + p_width p / 2 /\
     b_y b = p_y p + p_height p / 2 /\
     p_shootCooldown (player w') = K_SHOOT_COOLDOWN K /\
     (p_facingVertical p = 1%Z -> left inputs = false -> right inputs = false ->
      b_vx b = 0 /\ b_vy b = - K_BULLET_SPEED K)) /\
  (~ (shoot inputs = true /\ cd <= 0) ->
   bullets w' = bullets w /\ p_shootCooldown (player w') = cd).
Proof.
  intros p cd w'. subst p cd w'.
  split; [apply tickCooldown_spec|]. split; [apply tickCooldown_spec|].
  unfold shooting. simpl.
  destruct (shoot inputs && Qleb (p_shootCooldown (tickCooldown (player w))) 0)
    eqn:F; simpl.
  - split; [|intro N; exfalso; apply N; reflect_tests; auto].
    intros _. exists (playerBullet inputs (player w)).
    rewrite playerBullet_tick.
    destruct (playerBullet_spec inputs (player w)) as (O & L & X & Y & U).
    repeat apply conj; auto.
  - split; [|intros _; split; reflexivity].
    intros [S C]. apply Qleb_le in C. rewrite S, C in F. discriminate.
Qed.

(** *** C8: turret and boss fire control *)


Lemma stepEnemy_bullets e w :
  bullets (snd (stepEnemy e w)) =
  if e_isDead e then bullets w else bullets w ++ snd (enemyAI w e).
Proof.
  unfold stepEnemy. destruct (e_isDead e); [reflexivity|].
  destruct (enemyAI w e) as [e1 pushed]. simpl.
  match goal with |- context [if ?c then _ else _] => destruct c end; simpl;
    autorewrite with frame; reflexivity.
Qed.

Lemma stepEnemy_fst e w :
  fst (stepEnemy e w) = if e_isDead e then e else fst (enemyAI w e).
Proof.
  unfold stepEnemy. destruct (e_isDead e); [reflexivity|].
  destruct (enemyAI w e) as [e1 pushed]. simpl.
  match goal with |- context [if ?c then _ else _] => destruct c end;
    reflexivity.
Qed.


(** *** C2: the score *)

Lemma Forall2_nth_error_rel {A B} (R : A -> B -> Prop) l l' i a b :
  Forall2 R l l' -> nth_error l i = Some a -> nth_error l' i = Some b -> R a b.
Proof.
  intro F. revert i. induction F as [|x y l l' Hxy F IH]; intros i Ha Hb.
  - destruct i; discriminate.
  - destruct i as [|i]; simpl in *.
    + congruence.
    + eapply IH; eauto.
Qed.

Lemma update_score inputs w :
  scoreOf (update inputs w)
    = (scoreOf w + bounties (enemies w) (enemies (update inputs w)))%Z /\
  (scoreOf w <= scoreOf (update inputs w))%Z.
Proof.
  destruct (GameState_eqb (gameState w) PLAYING) eqn:G.
  - apply GameState_eqb_eq in G.
    destruct (update_events inputs w G) as (evs & _ & _ & _ & _ & _ & _ & S).
    split; [exact S|].
    destruct (update_step inputs w G) as (m & V & _ & Sm & _).
    destruct V as (_ & _ & Sc & _). lia.
  - rewrite update_not_playing.
    + rewrite bounties_refl. lia.
    + intro E. apply GameState_eqb_eq in E. congruence.
Qed.

(** C2, as the code has it.  Over a step the score never goes down: it
    grows by exactly the bounties of the enemies that the step found alive
    and left dead, 100 for each runner or turret and 1000 for the boss.
    A single hit of a player bullet that takes a live enemy's hp to 0 or
    below marks it dead, pays that bounty and, for the boss, requests
    VICTORY on the spot; a hit that leaves hp above 0 pays nothing.  A step
    in which the boss dies requests VICTORY during that step and ends in a
    terminal state: VICTORY, or GAME_OVER when a player death later in the
    same step asks for it. *)
Theorem score_pays_per_kill (w : World) :
  (forall inputs, (scoreOf w <= scoreOf (update inputs w))%Z) /\
  (forall inputs,
     scoreOf (update inputs w)
       = (scoreOf w + bounties (enemies w) (enemies (update inputs w)))%Z) /\
  (forall e, e_isDead e = false ->
     let r := damageEnemy e w in
     ((e_hp e - 1 <= 0)%Z -> e_type e = runner \/ e_type e = turret ->
      e_isDead (fst r) = true /\ scoreOf (snd r) = (scoreOf w + 100)%Z) /\
     ((e_hp e - 1 <= 0)%Z -> e_type e = boss ->
      e_isDead (fst r) = true /\ scoreOf (snd r) = (scoreOf w + 1000)%Z /\
      gameState (snd r) = VICTORY /\
      events (snd r)
        = SetGameState VICTORY :: SetScore (scoreOf w + 1000) :: events w) /\
     ((0 < e_hp e - 1)%Z ->
      e_isDead (fst r) = false /\ scoreOf (snd r) = scoreOf w)) /\
  (forall inputs i e e',
     gameState w = PLAYING ->
     nth_error (enemies w) i = Some e ->
     nth_error (enemies (update inputs w)) i = Some e' ->
     e_type e = boss -> e_isDead e = false -> e_isDead e' = true ->
     exists evs,
       events (update inputs w) = evs ++ events w /\
       In (SetGameState VICTORY) evs /\
       gameState (update inputs w) = lastSet evs PLAYING /\
       (gameState (update inputs w) = VICTORY \/
        gameState (update inputs w) = GAME_OVER /\
        In (SetGameState GAME_OVER) evs /\
        (hpOf (update inputs w) <= 0)%Z)).
Proof.
  split; [intro; apply update_score|].
  split; [intro; apply update_score|].
  split.
  - intros e A r. subst r. unfold scoreOf.
    destruct (damageEnemy_cases e w)
      as [(H & F & P & E & G)|(H & F & P & E & G)]; rewrite F, P.
    + repeat apply conj; try (intros; lia). intros _. simpl. auto.
    + repeat apply conj; try (intros; lia).
      * intros _ [T|T]; rewrite T; simpl; auto.
      * intros _ T. rewrite G, E, T. simpl. auto.
  - intros inputs i e e' G Ne Ne' T A D.
    destruct (update_events inputs w G) as (evs & E & GS & F & _ & O & R & _).
    pose proof (Forall2_nth_error_rel _ _ _ _ _ _ R Ne Ne') as (_ & _ & V).
    specialize (V A D T).
    exists evs. repeat apply conj; auto.
    destruct (lastSet_terminal evs VICTORY PLAYING F V) as [L|L].
    + right. rewrite GS. split; [exact L|].
      assert (I : In (SetGameState GAME_OVER) evs).
      { apply (lastSet_game_over evs PLAYING L). discriminate. }
      auto.
    + left. congruence.
Qed.

(** *** C5: the life of bullets *)

Lemma stepBullet_survivor b w :
  match fst (stepBullet b w) with
  | None => bulletGone (camera w) (moveBullet b) = true
  | Some b' => survivor (camera w) b b'
  end.
Proof.
  unfold stepBullet, survivor.
  destruct (bulletGone (camera w) (moveBullet b)) eqn:G; [reflexivity|].
  destruct (b_owner (moveBullet b)).
  - destruct (bulletVsEnemies (moveBullet b) (enemies w) w) as [[es w1] hit].
    simpl. destruct hit; auto.
  - match goal with |- context [if ?c then _ else _] => destruct c end;
      simpl; auto.
Qed.

Lemma bulletsLoop_camera bs w : camera (snd (bulletsLoop bs w)) = camera w.
Proof. apply (bulletsLoop_evolves bs w). Qed.

(** The bullets the loop keeps are those not swept, in their order. *)
Lemma bulletsLoop_survivors bs w :
  Forall2 (survivor (camera w))
    (filter (fun b => negb (bulletGone (camera w) (moveBullet b))) bs)
    (fst (bulletsLoop bs w)).
Proof.
  induction bs as [|b bs IH]; simpl; [constructor|].
  pose proof (bulletsLoop_camera bs w) as C.
  destruct (bulletsLoop bs w) as [rest' w1]. simpl in *.
  pose proof (stepBullet_survivor b w1) as S.
  destruct (stepBullet b w1) as [ob w2]. simpl in *. rewrite C in S.
  destruct ob as [b'|].
  - destruct S as [G S]. rewrite G. simpl. constructor; [split|]; assumption.
  - rewrite S. simpl. exact IH.
Qed.

Lemma bulletGone_life cam b : bulletGone cam b = false -> (0 < b_life b)%Z.
Proof. unfold bulletGone. intro G. reflect_tests. lia. Qed.

Lemma survivor_life cam b b' : survivor cam b b' -> (0 <= b_life b')%Z.
Proof.
  intros [G [E|E]]; subst b'.
  - apply bulletGone_life in G. lia.
  - simpl. lia.
Qed.

Lemma enemyAI_pushed w e :
  Forall (fun b => b_life b = 200%Z) (snd (enemyAI w e)).
Proof.
  unfold enemyAI.
  destruct (Qltb (Math_abs (p_x (player w) - e_x e)) 600); [|constructor].
  match goal with |- context [if ?c then _ else _] => destruct c end;
    [|constructor].
  unfold enemyShoot.
  match goal with |- context [if ?c then _ else _] => destruct c end;
    simpl; repeat constructor.
Qed.

Lemma enemiesLoop_bullets es w :
  exists pushed,
    bullets (snd (enemiesLoop es w)) = bullets w ++ pushed /\
    Forall (fun b => b_life b = 200%Z) pushed.
Proof.
  revert w. induction es as [|e es IH]; intro w; simpl.
  - exists []. split; [symmetry; apply app_nil_r | constructor].
  - pose proof (stepEnemy_bullets e w) as B.
    pose proof (enemyAI_pushed w e) as P.
    destruct (stepEnemy e w) as [e' w1]. simpl in *.
    destruct (IH w1) as (pushed & E & F).
    destruct (enemiesLoop es w1) as [rest' w2]. simpl in *.
    rewrite E, B. destruct (e_isDead e).
    + exists pushed. auto.
    + exists (snd (enemyAI w e) ++ pushed). split.
      * symmetry. apply app_assoc.
      * apply Forall_app. auto.
Qed.

Lemma update_bullets inputs w :
  gameState w = PLAYING ->
  exists m kept pushed,
    bullets (update inputs w) = kept ++ pushed /\
    Forall2 (survivor (camera m))
      (filter (fun b => negb (bulletGone (camera m) (moveBullet b))) (bullets m))
      kept /\
    Forall (fun b => b_life b = 200%Z) pushed.
Proof.
  intro G. rewrite (update_playing inputs w G).
  destruct (invincibility_frame (cameraUpdate (beforeCamera inputs w)))
    as (_ & B & _).
  destruct (cameraUpdate_frame (beforeCamera inputs w)) as (_ & B' & _).
  rewrite B, B'. unfold beforeCamera.
  set (m := shooting inputs _).
  change (bullets (particlesUpdate (enemiesUpdate (bulletsUpdate m))))
    with (bullets (enemiesUpdate (bulletsUpdate m))).
  unfold enemiesUpdate.
  destruct (enemiesLoop_bullets (enemies (bulletsUpdate m)) (bulletsUpdate m))
    as (pushed & E & F).
  destruct (enemiesLoop (enemies (bulletsUpdate m)) (bulletsUpdate m))
    as [es w1]. simpl in *. rewrite E.
  exists m, (bullets (bulletsUpdate m)), pushed.
  split; [reflexivity|]. split; [|exact F].
  unfold bulletsUpdate.
  pose proof (bulletsLoop_survivors (bullets m) m) as S.
  destruct (bulletsLoop (bullets m) m) as [bs w2]. exact S.
Qed.

(** The inner loop reports a hit exactly when some live enemy of the array
    overlaps the bullet. *)
Lemma bulletVsEnemies_hit b es w :
  snd (bulletVsEnemies b es w) = existsb (bulletHits b) es.
Proof.
  induction es as [|e es IH]; simpl; [reflexivity|].
  destruct (bulletHits b e).
  - destruct (damageEnemy e w) as [e' w']. reflexivity.
  - destruct (bulletVsEnemies b es w) as [[es' w'] hit]. exact IH.
Qed.

(** A bullet that is not swept stays in the array: with life 0 when it
    finds a target, as it was moved otherwise. *)
Lemma stepBullet_kept_life b w :
  bulletGone (camera w) (moveBullet b) = false ->
  fst (stepBullet b w)
    = Some (if scoresHit (moveBullet b) w
            then b_set_life 0 (moveBullet b) else moveBullet b).
Proof.
  intro G. unfold stepBullet, scoresHit. cbv zeta. rewrite G.
  destruct (b_owner (moveBullet b)).
  - pose proof (bulletVsEnemies_hit (moveBullet b) (enemies w) w) as H.
    destruct (bulletVsEnemies (moveBullet b) (enemies w) w) as [[es w1] hit].
    simpl in H. rewrite <- H. reflexivity.
  - match goal with |- context [if ?c then _ else _] => destruct c end;
      reflexivity.
Qed.

(** A bullet of the array that finds a target when its turn comes is in
    the array the loop leaves, with life 0. *)
Lemma bulletsLoop_spent pre b post w :
  bulletGone (camera w) (moveBullet b) = false ->
  scoresHit (moveBullet b) (snd (bulletsLoop post w)) = true ->
  In (b_set_life 0 (moveBullet b)) (fst (bulletsLoop (pre ++ b :: post) w)).
Proof.
  intros G H. induction pre as [|a pre IH]; cbn [app bulletsLoop].
  - pose proof (bulletsLoop_camera post w) as C.
    destruct (bulletsLoop post w) as [rest' w1]. cbn [fst snd] in *.
    rewrite <- C in G.
    pose proof (stepBullet_kept_life b w1 G) as S. rewrite H in S.
    destruct (stepBullet b w1) as [ob w2]. cbn [fst] in *. subst ob.
    left. reflexivity.
  - destruct (bulletsLoop (pre ++ b :: post) w) as [rest' w1].
    cbn [fst] in IH.
    destruct (stepBullet a w1) as [[a'|] w2]; cbn [fst];
      [right; exact IH | exact IH].
Qed.

(** The bullets a step leaves are those its bullet loop keeps, followed by
    the bullets the enemies push. *)
Lemma update_bullets_loop inputs w :
  gameState w = PLAYING ->
  exists pushed,
    bullets (update inputs w)
      = fst (bulletsLoop (bullets (beforeBullets inputs w))
               (beforeBullets inputs w)) ++ pushed.
Proof.
  intro G. rewrite (update_playing inputs w G).
  destruct (invincibility_frame (cameraUpdate (beforeCamera inputs w)))
    as (_ & B & _).
  destruct (cameraUpdate_frame (beforeCamera inputs w)) as (_ & B' & _).
  rewrite B, B'. unfold beforeCamera.
  change (shooting inputs
            (pitfallDeath (collisionDetection (playerPhysics inputs
               (w_set_tick (tick w + 1) w)))))
    with (beforeBullets inputs w).
  set (m := beforeBullets inputs w).
  change (bullets (particlesUpdate (enemiesUpdate (bulletsUpdate m))))
    with (bullets (enemiesUpdate (bulletsUpdate m))).
  unfold enemiesUpdate.
  destruct (enemiesLoop_bullets (enemies (bulletsUpdate m)) (bulletsUpdate m))
    as (pushed & E & _).
  destruct (enemiesLoop (enemies (bulletsUpdate m)) (bulletsUpdate m))
    as [es w1]. cbn [snd bullets w_set_enemies] in *. rewrite E.
  exists pushed. f_equal.
  unfold bulletsUpdate.
  destruct (bulletsLoop (bullets m) m) as [bs w2]. reflexivity.
Qed.

(** C5, as the code has it.  In the bullet loop a bullet whose life, after
    the countdown, is <= 0, or which has left the camera-relative viewport
    or the canvas height, is removed on the spot: the loop keeps exactly
    the other bullets.  A bullet that scores a hit is not removed: its
    life is set to 0 and it stays in the array, so it is in the array with
    life 0 when the step ends; a bullet that is neither swept nor scores a
    hit stays as it was moved.  The countdown of the next step removes a
    bullet of life 0 before it is tested against anything.  So after a
    step every bullet of the array has life >= 0. *)
Theorem bullets_swept_or_spent (inputs : InputState) (w : World) :
  gameState w = PLAYING ->
  (forall b w1,
     bulletGone (camera w1) (moveBullet b) = true ->
     stepBullet b w1 = (None, w1)) /\
  (forall b w1, (b_life b <= 1)%Z -> stepBullet b w1 = (None, w1)) /\
  (forall bs w1,
     Forall2 (survivor (camera w1))
       (filter (fun b => negb (bulletGone (camera w1) (moveBullet b))) bs)
       (fst (bulletsLoop bs w1))) /\
  Forall (fun b => (0 <= b_life b)%Z) (bullets (update inputs w)) /\
  (forall b w1,
     bulletGone (camera w1) (moveBullet b) = false ->
     scoresHit (moveBullet b) w1 = true ->
     fst (stepBullet b w1) = Some (b_set_life 0 (moveBullet b))) /\
  (forall b w1,
     bulletGone (camera w1) (moveBullet b) = false ->
     scoresHit (moveBullet b) w1 = false ->
     fst (stepBullet b w1) = Some (moveBullet b)) /\
  (forall pre b post,
     let m := beforeBullets inputs w in
     bullets m = pre ++ b :: post ->
     bulletGone (camera m) (moveBullet b) = false ->
     scoresHit (moveBullet b) (snd (bulletsLoop post m)) = true ->
     In (b_set_life 0 (moveBullet b)) (bullets (update inputs w)) /\
     b_life (b_set_life 0 (moveBullet b)) = 0%Z /\
     stepBullet (b_set_life 0 (moveBullet b)) (update inputs w)
       = (None, update inputs w)).
Proof.
  intro G. repeat apply conj.
  - intros b w1 H. unfold stepBullet. rewrite H. reflexivity.
  - intros b w1 H. unfold stepBullet.
    assert (E : bulletGone (camera w1) (moveBullet b) = true).
    { unfold bulletGone. simpl.
      assert (L : (b_life b - 1 <=? 0)%Z = true) by (apply Z.leb_le; lia).
      rewrite L. reflexivity. }
    rewrite E. reflexivity.
  - intros bs w1. apply bulletsLoop_survivors.
  - destruct (update_bullets inputs w G) as (m & kept & pushed & E & S & P).
    rewrite E. apply Forall_app. split.
    + clear - S. induction S; constructor; eauto using survivor_life.
    + eapply Forall_impl; [|exact P]. simpl. intros b H. lia.
  - intros b w1 N H. rewrite (stepBullet_kept_life b w1 N), H. reflexivity.
  - intros b w1 N H. rewrite (stepBullet_kept_life b w1 N), H. reflexivity.
  - intros pre b post m E N H.
    destruct (update_bullets_loop inputs w G) as (pushed & U).
    fold m in U. repeat apply conj.
    + rewrite U, E. apply in_or_app. left.
      apply bulletsLoop_spent; assumption.
    + reflexivity.
    + unfold stepBullet. cbv zeta.
      assert (X : bulletGone (camera (update inputs w))
                    (moveBullet (b_set_life 0 (moveBullet b))) = true)
        by reflexivity.
      rewrite X. reflexivity.
Qed.

(** ** Further properties of the component *)

(** *** Induction on the phases of a step

    A relation between worlds that is reflexive and transitive and that
    holds across each elementary move of a step holds across the step. *)

Lemma bulletVsEnemies_world b es w :
  snd (fst (bulletVsEnemies b es w)) = w \/
  exists e, In e es /\ bulletHits b e = true /\
            snd (fst (bulletVsEnemies b es w)) = snd (damageEnemy e w).
Proof.
  induction es as [|e es IH]; simpl; [left; reflexivity|].
  destruct (bulletHits b e) eqn:H.
  - right. exists e. destruct (damageEnemy e w). simpl. auto.
  - destruct (bulletVsEnemies b es w) as [[es' w'] hit]. simpl in *.
    destruct IH as [IH|(e0 & I & B & IH)]; [left; exact IH|].
    right. exists e0. auto.
Qed.

Section StepInduction.

Variable R : World -> World -> Prop.
Hypothesis R_refl : forall w, R w w.
Hypothesis R_trans : forall w1 w2 w3, R w1 w2 -> R w2 w3 -> R w1 w3.
Hypothesis R_death : forall w, R w (handlePlayerDeath w).
Hypothesis R_damage :
  forall e w, e_isDead e = false -> R w (snd (damageEnemy e w)).
Hypothesis R_bullets : forall bs w, R w (w_set_bullets bs w).
Hypothesis R_enemies : forall es w, R w (w_set_enemies es w).
Hypothesis R_collision : forall w, R w (collisionDetection w).
Hypothesis R_shooting : forall inputs w, R w (shooting inputs w).

Lemma stepBullet_rel b w : R w (snd (stepBullet b w)).
Proof.
  unfold stepBullet.
  destruct (bulletGone (camera w) (moveBullet b)); [apply R_refl|].
  destruct (b_owner (moveBullet b)).
  - pose proof (bulletVsEnemies_world (moveBullet b) (enemies w) w) as H.
    destruct (bulletVsEnemies (moveBullet b) (enemies w) w) as [[es w1] hit].
    simpl in *. eapply R_trans; [|apply R_enemies].
    destruct H as [H|(e & _ & B & H)]; rewrite H.
    + apply R_refl.
    + apply R_damage. eapply bulletHits_alive; eauto.
  - match goal with |- context [if ?c then _ else _] => destruct c end; simpl.
    + apply R_death.
    + apply R_refl.
Qed.

Lemma bulletsLoop_rel bs w : R w (snd (bulletsLoop bs w)).
Proof.
  induction bs as [|b bs IH]; simpl; [apply R_refl|].
  destruct (bulletsLoop bs w) as [rest' w1]. simpl in IH.
  pose proof (stepBullet_rel b w1) as H.
  destruct (stepBullet b w1) as [ob w2]. simpl in *.
  eapply R_trans; eauto.
Qed.

Lemma stepEnemy_rel e w : R w (snd (stepEnemy e w)).
Proof.
  unfold stepEnemy. destruct (e_isDead e); [apply R_refl|].
  destruct (enemyAI w e) as [e1 pushed].
  match goal with |- context [if ?c then _ else _] => destruct c end; simpl.
  - eapply R_trans; [apply R_bullets | apply R_death].
  - apply R_bullets.
Qed.

Lemma enemiesLoop_rel es w : R w (snd (enemiesLoop es w)).
Proof.
  revert w. induction es as [|e es IH]; intro w; simpl; [apply R_refl|].
  pose proof (stepEnemy_rel e w) as H.
  destruct (stepEnemy e w) as [e' w1]. simpl in H.
  specialize (IH w1). destruct (enemiesLoop es w1) as [rest' w2]. simpl in *.
  eapply R_trans; eauto.
Qed.

Lemma beforeParticles_rel inputs w :
  R w (enemiesUpdate (bulletsUpdate (shooting inputs
         (pitfallDeath (collisionDetection w))))).
Proof.
  set (w3 := shooting inputs (pitfallDeath (collisionDetection w))).
  assert (R3 : R w w3).
  { eapply R_trans; [|apply R_shooting].
    eapply R_trans; [apply R_collision|].
    unfold pitfallDeath.
    match goal with |- context [if ?c then _ else _] => destruct c end.
    - apply R_death.
    - apply R_refl. }
  assert (R4 : R w3 (bulletsUpdate w3)).
  { unfold bulletsUpdate.
    pose proof (bulletsLoop_rel (bullets w3) w3) as H.
    destruct (bulletsLoop (bullets w3) w3) as [bs w1]. simpl in H.
    eapply R_trans; [exact H | apply R_bullets]. }
  assert (R5 : R (bulletsUpdate w3) (enemiesUpdate (bulletsUpdate w3))).
  { unfold enemiesUpdate.
    pose proof (enemiesLoop_rel (enemies (bulletsUpdate w3)) (bulletsUpdate w3))
      as H.
    destruct (enemiesLoop (enemies (bulletsUpdate w3)) (bulletsUpdate w3))
      as [es w1]. simpl in H.
    eapply R_trans; [exact H | apply R_enemies]. }
  eauto.
Qed.

Hypothesis R_particles : forall ps w, R w (w_set_particles ps w).

Lemma afterPhysics_rel inputs w : R w (afterPhysics inputs w).
Proof.
  unfold afterPhysics.
  eapply R_trans; [apply beforeParticles_rel | apply R_particles].
Qed.

Hypothesis R_tick : forall t w, R w (w_set_tick t w).
Hypothesis R_physics : forall inputs w, R w (playerPhysics inputs w).
Hypothesis R_camera : forall w, R w (cameraUpdate w).
Hypothesis R_invincibility : forall w, R w (invincibility w).

Lemma update_rel inputs w : R w (update inputs w).
Proof.
  destruct (GameState_eqb (gameState w) PLAYING) eqn:G.
  - apply GameState_eqb_eq in G. rewrite (update_playing inputs w G).
    eapply R_trans; [|apply R_invincibility].
    eapply R_trans; [|apply R_camera].
    change (beforeCamera inputs w)
      with (afterPhysics inputs (playerPhysics inputs (w_set_tick (tick w + 1) w))).
    eapply R_trans; [|apply afterPhysics_rel].
    eapply R_trans; [apply R_tick | apply R_physics].
  - rewrite update_not_playing; [apply R_refl|].
    intro E. apply GameState_eqb_eq in E. congruence.
Qed.

End StepInduction.

(** *** checkCollision *)

(** X1.  checkCollision does not depend on the order of its two boxes. *)
Theorem checkCollision_symmetric (a b : Box) :
  checkCollision a b = checkCollision b a.
Proof.
  unfold checkCollision, Qgtb.
  destruct (Qltb (x a) (x b + width b)), (Qltb (x b) (x a + width a)),
    (Qltb (y a) (y b + height b)), (Qltb (y b) (y a + height a));
    reflexivity.
Qed.

(** X2.  The four comparisons are strict: two boxes that only share an
    edge (the right edge of one at the left edge of the other, or the
    bottom of one at the top of the other) do not collide, in either
    argument order. *)
Theorem checkCollision_touching (a b : Box) :
  x a + width a == x b \/ y a + height a == y b ->
  checkCollision a b = false /\ checkCollision b a = false.
Proof.
  intro T. rewrite (checkCollision_symmetric b a).
  assert (E : checkCollision a b = false); [|split; exact E].
  unfold checkCollision.
  destruct T as [T|T].
  - assert (G : Qgtb (x a + width a) (x b) = false) by (apply Qgtb_le; lra).
    rewrite G. rewrite andb_false_r. reflexivity.
  - assert (G : Qgtb (y a + height a) (y b) = false) by (apply Qgtb_le; lra).
    rewrite G. apply andb_false_r.
Qed.

(** *** The keyboard handlers *)

Lemma handleKeyDown_table code i :
  handleKeyDown code i =
  match controlOf code with Some c => setControl c true i | None => i end.
Proof.
  unfold handleKeyDown, controlOf.
  repeat match goal with
         | |- context [if caseOf ?c ?a ?b then _ else _] =>
             destruct (caseOf c a b); try reflexivity
         end.
  simpl. destruct i as [l r u d j s]. destruct j; reflexivity.
Qed.

Lemma handleKeyUp_table code i :
  handleKeyUp code i =
  match controlOf code with Some c => setControl c false i | None => i end.
Proof.
  unfold handleKeyUp, controlOf.
  repeat match goal with
         | |- context [if caseOf ?c ?a ?b then _ else _] =>
             destruct (caseOf c a b); try reflexivity
         end.
Qed.

Lemma held_setControl c c' v i :
  held c (setControl c' v i) = if Control_eqb c c' then v else held c i.
Proof. destruct c, c'; reflexivity. Qed.

(** X3.  A key-down sets the control its code is bound to and a key-up
    clears it; neither changes any other control, and a code that is not
    bound changes nothing at all. *)
Theorem key_changes_only_its_control (code : string) (i : InputState) :
  (forall c, controlOf code = Some c ->
     held c (handleKeyDown code i) = true /\
     held c (handleKeyUp code i) = false) /\
  (forall c, controlOf code <> Some c ->
     held c (handleKeyDown code i) = held c i /\
     held c (handleKeyUp code i) = held c i) /\
  (controlOf code = None ->
     handleKeyDown code i = i /\ handleKeyUp code i = i).
Proof.
  rewrite handleKeyDown_table, handleKeyUp_table.
  split; [|split].
  - intros c E. rewrite E, !held_setControl.
    destruct c; simpl; auto.
  - intros c N. destruct (controlOf code) as [c'|]; [|auto].
    rewrite !held_setControl.
    destruct c, c'; simpl; auto; exfalso; apply N; reflexivity.
  - intros E. rewrite E. auto.
Qed.

(** X4.  Two key codes bound to the same control share one flag: once
    either of them is released the control reads as not held, even though
    the other key went down and has not been released. *)
Theorem releasing_either_key_clears_the_control
    (code1 code2 : string) (c : Control) (i : InputState) :
  controlOf code1 = Some c -> controlOf code2 = Some c ->
  held c (handleKeyUp code2 (handleKeyDown code1 i)) = false /\
  held c (handleKeyUp code1 (handleKeyDown code2 (handleKeyDown code1 i)))
    = false.
Proof.
  intros E1 E2.
  rewrite !handleKeyDown_table, !handleKeyUp_table, E1, E2.
  rewrite !held_setControl. destruct c; auto.
Qed.

(** *** Particles *)

Lemma particlesLoop_app ps qs :
  particlesLoop (ps ++ qs) = particlesLoop ps ++ particlesLoop qs.
Proof.
  induction ps as [|pt ps IH]; simpl; [reflexivity|].
  rewrite IH. destruct (stepParticle pt); reflexivity.
Qed.

Lemma firstn_prefix {A} (l r : list A) : firstn (List.length l) (l ++ r) = l.
Proof.
  induction l as [|a l IH]; simpl; [destruct r; reflexivity|].
  rewrite IH. reflexivity.
Qed.

Lemma skipn_past {A} (l : list A) a r :
  skipn (S (List.length l)) (l ++ a :: r) = r.
Proof. induction l as [|b l IH]; simpl; [reflexivity | exact IH]. Qed.

Lemma nth_error_middle {A} (l : list A) a r :
  nth_error (l ++ a :: r) (List.length l) = Some a.
Proof. induction l as [|b l IH]; simpl; [reflexivity | exact IH]. Qed.

Lemma setAt_middle {A} (l : list A) a v r :
  setAt (List.length l) v (l ++ a :: r) = l ++ v :: r.
Proof. unfold setAt. rewrite firstn_prefix, skipn_past. reflexivity. Qed.

Lemma removeAt_middle {A} (l : list A) a r :
  removeAt (List.length l) (l ++ a :: r) = l ++ r.
Proof. unfold removeAt. rewrite firstn_prefix, skipn_past. reflexivity. Qed.

Lemma sweepFrom_S j ps :
  sweepFrom (S j) ps =
  match nth_error ps j with
  | None => sweepFrom j ps
  | Some pt =>
      let pt1 := mkParticle (pt_x pt + pt_vx pt) (pt_y pt + pt_vy pt)
                   (pt_vx pt) (pt_vy pt) (pt_life pt - 1) (pt_color pt) in
      let ps1 := setAt j pt1 ps in
      if (pt_life pt1 <=? 0)%Z
      then sweepFrom j (removeAt j ps1)
      else sweepFrom j ps1
  end.
Proof. reflexivity. Qed.

(** The iterations for the indices below [length pre] turn [pre] into
    what [particlesLoop] keeps of it and leave the rest of the array. *)
Lemma sweepFrom_prefix pre :
  forall post,
    sweepFrom (List.length pre) (pre ++ post) = particlesLoop pre ++ post.
Proof.
  induction pre as [|pt pre IH] using rev_ind; intro post; [reflexivity|].
  rewrite length_app, Nat.add_comm. cbn [List.length Nat.add].
  rewrite <- app_assoc. cbn [app].
  rewrite sweepFrom_S, nth_error_middle. cbv zeta.
  rewrite setAt_middle, removeAt_middle, particlesLoop_app.
  cbn [particlesLoop]. unfold stepParticle. cbn [pt_life].
  destruct (pt_life pt - 1 <=? 0)%Z.
  - rewrite IH, app_nil_r. reflexivity.
  - rewrite IH, <- app_assoc. reflexivity.
Qed.

Lemma particlesLoop_filter ps :
  particlesLoop ps
    = filter (fun pt => negb (pt_life pt <=? 0)%Z)
        (map (fun pt =>
                mkParticle (pt_x pt + pt_vx pt) (pt_y pt + pt_vy pt)
                  (pt_vx pt) (pt_vy pt) (pt_life pt - 1) (pt_color pt))
           ps).
Proof.
  induction ps as [|pt ps IH]; simpl; [reflexivity|].
  rewrite IH. unfold stepParticle. simpl.
  destruct (pt_life pt - 1 <=? 0)%Z; reflexivity.
Qed.

Lemma particlesSweep_loop ps : particlesSweep ps = particlesLoop ps.
Proof.
  unfold particlesSweep.
  rewrite <- (app_nil_r ps) at 2.
  rewrite sweepFrom_prefix. apply app_nil_r.
Qed.

(** X5.  The particle pass, run as the reverse loop over array indices
    with in-place update and splice, visits every particle exactly once:
    its result is each particle moved by its velocity with life taken down
    by 1, in the original order, without those whose life is then <= 0.
    It is what the particle phase of a step leaves in the array. *)
Theorem particle_sweep_keeps_the_live_ones (w : World) :
  particlesSweep (particles w)
    = filter (fun pt => negb (pt_life pt <=? 0)%Z)
        (map (fun pt =>
                mkParticle (pt_x pt + pt_vx pt) (pt_y pt + pt_vy pt)
                  (pt_vx pt) (pt_vy pt) (pt_life pt - 1) (pt_color pt))
           (particles w)) /\
  particles (particlesUpdate w) = particlesSweep (particles w).
Proof.
  rewrite particlesSweep_loop. split.
  - apply particlesLoop_filter.
  - reflexivity.
Qed.

Lemma createParticlesLoop_particles k px py c w :
  exists ps,
    particles (createParticlesLoop k px py c w) = particles w ++ ps /\
    List.length ps = k /\
    Forall (fun pt => pt_x pt = px /\ pt_y pt = py /\ pt_life pt = 30%Z /\
                      pt_color pt = c) ps /\
    rng (createParticlesLoop k px py c w) = (rng w + 2 * k)%nat.
Proof.
  revert w. induction k as [|k IH]; intro w; simpl.
  - exists []. rewrite app_nil_r. repeat apply conj; auto.
  - destruct (IH (w_set_rng (rng w + 2)
       (w_set_particles (particles w ++ [newParticle px py c (rng w)]) w)))
      as (ps & E & L & F & N).
    simpl in E, N.
    exists (newParticle px py c (rng w) :: ps). repeat apply conj.
    + rewrite E, <- app_assoc. reflexivity.
    + simpl. congruence.
    + constructor; [simpl; auto | exact F].
    + rewrite N. lia.
Qed.

(** X6.  A particle burst appends exactly 8 particles to the array, all at
    the given point with the given colour and life 30, keeps the particles
    already there, and draws 16 random numbers. *)
Theorem createParticles_appends_eight (px py : Q) (c : string) (w : World) :
  exists ps,
    particles (createParticles px py c w) = particles w ++ ps /\
    List.length ps = 8%nat /\
    Forall (fun pt => pt_x pt = px /\ pt_y pt = py /\ pt_life pt = 30%Z /\
                      pt_color pt = c) ps /\
    rng (createParticles px py c w) = (rng w + 16)%nat.
Proof. apply (createParticlesLoop_particles 8). Qed.

(** *** Player movement *)

(** What the platform loop never touches on the player. *)
Lemma checkPlatforms_frame plats p :
  let r := checkPlatforms plats p in
  p_x r = p_x p /\ p_width r = p_width p /\ p_height r = p_height p /\
  p_vx r = p_vx p /\ p_color r = p_color p /\ p_isDead r = p_isDead p /\
  p_direction r = p_direction p /\ p_isCrouching r = p_isCrouching p /\
  p_shootCooldown r = p_shootCooldown p /\
  p_invincibleTimer r = p_invincibleTimer p /\ p_hp r = p_hp p /\
  p_score r = p_score p /\ p_state r = p_state p /\
  p_facingVertical r = p_facingVertical p.
Proof.
  revert p. induction plats as [|plat plats IH]; intro p; simpl.
  - repeat apply conj; reflexivity.
  - specialize (IH (checkPlatform p plat)). simpl in IH.
    unfold checkPlatforms in *.
    unfold checkPlatform in *.
    destruct (overlapsPlatform p plat); [|exact IH].
    destruct (Qgtb (p_vy p) 0 && wasAbove p plat); [|exact IH].
    simpl in IH. exact IH.
Qed.

Lemma facing_keeps_grounded inputs p :
  p_isGrounded (verticalFacing inputs (horizontalMovement inputs p))
    = p_isGrounded p.
Proof.
  unfold verticalFacing, horizontalMovement.
  destruct (left inputs), (right inputs), (up inputs), (down inputs);
    reflexivity.
Qed.

(** X7.  There is no jump in the air: when the player is not grounded as
    a step begins, the step does the same whether jump is held or not. *)
Theorem no_jump_in_the_air (inputs : InputState) (w : World) :
  p_isGrounded (player w) = false ->
  update (withJump true inputs) w = update (withJump false inputs) w.
Proof.
  intro G. unfold update.
  destruct (negb (GameState_eqb (gameState w) PLAYING)); [reflexivity|].
  assert (E : playerPhysics (withJump true inputs) (w_set_tick (tick w + 1) w)
            = playerPhysics (withJump false inputs) (w_set_tick (tick w + 1) w)).
  { unfold playerPhysics. f_equal. f_equal. f_equal. unfold jumping.
    rewrite (facing_keeps_grounded (withJump true inputs)). simpl.
    rewrite G. simpl. reflexivity. }
  rewrite E. reflexivity.
Qed.

(** X8.  A drop-through passes the platform the player stands on: with
    jump and down held, a grounded player whose bottom edge is exactly on
    a platform's top leaves the physics phase moving down at 1 + GRAVITY,
    and the landing test of that platform fails for it, whatever the
    platform's type. *)
Theorem drop_through_passes_the_platform
    (inputs : InputState) (w : World) (plat : Platform) :
  i_jump inputs = true -> down inputs = true ->
  p_isGrounded (player w) = true ->
  p_y (player w) + p_height (player w) == plat_y plat ->
  let q := player (playerPhysics inputs w) in
  p_vy q == 1 + K_GRAVITY K /\
  p_y q == p_y (player w) + 2 + K_GRAVITY K /\
  landsOn q plat = false /\
  checkPlatform q plat = q.
Proof.
  intros J D G Y q.
  assert (V : p_vy q == 1 + K_GRAVITY K /\
              p_y q == p_y (player w) + 2 + K_GRAVITY K /\
              p_height q = p_height (player w)).
  { subst q. unfold playerPhysics, levelBounds, gravity, jumping. simpl.
    rewrite facing_keeps_grounded, J, G, D. simpl.
    match goal with |- context [if ?c then _ else _] => destruct c end;
      simpl; unfold verticalFacing, horizontalMovement; rewrite ?D;
      destruct (left inputs), (right inputs), (up inputs); simpl;
      repeat apply conj; try reflexivity; ring. }
  destruct V as (V1 & V2 & V3).
  assert (L : landsOn q plat = false).
  { unfold landsOn.
    assert (A : Qleb (p_y q - p_vy q + p_height q) (plat_y plat) = false).
    { apply Qleb_gt. rewrite V1, V2, V3. lra. }
    rewrite A. apply andb_false_r. }
  repeat apply conj; auto.
  rewrite checkPlatform_landsOn, L. reflexivity.
Qed.

(** X9.  Standing is stable: a player at rest on a platform (vy = 0,
    bottom edge on the platform top) who does not jump, and who after its
    horizontal move is still over the platform, passes the landing test of
    that platform again after gravity has pulled it in, provided
    0 < GRAVITY < height + platform.height; where no earlier platform of
    the list is landed on, collision resolution puts it back on the top
    with vy = 0 and isGrounded = true. *)
Theorem standing_is_stable
    (inputs : InputState) (w : World) (plat : Platform) :
  i_jump inputs = false ->
  p_vy (player w) == 0 ->
  p_y (player w) + p_height (player w) == plat_y plat ->
  0 < K_GRAVITY K ->
  K_GRAVITY K < p_height (player w) + plat_height plat ->
  let w1 := playerPhysics inputs w in
  p_x (player w1) < plat_x plat + plat_width plat ->
  plat_x plat < p_x (player w1) + p_width (player w1) ->
  landsOn (player w1) plat = true /\
  (forall pre post,
     platforms w = pre ++ plat :: post ->
     Forall (fun earlier =>
               landsOn (p_set_isGrounded false (player w1)) earlier = false) pre ->
     let r := player (collisionDetection w1) in
     p_y r + p_height r == plat_y plat /\ p_vy r == 0 /\
     p_isGrounded r = true).
Proof.
  intros J V Y G0 G1 w1 X1 X2.
  assert (F : p_vy (player w1) == K_GRAVITY K /\
              p_y (player w1) == p_y (player w) + K_GRAVITY K /\
              p_height (player w1) = p_height (player w)).
  { subst w1. unfold playerPhysics, levelBounds, gravity, jumping. simpl.
    rewrite J. simpl.
    match goal with |- context [if ?c then _ else _] => destruct c end;
      simpl; unfold verticalFacing, horizontalMovement;
      destruct (left inputs), (right inputs), (up inputs), (down inputs);
      simpl; repeat apply conj; try reflexivity; lra. }
  destruct F as (F1 & F2 & F3).
  assert (L : landsOn (player w1) plat = true).
  { unfold landsOn.
    apply Qltb_lt in X1. apply Qgtb_gt in X2. rewrite X1, X2.
    assert (A : Qltb (p_y (player w1)) (plat_y plat + plat_height plat) = true)
      by (apply Qltb_lt; lra).
    assert (B : Qgtb (p_y (player w1) + p_height (player w1)) (plat_y plat) = true)
      by (apply Qgtb_gt; rewrite F3; lra).
    assert (C : Qgtb (p_vy (player w1)) 0 = true) by (apply Qgtb_gt; lra).
    assert (D : Qleb (p_y (player w1) - p_vy (player w1) + p_height (player w1))
                  (plat_y plat) = true)
      by (apply Qleb_le; rewrite F3; lra).
    rewrite A, B, C, D. reflexivity. }
  split; [exact L|].
  intros pre post E N r. subst r.
  change (player (collisionDetection w1))
    with (checkPlatforms (platforms w) (p_set_isGrounded false (player w1))).
  rewrite E, checkPlatforms_app, (checkPlatforms_no_landing pre _ N).
  apply (landing_rests (p_set_isGrounded false (player w1)) post plat).
  exact L.
Qed.

(** Grounded after the platform loop means landed in it. *)
Lemma checkPlatforms_grounded plats p :
  p_isGrounded (checkPlatforms plats p) = true ->
  p_isGrounded p = true \/
  exists plat, In plat plats /\
    p_y (checkPlatforms plats p) + p_height (checkPlatforms plats p)
      == plat_y plat /\
    p_vy (checkPlatforms plats p) = 0.
Proof.
  revert p. induction plats as [|plat plats IH]; intros p G; simpl in *.
  - left. exact G.
  - rewrite checkPlatform_landsOn in *.
    destruct (landsOn p plat) eqn:L.
    + right. exists plat. split; [left; reflexivity|].
      rewrite checkPlatforms_idle by reflexivity. simpl.
      split; [ring | reflexivity].
    + destruct (IH p G) as [H|(pl & I & H)]; [left; exact H|].
      right. exists pl. split; [right; exact I | exact H].
Qed.

(** X10.  The grounded flag is recomputed by every collision pass and
    never carried over: after the pass the player is grounded only if it
    rests on a platform of the list, bottom edge exactly on that
    platform's top and vy = 0. *)
Theorem grounded_means_resting (w : World) :
  p_isGrounded (player (collisionDetection w)) = true ->
  exists plat,
    In plat (platforms w) /\
    p_y (player (collisionDetection w))
      + p_height (player (collisionDetection w)) == plat_y plat /\
    p_vy (player (collisionDetection w)) = 0.
Proof.
  unfold collisionDetection. simpl. intro G.
  destruct (checkPlatforms_grounded _ _ G) as [H|H]; [discriminate | exact H].
Qed.

(** *** What a step leaves alone *)

Lemma shooting_frame inputs w :
  player (shooting inputs w)
    = p_set_shootCooldown (p_shootCooldown (player (shooting inputs w)))
        (player w) /\
  camera (shooting inputs w) = camera w /\
  platforms (shooting inputs w) = platforms w /\
  enemies (shooting inputs w) = enemies w /\
  particles (shooting inputs w) = particles w /\
  events (shooting inputs w) = events w /\
  gameState (shooting inputs w) = gameState w /\
  tick (shooting inputs w) = tick w.
Proof.
  unfold shooting, tickCooldown.
  destruct (Qgtb (p_shootCooldown (player w)) 0); simpl;
  match goal with |- context [if ?c then _ else _] => destruct c end; simpl;
    (split; [|repeat apply conj; reflexivity]);
    try reflexivity.
  destruct (player w); reflexivity.
Qed.

Lemma levelBounds_right_of_camera cam p : cam <= p_x (levelBounds cam p).
Proof.
  unfold levelBounds. destruct (Qltb (p_x p) cam) eqn:B; reflect_tests; simpl; lra.
Qed.

(** What the physics phase never touches on the player. *)
Lemma physics_keeps_trans p q r :
  physicsKeeps p q -> physicsKeeps q r -> physicsKeeps p r.
Proof. unfold physicsKeeps. intuition congruence. Qed.

Lemma physics_frame inputs w :
  physicsKeeps (player w) (player (playerPhysics inputs w)) /\
  camera w <= p_x (player (playerPhysics inputs w)).
Proof.
  split; [|apply levelBounds_right_of_camera].
  unfold playerPhysics. simpl.
  eapply physics_keeps_trans;
    [|unfold levelBounds;
      match goal with |- context [if ?c then _ else _] => destruct c end;
      unfold physicsKeeps; simpl; repeat apply conj; reflexivity].
  eapply physics_keeps_trans;
    [|unfold gravity, physicsKeeps; simpl; repeat apply conj; reflexivity].
  eapply physics_keeps_trans;
    [|unfold jumping;
      match goal with |- context [if ?c then _ else _] => destruct c end;
      [destruct (down inputs)|];
      unfold physicsKeeps; simpl; repeat apply conj; reflexivity].
  unfold verticalFacing, horizontalMovement, physicsKeeps.
  destruct (left inputs), (right inputs), (up inputs), (down inputs);
    simpl; repeat apply conj; reflexivity.
Qed.

Lemma update_keeps_body_and_platforms inputs w :
  sameBody (player w) (player (update inputs w)) /\
  platforms (update inputs w) = platforms w.
Proof.
  apply (update_rel
           (fun w w' => sameBody (player w) (player w') /\
                        platforms w' = platforms w));
    unfold sameBody; clear inputs w.
  - intro w. repeat apply conj; reflexivity.
  - intros w1 w2 w3 (B1 & P1) (B2 & P2). split; [|congruence].
    destruct B1 as (? & ? & ? & ? & ? & ?), B2 as (? & ? & ? & ? & ? & ?).
    repeat apply conj; congruence.
  - intro w. destruct (handlePlayerDeath_arena w) as (_ & _ & _ & P & _).
    split; [|exact P].
    destruct (handlePlayerDeath_cases w)
      as [[_ E]|[(_ & _ & E & _)|(_ & _ & E & _)]];
      rewrite E; simpl; repeat apply conj; reflexivity.
  - intros e w _. destruct (damageEnemy_arena e w) as (P & _).
    split; [|exact P].
    destruct (damageEnemy_cases e w)
      as [(_ & _ & E & _)|(_ & _ & E & _)];
      rewrite E; simpl; repeat apply conj; reflexivity.
  - intros bs w. repeat apply conj; reflexivity.
  - intros es w. repeat apply conj; reflexivity.
  - intro w. split; [|reflexivity]. unfold collisionDetection. simpl.
    destruct (checkPlatforms_frame (platforms w)
                (p_set_isGrounded false (player w)))
      as (_ & W & H & _ & C & D & _ & Cr & _ & _ & _ & _ & S & _).
    simpl in *. repeat apply conj; assumption.
  - intros inputs w.
    destruct (shooting_frame inputs w) as (E & _ & P & _).
    rewrite E. simpl. repeat apply conj; auto.
  - intros ps w. repeat apply conj; reflexivity.
  - intros t w. repeat apply conj; reflexivity.
  - intros inputs w.
    destruct (physics_frame inputs w) as ((W & H & C & D & Cr & _ & S) & _).
    repeat apply conj; auto.
  - intro w. destruct (cameraUpdate_frame w) as (E & _ & _ & _ & _ & P).
    rewrite E. repeat apply conj; auto.
  - intro w. split; [|apply invincibility_frame].
    unfold invincibility.
    destruct (p_invincibleTimer (player w) >? 0)%Z; simpl;
      repeat apply conj; reflexivity.
Qed.

(** X11.  A step never writes the platform list nor the player's width,
    height and isDead flag: throughout a play session the platforms are
    those of initLevel, the player is 24 by 48 and its isDead flag stays
    false, whatever its hp. *)
Theorem level_and_player_body_are_fixed
    (frames : list InputState) (w0 : World) :
  (forall inputs w,
     platforms (update inputs w) = platforms w /\
     p_width (player (update inputs w)) = p_width (player w) /\
     p_height (player (update inputs w)) = p_height (player w) /\
     p_isDead (player (update inputs w)) = p_isDead (player w)) /\
  platforms (session frames w0) = levelPlatforms /\
  p_width (player (session frames w0)) = 24 /\
  p_height (player (session frames w0)) = 48 /\
  p_isDead (player (session frames w0)) = false.
Proof.
  split.
  - intros inputs w.
    destruct (update_keeps_body_and_platforms inputs w)
      as ((W & H & _ & D & _) & P).
    auto.
  - apply (session_invariant
             (fun w => platforms w = levelPlatforms /\
                       p_width (player w) = 24 /\
                       p_height (player w) = 48 /\
                       p_isDead (player w) = false)).
    + intro w. repeat apply conj; reflexivity.
    + intros inputs w (P & W & H & D).
      destruct (update_keeps_body_and_platforms inputs w)
        as ((W' & H' & _ & D' & _) & P').
      repeat apply conj; congruence.
Qed.

(** *** The player and the camera's left edge *)

Lemma Math_max_ge a b : a <= Math_max a b /\ b <= Math_max a b.
Proof.
  unfold Math_max. destruct (Qltb a b) eqn:E; reflect_tests; split; lra.
Qed.

Lemma afterPhysics_right_of_camera inputs w :
  camera (afterPhysics inputs w) = camera w /\
  (camera w <= p_x (player w) ->
   camera (afterPhysics inputs w) <= p_x (player (afterPhysics inputs w))).
Proof.
  apply (afterPhysics_rel
           (fun w w' => camera w' = camera w /\
                        (camera w <= p_x (player w) ->
                         camera w' <= p_x (player w'))));
    clear inputs w.
  - intro w. auto.
  - intros w1 w2 w3 (C1 & X1) (C2 & X2). split; [congruence|].
    intro H. apply X2, X1, H.
  - intro w. destruct (handlePlayerDeath_arena w) as (_ & _ & C & _).
    split; [exact C|]. rewrite C.
    destruct (handlePlayerDeath_cases w)
      as [[_ E]|[(_ & _ & E & _)|(_ & _ & E & _)]]; rewrite E; simpl; auto.
    intro H. destruct (Math_max_ge (camera w + 50) (p_x (player w))). lra.
  - intros e w _. destruct (damageEnemy_arena e w) as (_ & C & _).
    split; [exact C|]. rewrite C.
    destruct (damageEnemy_cases e w)
      as [(_ & _ & E & _)|(_ & _ & E & _)]; rewrite E; simpl; auto.
  - intros bs w. auto.
  - intros es w. auto.
  - intro w. split; [reflexivity|]. unfold collisionDetection. simpl.
    destruct (checkPlatforms_frame (platforms w)
                (p_set_isGrounded false (player w))) as (X & _).
    simpl in X. rewrite X. auto.
  - intros inputs w. destruct (shooting_frame inputs w) as (E & C & _).
    rewrite E, C. simpl. auto.
  - intros ps w. auto.
Qed.

Lemma cameraUpdate_behind_player w :
  0 <= K_CAMERA_OFFSET_X K -> camera w <= p_x (player w) ->
  camera (cameraUpdate w) <= p_x (player w).
Proof.
  intros O H. unfold cameraUpdate.
  destruct (Qgtb (p_x (player w)) (camera w + K_CAMERA_OFFSET_X K)) eqn:A;
    simpl;
    match goal with |- context [if ?c then _ else _] => destruct c eqn:C end;
    simpl in *; reflect_tests; lra.
Qed.

Lemma update_right_of_camera inputs w :
  0 <= K_CAMERA_OFFSET_X K -> gameState w = PLAYING ->
  camera (update inputs w) <= p_x (player (update inputs w)).
Proof.
  intros O G. rewrite (update_playing inputs w G).
  change (beforeCamera inputs w)
    with (afterPhysics inputs (playerPhysics inputs (w_set_tick (tick w + 1) w))).
  set (w1 := playerPhysics inputs (w_set_tick (tick w + 1) w)).
  destruct (afterPhysics_right_of_camera inputs w1) as (C & X).
  assert (X1 : camera w1 <= p_x (player w1))
    by apply (physics_frame inputs (w_set_tick (tick w + 1) w)).
  specialize (X X1).
  set (m := afterPhysics inputs w1) in *.
  destruct (invincibility_frame (cameraUpdate m)) as (C' & _ & _ & _ & _ & _ & X' & _).
  destruct (cameraUpdate_frame m) as (P & _).
  rewrite C', X', P. apply cameraUpdate_behind_player; assumption.
Qed.

(** X12.  With CAMERA_OFFSET_X >= 0 the player is never left of the
    camera's left edge: after every step taken while PLAYING, and
    throughout a play session, camera.x <= player.x (the respawn included,
    which never moves the player back). *)
Theorem player_never_left_of_camera
    (frames : list InputState) (w0 : World) :
  0 <= K_CAMERA_OFFSET_X K ->
  (forall inputs w,
     gameState w = PLAYING ->
     camera (update inputs w) <= p_x (player (update inputs w))) /\
  camera (session frames w0) <= p_x (player (session frames w0)).
Proof.
  intro O. split.
  - intros inputs w G. apply update_right_of_camera; assumption.
  - apply (session_invariant (fun w => camera w <= p_x (player w))).
    + intro w. simpl. lra.
    + intros inputs w H.
      destruct (GameState_eqb (gameState w) PLAYING) eqn:G.
      * apply GameState_eqb_eq in G.
        apply update_right_of_camera; assumption.
      * rewrite update_not_playing; [exact H|].
        intro E. apply GameState_eqb_eq in E. congruence.
Qed.

(** *** Lives *)

Lemma livesMove_same w w' :
  hpOf w' = hpOf w -> timerOf w' = timerOf w -> livesMove w w'.
Proof. unfold livesMove. intros H T. rewrite H, T. intuition lia. Qed.

Lemma beforeCamera_livesMove inputs w : livesMove w (beforeCamera inputs w).
Proof.
  assert (T : forall w1 w2 w3,
             livesMove w1 w2 -> livesMove w2 w3 -> livesMove w1 w3).
  { unfold livesMove. intros w1 w2 w3 (A1 & B1 & C1) (A2 & B2 & C2).
    repeat apply conj; lia. }
  change (beforeCamera inputs w)
    with (afterPhysics inputs (playerPhysics inputs (w_set_tick (tick w + 1) w))).
  eapply T; [|apply (afterPhysics_rel livesMove)].
  - destruct (physics_vitals inputs (camera w) (player w)) as (H & _ & Ti).
    apply livesMove_same; assumption.
  - intro w1. apply livesMove_same; reflexivity.
  - exact T.
  - intro w1. unfold livesMove, hpOf, timerOf.
    destruct (handlePlayerDeath_cases w1)
      as [[I E]|[(I & D & E & _)|(I & D & E & _)]]; rewrite E; simpl;
      repeat apply conj; try lia.
  - intros e w1 _. destruct (damageEnemy_arena e w1) as (_ & _ & _ & _ & H & Ti).
    apply livesMove_same; assumption.
  - intros bs w1. apply livesMove_same; reflexivity.
  - intros es w1. apply livesMove_same; reflexivity.
  - intro w1.
    destruct (checkPlatforms_vitals (platforms w1)
                (p_set_isGrounded false (player w1))) as (H & _ & Ti).
    apply livesMove_same; assumption.
  - intros i w1. destruct (shooting_frame i w1) as (E & _).
    apply livesMove_same; unfold hpOf, timerOf; rewrite E; reflexivity.
  - intros ps w1. apply livesMove_same; reflexivity.
Qed.

Lemma update_lives inputs w :
  gameState w = PLAYING ->
  (hpOf (update inputs w) <= hpOf w)%Z /\
  ((0 < timerOf w)%Z ->
   timerOf (update inputs w) = (timerOf w - 1)%Z /\
   hpOf (update inputs w) = hpOf w) /\
  ((0 < hpOf (update inputs w))%Z ->
   hpOf (update inputs w) = hpOf w \/
   (hpOf (update inputs w) = hpOf w - 1 /\
    timerOf (update inputs w) = 179 /\ timerOf w <= 0)%Z).
Proof.
  intro G. rewrite (update_playing inputs w G).
  destruct (beforeCamera_livesMove inputs w) as (A & B & C).
  set (m := beforeCamera inputs w) in *.
  destruct (invincibility_frame (cameraUpdate m))
    as (_ & _ & _ & _ & _ & _ & _ & H & _ & T).
  destruct (cameraUpdate_frame m) as (P & _).
  unfold hpOf, timerOf in *. rewrite P in *.
  repeat apply conj; lia.
Qed.

(** X13.  A step never raises hp, and while lives remain it takes at most
    one: if hp is still positive when the step ends, it is the hp the step
    began with or that minus 1, and in the second case the step began
    without invincibility and ends with the invincibility timer at 179. *)
Theorem at_most_one_life_per_step (inputs : InputState) (w : World) :
  (hpOf (update inputs w) <= hpOf w)%Z /\
  ((0 < hpOf (update inputs w))%Z ->
   hpOf (update inputs w) = hpOf w \/
   (hpOf (update inputs w) = hpOf w - 1 /\
    timerOf (update inputs w) = 179 /\ timerOf w <= 0)%Z).
Proof.
  destruct (GameState_eqb (gameState w) PLAYING) eqn:G.
  - apply GameState_eqb_eq in G.
    destruct (update_lives inputs w G) as (A & _ & C). auto.
  - rewrite update_not_playing.
    + split; [lia | auto].
    + intro E. apply GameState_eqb_eq in E. congruence.
Qed.

(** X14.  Invincibility lasts as long as its timer says: over any run of
    frames no longer than the invincibility timer, the player's hp stays
    as it was, whatever touches it. *)
Theorem invincibility_covers_its_frames
    (frames : list InputState) (w : World) :
  (Z.of_nat (List.length frames) <= timerOf w)%Z ->
  hpOf (fold_left (fun w inputs => update inputs w) frames w) = hpOf w.
Proof.
  revert w. induction frames as [|inputs frames IH]; intros w L;
    [reflexivity|].
  cbn [fold_left]. cbn [List.length] in L.
  assert (T : (0 < timerOf w)%Z) by lia.
  assert (S : hpOf (update inputs w) = hpOf w /\
              (timerOf w - 1 <= timerOf (update inputs w))%Z).
  { destruct (GameState_eqb (gameState w) PLAYING) eqn:G.
    - apply GameState_eqb_eq in G.
      destruct (update_lives inputs w G) as (_ & B & _).
      destruct (B T). split; [assumption | lia].
    - rewrite update_not_playing; [split; [reflexivity | lia]|].
      intro E. apply GameState_eqb_eq in E. congruence. }
  destruct S as [H1 T1]. rewrite IH; [exact H1 | lia].
Qed.

(** *** The heads-up display *)

Lemma hudInSync_same w w' :
  events w' = events w -> hpOf w' = hpOf w -> scoreOf w' = scoreOf w ->
  hudInSync w -> hudInSync w'.
Proof. unfold hudInSync. intros E H S. rewrite E, H, S. auto. Qed.

Lemma update_keeps_hud inputs w : hudInSync w -> hudInSync (update inputs w).
Proof.
  apply (update_rel (fun w w' => hudInSync w -> hudInSync w')); clear inputs w.
  - auto.
  - auto.
  - intro w. unfold hudInSync, hpOf, scoreOf.
    destruct (handlePlayerDeath_cases w)
      as [[_ E]|[(_ & _ & E & _ & V)|(_ & _ & E & _ & V)]].
    + rewrite E. auto.
    + rewrite E, V. simpl. intros [_ S]. auto.
    + rewrite E, V. simpl. intros [_ S]. auto.
  - intros e w _. unfold hudInSync, hpOf, scoreOf.
    destruct (damageEnemy_arena e w) as (_ & _ & _ & _ & H & _).
    rewrite H.
    destruct (damageEnemy_cases e w)
      as [(_ & _ & E & V & _)|(_ & _ & E & V & _)]; rewrite E, V.
    + auto.
    + destruct (isBoss (e_type e)); simpl; intros [L _]; auto.
  - intros bs w. apply hudInSync_same; reflexivity.
  - intros es w. apply hudInSync_same; reflexivity.
  - intro w.
    destruct (checkPlatforms_vitals (platforms w)
                (p_set_isGrounded false (player w))) as (H & S & _).
    apply hudInSync_same; [reflexivity | exact H | exact S].
  - intros inputs w. destruct (shooting_frame inputs w) as (E & _ & _ & _ & _ & V & _).
    apply hudInSync_same; [exact V | |]; unfold hpOf, scoreOf; rewrite E;
      reflexivity.
  - intros ps w. apply hudInSync_same; reflexivity.
  - intros t w. apply hudInSync_same; reflexivity.
  - intros inputs w.
    destruct (physics_vitals inputs (camera w) (player w)) as (H & S & _).
    apply hudInSync_same; [reflexivity | exact H | exact S].
  - intro w. destruct (cameraUpdate_frame w) as (P & _ & _ & E & _).
    apply hudInSync_same; [exact E | |]; unfold hpOf, scoreOf; rewrite P;
      reflexivity.
  - intro w.
    destruct (invincibility_frame w) as (_ & _ & _ & E & _ & _ & _ & H & S & _).
    apply hudInSync_same; assumption.
Qed.

(** X15.  The HUD never disagrees with the player: throughout a play
    session the lives and the score held by the parent component, as set
    by the last setLives and setScore calls, are the player's hp and score,
    and the HUD draws max(0, hp) life icons, none once hp is 0 or below. *)
Theorem hud_shows_the_player (frames : list InputState) (w0 : World) :
  shownLives (events (session frames w0)) = hpOf (session frames w0) /\
  shownScore (events (session frames w0)) = scoreOf (session frames w0) /\
  lifeIcons (shownLives (events (session frames w0)))
    = Z.to_nat (Z.max 0 (hpOf (session frames w0))) /\
  ((hpOf (session frames w0) <= 0)%Z ->
   lifeIcons (shownLives (events (session frames w0))) = 0%nat).
Proof.
  assert (S : hudInSync (session frames w0)).
  { apply (session_invariant hudInSync).
    - intro w. split; reflexivity.
    - intros inputs w. apply update_keeps_hud. }
  destruct S as [L S]. rewrite L. unfold lifeIcons.
  repeat apply conj; auto. intro H. rewrite Z.max_l by lia. reflexivity.
Qed.

(** *** The tick counter and the loop driver *)

Lemma afterPhysics_tick inputs w : tick (afterPhysics inputs w) = tick w.
Proof.
  apply (afterPhysics_rel (fun w w' => tick w' = tick w)); clear inputs w;
    try reflexivity.
  - intros; congruence.
  - intro w. apply handlePlayerDeath_arena.
  - intros e w _. unfold damageEnemy. simpl.
    destruct (e_hp e - 1 <=? 0)%Z; simpl;
      [destruct (isBoss (e_type e))|]; simpl; autorewrite with frame;
      reflexivity.
  - intros inputs w. apply shooting_frame.
Qed.

Lemma update_tick inputs w :
  tick (update inputs w)
    = if GameState_eqb (gameState w) PLAYING then (tick w + 1)%Z else tick w.
Proof.
  destruct (GameState_eqb (gameState w) PLAYING) eqn:G.
  - apply GameState_eqb_eq in G. rewrite (update_playing inputs w G).
    change (beforeCamera inputs w)
      with (afterPhysics inputs (playerPhysics inputs (w_set_tick (tick w + 1) w))).
    set (m := afterPhysics inputs _).
    assert (T : tick m = (tick w + 1)%Z) by apply afterPhysics_tick.
    rewrite <- T. unfold invincibility, cameraUpdate.
    repeat match goal with
           | |- context [if ?c then _ else _] => destruct c
           end; reflexivity.
  - rewrite update_not_playing; [reflexivity|].
    intro E. apply GameState_eqb_eq in E. congruence.
Qed.

Lemma runFrames_rate frames :
  forall t0 w,
    t0 <= fst (runFrames frames (t0, w)) /\
    16 * inject_Z (tick (snd (runFrames frames (t0, w))) - tick w)
      <= fst (runFrames frames (t0, w)) - t0.
Proof.
  induction frames as [|[time inputs] frames IH]; intros t0 w.
  - unfold runFrames. cbn [fold_left fst snd]. rewrite Z.sub_diag.
    change (inject_Z 0) with 0. split; lra.
  - unfold runFrames in *. cbn [fold_left fst snd animate].
    destruct (Qleb 16 (time - t0)) eqn:D; reflect_tests.
    + destruct (IH time (update inputs w)) as [M R].
      set (st := fold_left _ frames (time, update inputs w)) in *.
      split; [lra|].
      assert (S : (tick (snd st) - tick w
                   <= (tick (snd st) - tick (update inputs w)) + 1)%Z).
      { rewrite update_tick.
        destruct (GameState_eqb (gameState w) PLAYING); lia. }
      rewrite Zle_Qle in S. rewrite inject_Z_plus in S.
      change (inject_Z 1) with 1 in S. lra.
    + apply IH.
Qed.

(** X16.  The loop driver caps the simulation rate: an animation frame
    that comes less than 16 ms after the last frame that was run changes
    neither the world nor lastTime, and over any sequence of frames the
    steps run (as counted by the tick) number at most one per 16 ms
    between the initial lastTime and the last frame run. *)
Theorem frame_rate_is_capped
    (frames : list (Q * InputState)) (t0 : Q) (w : World) :
  (forall inputs time,
     time - t0 < 16 -> animate inputs time (t0, w) = (t0, w)) /\
  (forall inputs,
     tick (update inputs w) = tick w \/
     tick (update inputs w) = (tick w + 1)%Z) /\
  t0 <= fst (runFrames frames (t0, w)) /\
  16 * inject_Z (tick (snd (runFrames frames (t0, w))) - tick w)
    <= fst (runFrames frames (t0, w)) - t0.
Proof.
  split; [|split].
  - intros inputs time D. unfold animate.
    apply Qleb_gt in D. rewrite D. reflexivity.
  - intro inputs. rewrite update_tick.
    destruct (GameState_eqb (gameState w) PLAYING); auto.
  - apply runFrames_rate.
Qed.

(** *** The enemy array *)

Lemma enemyKept_refl e : enemyKept e e.
Proof. unfold enemyKept. repeat apply conj; auto. Qed.

Lemma enemyKept_trans e1 e2 e3 :
  enemyKept e1 e2 -> enemyKept e2 e3 -> enemyKept e1 e3.
Proof.
  intros (I1 & T1 & W1 & H1 & D1) (I2 & T2 & W2 & H2 & D2).
  unfold enemyKept. repeat apply conj; try congruence.
  intro D. specialize (D1 D). subst e2. auto.
Qed.

Lemma Forall2_enemyKept_refl es : Forall2 enemyKept es es.
Proof. induction es; constructor; auto using enemyKept_refl. Qed.

Lemma Forall2_enemyKept_trans es1 es2 es3 :
  Forall2 enemyKept es1 es2 -> Forall2 enemyKept es2 es3 ->
  Forall2 enemyKept es1 es3.
Proof.
  intro H. revert es3. induction H; intros es3 H2; inversion H2; subst;
    constructor; eauto using enemyKept_trans.
Qed.

(** An enemy that is alive and keeps identity, type and size. *)
Lemma enemyKept_alive e e' :
  e_isDead e = false ->
  e_id e' = e_id e -> e_type e' = e_type e ->
  e_width e' = e_width e -> e_height e' = e_height e ->
  enemyKept e e'.
Proof.
  intros A I T W H. unfold enemyKept. repeat apply conj; auto. congruence.
Qed.

Lemma damageEnemy_kept e w :
  e_isDead e = false -> enemyKept e (fst (damageEnemy e w)).
Proof.
  intro A.
  destruct (damageEnemy_cases e w) as [(_ & F & _)|(_ & F & _)]; rewrite F;
    apply enemyKept_alive; auto.
Qed.

Lemma bulletVsEnemies_kept b es w :
  Forall2 enemyKept es (fst (fst (bulletVsEnemies b es w))).
Proof.
  induction es as [|e es IH]; simpl; [constructor|].
  destruct (bulletHits b e) eqn:H.
  - pose proof (damageEnemy_kept e w (bulletHits_alive _ _ H)) as D.
    destruct (damageEnemy e w) as [e' w']. simpl in *.
    constructor; [exact D | apply Forall2_enemyKept_refl].
  - destruct (bulletVsEnemies b es w) as [[es' w'] hit]. simpl in *.
    constructor; [apply enemyKept_refl | exact IH].
Qed.

Lemma stepBullet_kept b w :
  Forall2 enemyKept (enemies w) (enemies (snd (stepBullet b w))).
Proof.
  unfold stepBullet.
  destruct (bulletGone (camera w) (moveBullet b));
    [apply Forall2_enemyKept_refl|].
  destruct (b_owner (moveBullet b)).
  - pose proof (bulletVsEnemies_kept (moveBullet b) (enemies w) w) as H.
    destruct (bulletVsEnemies (moveBullet b) (enemies w) w) as [[es w1] hit].
    exact H.
  - match goal with |- context [if ?c then _ else _] => destruct c end; simpl;
      autorewrite with frame; apply Forall2_enemyKept_refl.
Qed.

Lemma bulletsUpdate_kept w :
  Forall2 enemyKept (enemies w) (enemies (bulletsUpdate w)).
Proof.
  unfold bulletsUpdate.
  assert (H : forall bs, Forall2 enemyKept (enemies w)
                           (enemies (snd (bulletsLoop bs w)))).
  { induction bs as [|b bs IH]; simpl; [apply Forall2_enemyKept_refl|].
    destruct (bulletsLoop bs w) as [rest' w1]. simpl in IH.
    pose proof (stepBullet_kept b w1) as S.
    destruct (stepBullet b w1) as [ob w2]. simpl in *.
    eapply Forall2_enemyKept_trans; eauto. }
  specialize (H (bullets w)).
  destruct (bulletsLoop (bullets w) w) as [bs w1]. exact H.
Qed.

Lemma floorClamp_kept plats e :
  let r := floorClamp plats e in
  e_id r = e_id e /\ e_type r = e_type e /\
  e_width r = e_width e /\ e_height r = e_height e /\ e_x r = e_x e.
Proof.
  unfold floorClamp. revert e.
  induction plats as [|plat plats IH]; intro e; simpl.
  - repeat apply conj; reflexivity.
  - destruct (overlapsPlatformE e plat); [|apply IH].
    destruct (IH (e_set_y (plat_y plat - e_height e) e))
      as (I & T & W & H & X).
    simpl in *. repeat apply conj; assumption.
Qed.

Lemma runnerMove_frame plats d e :
  let r := runnerMove plats d e in
  e_id r = e_id e /\ e_type r = e_type e /\
  e_width r = e_width e /\ e_height r = e_height e.
Proof.
  unfold runnerMove. cbv zeta.
  match goal with
  | |- context [floorClamp ?ps ?x] =>
      destruct (floorClamp_kept ps x) as (I & T & W & H & _)
  end.
  rewrite I, T, W, H.
  destruct (Qgtb (Math_abs d) 10); simpl; repeat apply conj; reflexivity.
Qed.

Lemma enemyAI_frame w e :
  let r := fst (enemyAI w e) in
  e_id r = e_id e /\ e_type r = e_type e /\
  e_width r = e_width e /\ e_height r = e_height e.
Proof.
  unfold enemyAI. cbv zeta.
  destruct (Qltb (Math_abs (p_x (player w) - e_x e)) 600);
    [|repeat apply conj; reflexivity].
  set (e1 := if isRunner (e_type e)
             then runnerMove (platforms w) (p_x (player w) - e_x e) e else e).
  assert (M : e_id e1 = e_id e /\ e_type e1 = e_type e /\
              e_width e1 = e_width e /\ e_height e1 = e_height e).
  { subst e1. destruct (isRunner (e_type e));
      [apply runnerMove_frame | repeat apply conj; reflexivity]. }
  destruct M as (I & T & W & H).
  destruct (isTurret (e_type e1) || isBoss (e_type e1)).
  - unfold enemyShoot. cbv zeta.
    match goal with |- context [if ?c then _ else _] => destruct c end;
      simpl; repeat apply conj; assumption.
  - simpl. repeat apply conj; assumption.
Qed.

Lemma stepEnemy_kept e w : enemyKept e (fst (stepEnemy e w)).
Proof.
  rewrite stepEnemy_fst. destruct (e_isDead e) eqn:D; [apply enemyKept_refl|].
  destruct (enemyAI_frame w e) as (I & T & W & H).
  apply enemyKept_alive; assumption.
Qed.

Lemma enemiesLoop_kept es w : Forall2 enemyKept es (fst (enemiesLoop es w)).
Proof.
  revert w. induction es as [|e es IH]; intro w; simpl; [constructor|].
  pose proof (stepEnemy_kept e w) as S.
  destruct (stepEnemy e w) as [e' w1]. simpl in S.
  specialize (IH w1). destruct (enemiesLoop es w1) as [rest' w2].
  simpl in *. constructor; assumption.
Qed.

(** X17.  Enemies are never removed from their array nor added to it, and
    a step keeps each one's id, type and size; an enemy that is dead when
    a step begins is left exactly as it was, so it never comes back to
    life, moves or fires. *)
Theorem enemies_stay_and_the_dead_are_inert (inputs : InputState) (w : World) :
  Forall2 enemyKept (enemies w) (enemies (update inputs w)) /\
  List.length (enemies (update inputs w)) = List.length (enemies w).
Proof.
  assert (F : Forall2 enemyKept (enemies w) (enemies (update inputs w))).
  { destruct (GameState_eqb (gameState w) PLAYING) eqn:G.
    - apply GameState_eqb_eq in G. rewrite (update_playing inputs w G).
      destruct (invincibility_frame (cameraUpdate (beforeCamera inputs w)))
        as (_ & _ & N & _).
      destruct (cameraUpdate_frame (beforeCamera inputs w)) as (_ & _ & N' & _).
      rewrite N, N'. unfold beforeCamera.
      set (w3 := shooting inputs _).
      change (enemies (particlesUpdate (enemiesUpdate (bulletsUpdate w3))))
        with (enemies (enemiesUpdate (bulletsUpdate w3))).
      assert (E3 : enemies w3 = enemies w).
      { subst w3. destruct (shooting_frame inputs
          (pitfallDeath (collisionDetection (playerPhysics inputs
             (w_set_tick (tick w + 1) w))))) as (_ & _ & _ & N3 & _).
        rewrite N3. unfold pitfallDeath.
        match goal with |- context [if ?c then _ else _] => destruct c end;
          autorewrite with frame; reflexivity. }
      rewrite <- E3.
      eapply Forall2_enemyKept_trans; [apply bulletsUpdate_kept|].
      unfold enemiesUpdate.
      pose proof (enemiesLoop_kept (enemies (bulletsUpdate w3)) (bulletsUpdate w3))
        as H.
      destruct (enemiesLoop (enemies (bulletsUpdate w3)) (bulletsUpdate w3))
        as [es w4]. exact H.
    - rewrite update_not_playing; [apply Forall2_enemyKept_refl|].
      intro E. apply GameState_eqb_eq in E. congruence. }
  split; [exact F|]. symmetry. eapply Forall2_length; eauto.
Qed.

(** *** One bullet, one enemy *)

Lemma bulletVsEnemies_miss b es w :
  Forall (fun e => bulletHits b e = false) es ->
  bulletVsEnemies b es w = (es, w, false).
Proof.
  induction 1 as [|e es H _ IH]; simpl; [reflexivity|].
  rewrite H, IH. reflexivity.
Qed.

(** X18.  A player bullet hurts at most one enemy, the first one in
    array order that is alive and overlaps it: that enemy loses exactly
    1 hp, every enemy before and after it in the array is left as it
    was, overlapping or not, and the loop reports the hit. *)
Theorem bullet_hits_first_live_enemy
    (b : Bullet) (pre post : list Enemy) (e : Enemy) (w : World) :
  Forall (fun e0 => bulletHits b e0 = false) pre ->
  bulletHits b e = true ->
  bulletVsEnemies b (pre ++ e :: post) w
    = (pre ++ fst (damageEnemy e w) :: post, snd (damageEnemy e w), true) /\
  e_hp (fst (damageEnemy e w)) = (e_hp e - 1)%Z.
Proof.
  intros M H. split.
  - induction M as [|e0 pre H0 _ IH]; simpl.
    + rewrite H. destruct (damageEnemy e w). reflexivity.
    + rewrite H0, IH. reflexivity.
  - destruct (damageEnemy_cases e w) as [(_ & F & _)|(_ & F & _)];
      rewrite F; reflexivity.
Qed.

(** X19.  A bullet that overlaps no live enemy changes nothing and is
    not spent. *)
Theorem bullet_missing_every_enemy (b : Bullet) (w : World) :
  Forall (fun e => bulletHits b e = false) (enemies w) ->
  bulletVsEnemies b (enemies w) w = (enemies w, w, false).
Proof. apply bulletVsEnemies_miss. Qed.

(** *** Whom a bullet can hurt *)

Lemma p_set_score_same p : p_set_score (p_score p) p = p.
Proof. destruct p; reflexivity. Qed.

Lemma bulletVsEnemies_player b es w :
  exists s,
    player (snd (fst (bulletVsEnemies b es w))) = p_set_score s (player w).
Proof.
  destruct (bulletVsEnemies_world b es w) as [E|(e & _ & _ & E)]; rewrite E.
  - exists (p_score (player w)). symmetry. apply p_set_score_same.
  - destruct (damageEnemy_cases e w) as [(_ & _ & P & _)|(_ & _ & P & _)];
      rewrite P; eexists; [symmetry; apply p_set_score_same | reflexivity].
Qed.

(** X20.  There is no friendly fire.  Processing a player bullet leaves
    the player as it was but for the score (hp, position, velocity and
    invincibility untouched); processing an enemy bullet leaves every
    enemy and the score as they were. *)
Theorem no_friendly_fire (b : Bullet) (w : World) :
  (b_owner b = OwnerPlayer ->
   exists s, player (snd (stepBullet b w)) = p_set_score s (player w)) /\
  (b_owner b = OwnerEnemy ->
   enemies (snd (stepBullet b w)) = enemies w /\
   scoreOf (snd (stepBullet b w)) = scoreOf w).
Proof.
  unfold stepBullet. split; intro O.
  - destruct (bulletGone (camera w) (moveBullet b)).
    + exists (p_score (player w)). symmetry. apply p_set_score_same.
    + assert (O' : b_owner (moveBullet b) = OwnerPlayer) by exact O.
      rewrite O'.
      destruct (bulletVsEnemies_player (moveBullet b) (enemies w) w) as (s & E).
      destruct (bulletVsEnemies (moveBullet b) (enemies w) w) as [[es w1] hit].
      exists s. exact E.
  - destruct (bulletGone (camera w) (moveBullet b)); [auto|].
    assert (O' : b_owner (moveBullet b) = OwnerEnemy) by exact O.
    rewrite O'.
    match goal with |- context [if ?c then _ else _] => destruct c end; simpl;
      [|auto].
    split; [apply handlePlayerDeath_enemies|].
    unfold scoreOf.
    destruct (handlePlayerDeath_cases w)
      as [[_ E]|[(_ & _ & E & _)|(_ & _ & E & _)]]; rewrite E; reflexivity.
Qed.

(** *** Respawn *)

(** X21.  A death that leaves lives respawns the player without ever
    moving it back: it is put at y = -100 with both velocities 0 and 180
    frames of invincibility, at its own x or at camera.x + 50, whichever
    is further right; GAME_OVER is not requested, and the grounded flag
    and the facing are not reset. *)
Theorem respawn_never_moves_back (w : World) :
  (timerOf w <= 0)%Z -> (0 < hpOf w - 1)%Z ->
  let p := player w in
  let p' := player (handlePlayerDeath w) in
  p_x p <= p_x p' /\ camera w + 50 <= p_x p' /\
  (p_x p' = p_x p \/ p_x p' = camera w + 50) /\
  p_y p' = -100 /\ p_vx p' = 0 /\ p_vy p' = 0 /\
  p_invincibleTimer p' = 180%Z /\ p_hp p' = (p_hp p - 1)%Z /\
  gameState (handlePlayerDeath w) = gameState w /\
  p_isGrounded p' = p_isGrounded p /\ p_direction p' = p_direction p /\
  p_facingVertical p' = p_facingVertical p.
Proof.
  unfold timerOf, hpOf. intros T H. cbv zeta.
  destruct (handlePlayerDeath_cases w)
    as [[I _]|[(_ & D & _)|(_ & _ & E & G & _)]]; try lia.
  rewrite E, G. simpl.
  destruct (Math_max_ge (camera w + 50) (p_x (player w))) as [A B].
  repeat apply conj; try reflexivity; try assumption.
  unfold Math_max. destruct (Qltb (camera w + 50) (p_x (player w))); auto.
Qed.

(** *** Outside PLAYING *)

(** X22.  Outside PLAYING nothing runs: once the game state is MENU,
    GAME_OVER or VICTORY, no number of further frames, whatever the inputs
    and timestamps, changes anything in the world. *)
Theorem frames_outside_playing_change_nothing
    (frames : list (Q * InputState)) (t0 : Q) (w : World) :
  gameState w <> PLAYING ->
  fold_left (fun w f => update (snd f) w) frames w = w /\
  snd (runFrames frames (t0, w)) = w.
Proof.
  intro G. split.
  - induction frames as [|f frames IH]; simpl; [reflexivity|].
    rewrite update_not_playing; assumption.
  - revert t0. induction frames as [|[time inputs] frames IH]; intro t0;
      [reflexivity|].
    unfold runFrames in *. cbn [fold_left fst snd animate].
    destruct (Qleb 16 (time - t0)).
    + rewrite update_not_playing by assumption. apply IH.
    + apply IH.
Qed.

(** *** Runners *)

Lemma Qabs_cases a : (0 <= a /\ Qabs a == a) \/ (a < 0 /\ Qabs a == - a).
Proof.
  destruct (Qlt_le_dec a 0) as [N|P].
  - right. split; [exact N|]. apply Qabs_neg. lra.
  - left. split; [exact P|]. apply Qabs_pos. exact P.
Qed.

Lemma runnerMove_x plats d e :
  e_x (runnerMove plats d e) =
  e_x e + e_vx (if Qgtb (Math_abs d) 10
                then e_set_direction (if Qgtb d 0 then Right else Left)
                       (e_set_vx ((if Qgtb d 0 then 1 else -1) * K_ENEMY_SPEED K) e)
                else e).
Proof.
  unfold runnerMove. cbv zeta.
  match goal with
  | |- context [floorClamp ?ps ?x] =>
      destruct (floorClamp_kept ps x) as (_ & _ & _ & _ & X)
  end.
  rewrite X. destruct (Qgtb (Math_abs d) 10); reflexivity.
Qed.

(** X23.  A live runner within the activation radius and more than 10
    away from the player steps toward it: with 0 < ENEMY_SPEED <= 20 its
    horizontal distance to the player shrinks, and it moves by exactly
    ENEMY_SPEED, to the right when the player is to its right and to the
    left otherwise. *)
Theorem runner_closes_in (w : World) (e : Enemy) :
  e_type e = runner ->
  Math_abs (p_x (player w) - e_x e) < 600 ->
  10 < Math_abs (p_x (player w) - e_x e) ->
  0 < K_ENEMY_SPEED K -> K_ENEMY_SPEED K <= 20 ->
  let e' := fst (enemyAI w e) in
  Math_abs (p_x (player w) - e_x e') < Math_abs (p_x (player w) - e_x e) /\
  (e_x e < p_x (player w) -> e_x e' == e_x e + K_ENEMY_SPEED K) /\
  (p_x (player w) < e_x e -> e_x e' == e_x e - K_ENEMY_SPEED K).
Proof.
  intros T R F S0 S1 e'. subst e'. unfold enemyAI. cbv zeta.
  apply Qltb_lt in R. rewrite R. rewrite T. cbn [isRunner].
  assert (T' : e_type (runnerMove (platforms w) (p_x (player w) - e_x e) e)
               = runner).
  { destruct (runnerMove_kind (platforms w) (p_x (player w) - e_x e) e)
      as (Ty & _). congruence. }
  rewrite T'. cbn [isTurret isBoss orb fst].
  rewrite runnerMove_x.
  apply Qgtb_gt in F. rewrite F. unfold Math_abs in *.
  apply Qgtb_gt in F. cbn [e_vx e_set_direction e_set_vx].
  set (d := p_x (player w) - e_x e) in *.
  destruct (Qgtb d 0) eqn:G; reflect_tests.
  - destruct (Qabs_cases d) as [[P A]|[N A]]; [|lra].
    destruct (Qabs_cases (p_x (player w) - (e_x e + 1 * K_ENEMY_SPEED K)))
      as [[P' A']|[N' A']]; rewrite A, A'; subst d;
      repeat apply conj; intros; lra.
  - destruct (Qabs_cases d) as [[P A]|[N A]].
    + rewrite A in F. lra.
    + destruct (Qabs_cases (p_x (player w) - (e_x e + -1 * K_ENEMY_SPEED K)))
        as [[P' A']|[N' A']]; rewrite A, A'; subst d;
        repeat apply conj; intros; lra.
Qed.

(** *** The player's rate of fire *)

Lemma playerShots_app bs cs :
  playerShots (bs ++ cs) = (playerShots bs + playerShots cs)%nat.
Proof. unfold playerShots. rewrite filter_app, length_app. reflexivity. Qed.

Lemma playerShots_enemy_owned bs :
  Forall (fun b => b_owner b = OwnerEnemy) bs -> playerShots bs = 0%nat.
Proof.
  unfold playerShots. induction 1 as [|b bs O _ IH]; simpl; [reflexivity|].
  rewrite O. exact IH.
Qed.

Lemma playerShots_cons b bs :
  playerShots (b :: bs)
    = ((match b_owner b with OwnerPlayer => 1 | OwnerEnemy => 0 end)
       + playerShots bs)%nat.
Proof. unfold playerShots. simpl. destruct (b_owner b); reflexivity. Qed.

Lemma bulletsLoop_shots bs w :
  (playerShots (fst (bulletsLoop bs w)) <= playerShots bs)%nat.
Proof.
  induction bs as [|b bs IH]; simpl; [lia|].
  destruct (bulletsLoop bs w) as [rest' w1]. simpl in IH.
  pose proof (stepBullet_survivor b w1) as S.
  destruct (stepBullet b w1) as [[b'|] w2]; simpl in *.
  - assert (O : b_owner b' = b_owner b).
    { destruct S as [_ [E|E]]; subst b'; reflexivity. }
    rewrite !playerShots_cons, O. lia.
  - rewrite playerShots_cons. lia.
Qed.

Lemma enemyAI_pushed_owner w e :
  Forall (fun b => b_owner b = OwnerEnemy) (snd (enemyAI w e)).
Proof.
  unfold enemyAI.
  destruct (Qltb (Math_abs (p_x (player w) - e_x e)) 600); [|constructor].
  match goal with |- context [if ?c then _ else _] => destruct c end;
    [|constructor].
  unfold enemyShoot.
  match goal with |- context [if ?c then _ else _] => destruct c end;
    simpl; repeat constructor.
Qed.

Lemma enemiesLoop_shots es w :
  playerShots (bullets (snd (enemiesLoop es w))) = playerShots (bullets w).
Proof.
  revert w. induction es as [|e es IH]; intro w; simpl; [reflexivity|].
  pose proof (stepEnemy_bullets e w) as B.
  pose proof (enemyAI_pushed_owner w e) as P.
  destruct (stepEnemy e w) as [e' w1]. simpl in *.
  specialize (IH w1). destruct (enemiesLoop es w1) as [rest' w2]. simpl in *.
  rewrite IH, B. destruct (e_isDead e); [reflexivity|].
  rewrite playerShots_app, (playerShots_enemy_owned _ P). lia.
Qed.

(** No phase after the shooting block writes the shoot cooldown. *)
Lemma loops_keep_cooldown w :
  p_shootCooldown (player (enemiesUpdate (bulletsUpdate w)))
    = p_shootCooldown (player w).
Proof.
  set (R := fun w w' : World =>
              p_shootCooldown (player w') = p_shootCooldown (player w)).
  assert (Rt : forall w1 w2 w3, R w1 w2 -> R w2 w3 -> R w1 w3)
    by (unfold R; intros; congruence).
  assert (Rd : forall w1, R w1 (handlePlayerDeath w1)).
  { intro w1. unfold R.
    destruct (handlePlayerDeath_cases w1)
      as [[_ E]|[(_ & _ & E & _)|(_ & _ & E & _)]]; rewrite E; reflexivity. }
  assert (Rm : forall e w1, e_isDead e = false -> R w1 (snd (damageEnemy e w1))).
  { intros e w1 _. unfold R.
    destruct (damageEnemy_cases e w1) as [(_ & _ & E & _)|(_ & _ & E & _)];
      rewrite E; reflexivity. }
  assert (B : R w (bulletsUpdate w)).
  { unfold bulletsUpdate.
    pose proof (bulletsLoop_rel R (fun w => eq_refl) Rt Rd Rm
                  (fun es w => eq_refl) (bullets w) w) as H.
    destruct (bulletsLoop (bullets w) w) as [bs w1]. exact H. }
  assert (E : R (bulletsUpdate w) (enemiesUpdate (bulletsUpdate w))).
  { unfold enemiesUpdate.
    pose proof (enemiesLoop_rel R (fun w => eq_refl) Rt Rd
                  (fun bs w => eq_refl)
                  (enemies (bulletsUpdate w)) (bulletsUpdate w)) as H.
    destruct (enemiesLoop (enemies (bulletsUpdate w)) (bulletsUpdate w))
      as [es w1]. exact H. }
  exact (Rt _ _ _ B E).
Qed.

Lemma update_cooling inputs w :
  1 < p_shootCooldown (player w) ->
  (playerShots (bullets (update inputs w)) <= playerShots (bullets w))%nat /\
  p_shootCooldown (player w) - 1 <= p_shootCooldown (player (update inputs w)).
Proof.
  intro C. destruct (GameState_eqb (gameState w) PLAYING) eqn:G.
  - apply GameState_eqb_eq in G. rewrite (update_playing inputs w G).
    set (m := beforeCamera inputs w).
    destruct (invincibility_frame (cameraUpdate m)) as (_ & B & _).
    destruct (cameraUpdate_frame m) as (P & B' & _).
    assert (Pc : p_shootCooldown (player (invincibility (cameraUpdate m)))
                 = p_shootCooldown (player m)).
    { rewrite <- P. unfold invincibility.
      destruct (p_invincibleTimer (player (cameraUpdate m)) >? 0)%Z;
        reflexivity. }
    rewrite B, B', Pc. subst m. unfold beforeCamera.
    set (w0 := pitfallDeath (collisionDetection (playerPhysics inputs
                 (w_set_tick (tick w + 1) w)))).
    assert (C0 : p_shootCooldown (player w0) = p_shootCooldown (player w)).
    { subst w0. unfold pitfallDeath.
      set (w1 := collisionDetection _).
      assert (C1 : p_shootCooldown (player w1) = p_shootCooldown (player w)).
      { subst w1. unfold collisionDetection.
        cbn [player w_set_player].
        destruct (checkPlatforms_frame
                    (platforms (playerPhysics inputs (w_set_tick (tick w + 1) w)))
                    (p_set_isGrounded false
                       (player (playerPhysics inputs (w_set_tick (tick w + 1) w)))))
          as (_ & _ & _ & _ & _ & _ & _ & _ & S & _).
        rewrite S.
        apply (physics_frame inputs (w_set_tick (tick w + 1) w)). }
      match goal with |- context [if ?c then _ else _] => destruct c end;
        [|exact C1].
      rewrite <- C1.
      destruct (handlePlayerDeath_cases w1)
        as [[_ E]|[(_ & _ & E & _)|(_ & _ & E & _)]]; rewrite E; reflexivity. }
    assert (B0 : bullets w0 = bullets w).
    { subst w0. unfold pitfallDeath.
      match goal with |- context [if ?c then _ else _] => destruct c end;
        autorewrite with frame; reflexivity. }
    change (bullets (particlesUpdate (enemiesUpdate (bulletsUpdate (shooting inputs w0)))))
      with (bullets (enemiesUpdate (bulletsUpdate (shooting inputs w0)))).
    change (player (particlesUpdate (enemiesUpdate (bulletsUpdate (shooting inputs w0)))))
      with (player (enemiesUpdate (bulletsUpdate (shooting inputs w0)))).
    rewrite loops_keep_cooldown.
    assert (S : bullets (shooting inputs w0) = bullets w0 /\
                p_shootCooldown (player (shooting inputs w0))
                  = p_shootCooldown (player w0) - 1).
    { unfold shooting, tickCooldown.
      assert (T : Qgtb (p_shootCooldown (player w0)) 0 = true)
        by (apply Qgtb_gt; rewrite C0; lra).
      rewrite T. cbn [player w_set_player p_shootCooldown p_set_shootCooldown].
      assert (N : Qleb (p_shootCooldown (player w0) - 1) 0 = false)
        by (apply Qleb_gt; rewrite C0; lra).
      rewrite N, andb_false_r. split; reflexivity. }
    destruct S as [S1 S2]. rewrite S2, C0. split; [|lra].
    unfold enemiesUpdate.
    pose proof (enemiesLoop_shots (enemies (bulletsUpdate (shooting inputs w0)))
                  (bulletsUpdate (shooting inputs w0))) as E.
    destruct (enemiesLoop _ (bulletsUpdate (shooting inputs w0))) as [es w5].
    simpl in E. cbn [bullets w_set_enemies]. rewrite E.
    unfold bulletsUpdate.
    pose proof (bulletsLoop_shots (bullets (shooting inputs w0))
                  (shooting inputs w0)) as L.
    destruct (bulletsLoop _ (shooting inputs w0)) as [bs w4].
    simpl in *. rewrite S1, B0 in L. exact L.
  - rewrite update_not_playing.
    + split; [lia | lra].
    + intro E. apply GameState_eqb_eq in E. congruence.
Qed.

(** X24.  The shoot cooldown caps the rate of fire: while fewer frames
    have passed than the cooldown still counts, the number of player
    bullets in the array cannot grow, whether shoot is held or not.  Right
    after a shot the cooldown is SHOOT_COOLDOWN. *)
Theorem cooldown_blocks_new_shots (frames : list InputState) (w : World) :
  inject_Z (Z.of_nat (List.length frames)) < p_shootCooldown (player w) ->
  (playerShots (bullets (fold_left (fun w inputs => update inputs w) frames w))
   <= playerShots (bullets w))%nat.
Proof.
  revert w. induction frames as [|inputs frames IH]; intros w L; [simpl; lia|].
  cbn [fold_left]. cbn [List.length] in L.
  rewrite Nat2Z.inj_succ in L. unfold Z.succ in L.
  rewrite inject_Z_plus in L. change (inject_Z 1) with 1 in L.
  assert (N : 0 <= inject_Z (Z.of_nat (List.length frames))).
  { change 0 with (inject_Z 0). rewrite <- Zle_Qle. lia. }
  assert (C : 1 < p_shootCooldown (player w)) by lra.
  destruct (update_cooling inputs w C) as [S D].
  specialize (IH (update inputs w)).
  assert (L' : inject_Z (Z.of_nat (List.length frames))
               < p_shootCooldown (player (update inputs w))) by lra.
  specialize (IH L'). lia.
Qed.

(** *** The life of particles *)

Lemma createParticles_particles px py c w :
  exists ps,
    particles (createParticles px py c w) = particles w ++ ps /\
    Forall (fun pt => pt_life pt = 30%Z) ps.
Proof.
  unfold createParticles.
  destruct (createParticlesLoop_particles 8 px py c w) as (ps & E & _ & F & _).
  exists ps. split; [exact E|].
  eapply Forall_impl; [|exact F]. cbv beta. tauto.
Qed.

Lemma handlePlayerDeath_particles w :
  exists ps,
    particles (handlePlayerDeath w) = particles w ++ ps /\
    Forall (fun pt => pt_life pt = 30%Z) ps.
Proof.
  unfold handlePlayerDeath.
  destruct (p_invincibleTimer (player w) >? 0)%Z.
  - exists []. rewrite app_nil_r. auto.
  - cbv zeta.
    match goal with
    | |- context [createParticles ?a ?b ?c ?v] =>
        destruct (createParticles_particles a b c v) as (ps & E & F);
        revert E; generalize (createParticles a b c v); intros w3 E
    end.
    exists ps. split; [|exact F].
    destruct (p_hp (player w3) <=? 0)%Z; exact E.
Qed.

Lemma damageEnemy_particles e w :
  exists ps,
    particles (snd (damageEnemy e w)) = particles w ++ ps /\
    Forall (fun pt => pt_life pt = 30%Z) ps.
Proof.
  unfold damageEnemy. cbv zeta.
  match goal with
  | |- context [createParticles ?a ?b ?c ?v] =>
      destruct (createParticles_particles a b c v) as (ps & E & F);
      revert E; generalize (createParticles a b c v); intros w1 E
  end.
  exists ps. split; [|exact F].
  destruct (e_hp (e_set_hp (e_hp e - 1) e) <=? 0)%Z; [|exact E].
  destruct (isBoss (e_type (e_set_isDead true (e_set_hp (e_hp e - 1) e))));
    exact E.
Qed.

Lemma combat_particles inputs w :
  Forall (fun pt => (pt_life pt <= 30)%Z) (particles w) ->
  Forall (fun pt => (pt_life pt <= 30)%Z)
    (particles (enemiesUpdate (bulletsUpdate (shooting inputs
       (pitfallDeath (collisionDetection w)))))).
Proof.
  apply (beforeParticles_rel
           (fun w w' => Forall (fun pt => (pt_life pt <= 30)%Z) (particles w) ->
                        Forall (fun pt => (pt_life pt <= 30)%Z) (particles w')));
    clear inputs w; auto.
  - intros w H. destruct (handlePlayerDeath_particles w) as (ps & E & F).
    rewrite E. apply Forall_app. split; [exact H|].
    eapply Forall_impl; [|exact F]. simpl. intros; lia.
  - intros e w _ H. destruct (damageEnemy_particles e w) as (ps & E & F).
    rewrite E. apply Forall_app. split; [exact H|].
    eapply Forall_impl; [|exact F]. simpl. intros; lia.
  - intros inputs w. destruct (shooting_frame inputs w) as (_ & _ & _ & _ & P & _).
    rewrite P. auto.
Qed.

Lemma particlesLoop_bound n ps :
  Forall (fun pt => (pt_life pt <= n)%Z) ps ->
  Forall (fun pt => (0 < pt_life pt <= n - 1)%Z) (particlesLoop ps).
Proof.
  induction 1 as [|pt ps H _ IH]; simpl; [constructor|].
  unfold stepParticle. simpl.
  destruct (pt_life pt - 1 <=? 0)%Z eqn:D; [exact IH|].
  reflect_tests. constructor; [simpl; lia | exact IH].
Qed.

(** X25.  Particles do not pile up: each one is dropped from the array
    within 30 steps of its burst.  A step taken while PLAYING on particles
    of life at most 30 leaves only particles of life 1 to 29, and
    throughout a play session every particle in the array has a life
    between 1 and 29. *)
Theorem particles_live_at_most_thirty_steps
    (frames : list InputState) (w0 : World) :
  (forall inputs w,
     gameState w = PLAYING ->
     Forall (fun pt => (pt_life pt <= 30)%Z) (particles w) ->
     Forall (fun pt => (0 < pt_life pt <= 29)%Z) (particles (update inputs w))) /\
  Forall (fun pt => (0 < pt_life pt <= 29)%Z) (particles (session frames w0)).
Proof.
  assert (S : forall inputs w,
             gameState w = PLAYING ->
             Forall (fun pt => (pt_life pt <= 30)%Z) (particles w) ->
             Forall (fun pt => (0 < pt_life pt <= 29)%Z)
               (particles (update inputs w))).
  { intros inputs w G H. rewrite (update_playing inputs w G).
    assert (E : particles (invincibility (cameraUpdate (beforeCamera inputs w)))
                = particles (beforeCamera inputs w)).
    { unfold invincibility, cameraUpdate.
      repeat match goal with
             | |- context [if ?c then _ else _] => destruct c
             end; reflexivity. }
    rewrite E. unfold beforeCamera.
    apply (particlesLoop_bound 30).
    apply combat_particles. exact H. }
  split; [exact S|].
  apply (session_invariant
           (fun w => Forall (fun pt => (0 < pt_life pt <= 29)%Z) (particles w))).
  - intro w. constructor.
  - intros inputs w H.
    destruct (GameState_eqb (gameState w) PLAYING) eqn:G.
    + apply GameState_eqb_eq in G. apply S; [exact G|].
      eapply Forall_impl; [|exact H]. simpl. intros; lia.
    + rewrite update_not_playing; [exact H|].
      intro E. apply GameState_eqb_eq in E. congruence.
Qed.

(** *** The direction of a shot *)

(** X26.  The player shoots in eight directions: the velocity of its
    bullet is straight up or down, horizontal to the side it faces, or one
    of the four diagonals at 0.7 of BULLET_SPEED on both axes.  A grounded
    player never shoots downward: its bullet has vy <= 0 when
    BULLET_SPEED >= 0. *)
Theorem player_shoots_in_eight_directions (inputs : InputState) (p : Player) :
  let b := playerBullet inputs p in
  let s := K_BULLET_SPEED K in
  let d := dirQ (p_direction p) in
  (d = 1 \/ d = -1) /\
  ((b_vx b = 0 /\ b_vy b = - s) \/
   (b_vx b = 0 /\ b_vy b = s) \/
   (b_vx b = d * s /\ b_vy b = 0) \/
   (b_vx b = d * s * (7#10) /\ b_vy b = - s * (7#10)) \/
   (b_vx b = d * s * (7#10) /\ b_vy b = s * (7#10))) /\
  (p_isGrounded p = true -> 0 <= s -> b_vy b <= 0).
Proof.
  cbv zeta. unfold playerBullet.
  destruct (shootDirection inputs p) as [bx by'] eqn:D. simpl.
  unfold shootDirection in D.
  split; [destruct (p_direction p); auto|].
  destruct (p_facingVertical p =? 1)%Z;
    [|destruct (p_facingVertical p =? -1)%Z; simpl in D];
    destruct (left inputs || right inputs); simpl in D;
    destruct (p_isGrounded p) eqn:G; simpl in D;
    inversion D; subst;
    (split; [tauto | intros; try discriminate; try lra]).
Qed.

(** *** Induction on what a step does to each enemy *)

Section EnemyInduction.

Variable Q : Enemy -> Enemy -> Prop.
Hypothesis Q_refl : forall e, Q e e.
Hypothesis Q_trans : forall e1 e2 e3, Q e1 e2 -> Q e2 e3 -> Q e1 e3.
Hypothesis Q_damage :
  forall e w, e_isDead e = false -> Q e (fst (damageEnemy e w)).
Hypothesis Q_step :
  forall e w, e_isDead e = false -> Q e (fst (enemyAI w e)).

Lemma Forall2_Q_refl es : Forall2 Q es es.
Proof. induction es; constructor; auto. Qed.

Lemma Forall2_Q_trans es1 es2 es3 :
  Forall2 Q es1 es2 -> Forall2 Q es2 es3 -> Forall2 Q es1 es3.
Proof.
  intro H. revert es3. induction H; intros es3 H2; inversion H2; subst;
    constructor; eauto.
Qed.

Lemma bulletVsEnemies_each b es w :
  Forall2 Q es (fst (fst (bulletVsEnemies b es w))).
Proof.
  induction es as [|e es IH]; simpl; [constructor|].
  destruct (bulletHits b e) eqn:H.
  - pose proof (Q_damage e w (bulletHits_alive _ _ H)) as D.
    destruct (damageEnemy e w) as [e' w']. simpl in *.
    constructor; [exact D | apply Forall2_Q_refl].
  - destruct (bulletVsEnemies b es w) as [[es' w'] hit]. simpl in *.
    constructor; [apply Q_refl | exact IH].
Qed.

Lemma bulletsUpdate_each w :
  Forall2 Q (enemies w) (enemies (bulletsUpdate w)).
Proof.
  unfold bulletsUpdate.
  assert (H : forall bs, Forall2 Q (enemies w)
                           (enemies (snd (bulletsLoop bs w)))).
  { induction bs as [|b bs IH]; simpl; [apply Forall2_Q_refl|].
    destruct (bulletsLoop bs w) as [rest' w1]. simpl in IH.
    eapply Forall2_Q_trans; [exact IH|].
    unfold stepBullet.
    destruct (bulletGone (camera w1) (moveBullet b)); [apply Forall2_Q_refl|].
    destruct (b_owner (moveBullet b)).
    - pose proof (bulletVsEnemies_each (moveBullet b) (enemies w1) w1) as V.
      destruct (bulletVsEnemies (moveBullet b) (enemies w1) w1)
        as [[es w2] hit]. exact V.
    - match goal with |- context [if ?c then _ else _] => destruct c end;
        simpl; autorewrite with frame; apply Forall2_Q_refl. }
  specialize (H (bullets w)).
  destruct (bulletsLoop (bullets w) w) as [bs w1]. exact H.
Qed.

Lemma enemiesLoop_each es w : Forall2 Q es (fst (enemiesLoop es w)).
Proof.
  revert w. induction es as [|e es IH]; intro w; simpl; [constructor|].
  pose proof (stepEnemy_fst e w) as F.
  destruct (stepEnemy e w) as [e' w1]. simpl in F.
  specialize (IH w1). destruct (enemiesLoop es w1) as [rest' w2].
  simpl in *. constructor; [|exact IH].
  rewrite F. destruct (e_isDead e) eqn:D; [apply Q_refl | apply Q_step, D].
Qed.

Lemma update_each inputs w :
  Forall2 Q (enemies w) (enemies (update inputs w)).
Proof.
  destruct (GameState_eqb (gameState w) PLAYING) eqn:G.
  - apply GameState_eqb_eq in G. rewrite (update_playing inputs w G).
    destruct (invincibility_frame (cameraUpdate (beforeCamera inputs w)))
      as (_ & _ & N & _).
    destruct (cameraUpdate_frame (beforeCamera inputs w)) as (_ & _ & N' & _).
    rewrite N, N'. unfold beforeCamera.
    set (w3 := shooting inputs _).
    change (enemies (particlesUpdate (enemiesUpdate (bulletsUpdate w3))))
      with (enemies (enemiesUpdate (bulletsUpdate w3))).
    assert (E3 : enemies w3 = enemies w).
    { subst w3. destruct (shooting_frame inputs
        (pitfallDeath (collisionDetection (playerPhysics inputs
           (w_set_tick (tick w + 1) w))))) as (_ & _ & _ & N3 & _).
      rewrite N3. unfold pitfallDeath.
      match goal with |- context [if ?c then _ else _] => destruct c end;
        autorewrite with frame; reflexivity. }
    rewrite <- E3.
    eapply Forall2_Q_trans; [apply bulletsUpdate_each|].
    unfold enemiesUpdate.
    pose proof (enemiesLoop_each (enemies (bulletsUpdate w3)) (bulletsUpdate w3))
      as H.
    destruct (enemiesLoop (enemies (bulletsUpdate w3)) (bulletsUpdate w3))
      as [es w4]. exact H.
  - rewrite update_not_playing; [apply Forall2_Q_refl|].
    intro E. apply GameState_eqb_eq in E. congruence.
Qed.

End EnemyInduction.

(** *** Enemy hp and the dead flag *)

Lemma spawnEnemy_hpAgrees n ex ty ey : hpAgrees (spawnEnemy n ex ty ey).
Proof.
  left. unfold spawnEnemy, startHp. cbn [e_isDead e_hp e_type].
  split; [reflexivity|]. destruct (isBoss ty); lia.
Qed.

Lemma update_keeps_hpAgrees inputs w :
  Forall hpAgrees (enemies w) -> Forall hpAgrees (enemies (update inputs w)).
Proof.
  intro H.
  pose proof (update_each (fun e e' => hpAgrees e -> hpAgrees e')) as U.
  assert (F : Forall2 (fun e e' => hpAgrees e -> hpAgrees e')
                (enemies w) (enemies (update inputs w))).
  { apply U; clear.
    - auto.
    - auto.
    - intros e w A. unfold hpAgrees.
      destruct (damageEnemy_cases e w) as [(L & F & _)|(L & F & _)];
        rewrite F; simpl; intros [[_ B]|[D _]]; try congruence.
      + left. split; [exact A | lia].
      + right. split; [reflexivity | lia].
    - intros e w A. unfold hpAgrees.
      destruct (enemyAI_kind w e) as (T & D & Hp). rewrite T, D, Hp. auto. }
  clear U. induction F as [|e e' es es' He _ IH]; [constructor|].
  inversion H; subst. constructor; auto.
Qed.

(** X27.  An enemy's hp and its dead flag never disagree: throughout a
    play session every enemy is either alive with hp between 1 and the hp
    its type starts with (50 for the boss, 1 for a runner or a turret), or
    dead with hp exactly 0; a step keeps that for any enemy array that has
    it. *)
Theorem enemy_hp_agrees_with_dead_flag
    (frames : list InputState) (w0 : World) :
  (forall inputs w,
     Forall hpAgrees (enemies w) ->
     Forall hpAgrees (enemies (update inputs w))) /\
  Forall hpAgrees (enemies (session frames w0)).
Proof.
  split; [intros; apply update_keeps_hpAgrees; assumption|].
  apply (session_invariant (fun w => Forall hpAgrees (enemies w))).
  - intro w. cbn [handleStart initLevel setGameState setLives setScore enemies].
    unfold levelEnemies.
    repeat (apply Forall_cons; [apply spawnEnemy_hpAgrees|]).
    apply Forall_nil.
  - intros inputs w. apply update_keeps_hpAgrees.
Qed.

(** *** The enemies' rate of fire *)

Lemma enemyShots_cons b bs :
  enemyShots (b :: bs)
    = ((match b_owner b with OwnerPlayer => 0 | OwnerEnemy => 1 end)
       + enemyShots bs)%nat.
Proof. unfold enemyShots. simpl. destruct (b_owner b); reflexivity. Qed.

Lemma enemyShots_app bs cs :
  enemyShots (bs ++ cs) = (enemyShots bs + enemyShots cs)%nat.
Proof. unfold enemyShots. rewrite filter_app, length_app. reflexivity. Qed.

Lemma bulletsLoop_enemyShots bs w :
  (enemyShots (fst (bulletsLoop bs w)) <= enemyShots bs)%nat.
Proof.
  induction bs as [|b bs IH]; simpl; [lia|].
  destruct (bulletsLoop bs w) as [rest' w1]. simpl in IH.
  pose proof (stepBullet_survivor b w1) as S.
  destruct (stepBullet b w1) as [[b'|] w2]; simpl in *.
  - assert (O : b_owner b' = b_owner b).
    { destruct S as [_ [E|E]]; subst b'; reflexivity. }
    rewrite !enemyShots_cons, O. lia.
  - rewrite enemyShots_cons. lia.
Qed.

Lemma shooting_enemyShots inputs w :
  enemyShots (bullets (shooting inputs w)) = enemyShots (bullets w).
Proof.
  unfold shooting.
  match goal with |- context [if ?c then _ else _] => destruct c end;
    cbn [bullets w_set_player w_set_bullets]; [|reflexivity].
  rewrite enemyShots_app. unfold playerBullet.
  destruct (shootDirection inputs (player (w_set_player (tickCooldown (player w)) w))).
  cbn. lia.
Qed.

(** An enemy that holds its fire pushes no bullet, and its cooldown goes
    down by at most 1. *)
Lemma enemyAI_holdsFire w e :
  holdsFire 1 e ->
  snd (enemyAI w e) = [] /\
  e_type (fst (enemyAI w e)) = e_type e /\
  (e_shootCooldown e - 1 <= e_shootCooldown (fst (enemyAI w e)))%Z.
Proof.
  intro H. unfold enemyAI. cbv zeta.
  destruct (Qltb (Math_abs (p_x (player w) - e_x e)) 600);
    [|simpl; repeat apply conj; auto; lia].
  destruct (e_type e) eqn:T; cbn [isRunner].
  - assert (T' : e_type (runnerMove (platforms w) (p_x (player w) - e_x e) e)
                 = runner).
    { destruct (runnerMove_kind (platforms w) (p_x (player w) - e_x e) e)
        as (Ty & _). congruence. }
    rewrite T'. cbn [isTurret isBoss orb fst snd].
    destruct (runnerMove_kind (platforms w) (p_x (player w) - e_x e) e)
      as (_ & _ & _).
    assert (C : e_shootCooldown (runnerMove (platforms w)
                                   (p_x (player w) - e_x e) e)
                = e_shootCooldown e).
    { unfold runnerMove. cbv zeta.
      assert (F : forall plats x, e_shootCooldown (floorClamp plats x)
                                  = e_shootCooldown x).
      { unfold floorClamp. induction plats as [|pl plats IH]; intro x; simpl;
          [reflexivity|].
        destruct (overlapsPlatformE x pl); rewrite IH; reflexivity. }
      rewrite F. destruct (Qgtb (Math_abs (p_x (player w) - e_x e)) 10);
        reflexivity. }
    rewrite C. repeat apply conj; auto. lia.
  - destruct H as [H|H]; [congruence|].
    rewrite T. cbn [isTurret isBoss orb]. unfold enemyShoot. cbv zeta.
    cbn [e_shootCooldown e_set_shootCooldown].
    assert (N : (e_shootCooldown e - 1 <=? 0)%Z = false)
      by (apply Z.leb_gt; lia).
    rewrite N. simpl. rewrite T. repeat apply conj; auto. lia.
  - destruct H as [H|H]; [congruence|].
    rewrite T. cbn [isTurret isBoss orb]. unfold enemyShoot. cbv zeta.
    cbn [e_shootCooldown e_set_shootCooldown].
    assert (N : (e_shootCooldown e - 1 <=? 0)%Z = false)
      by (apply Z.leb_gt; lia).
    rewrite N. simpl. rewrite T. repeat apply conj; auto. lia.
Qed.

Lemma enemiesLoop_holdsFire es w :
  Forall (holdsFire 1) es ->
  bullets (snd (enemiesLoop es w)) = bullets w /\
  Forall2 (fun e e' => e_type e' = e_type e /\
                       (e_shootCooldown e - 1 <= e_shootCooldown e')%Z)
    es (fst (enemiesLoop es w)).
Proof.
  intro H. revert w. induction H as [|e es He _ IH]; intro w; simpl;
    [split; [reflexivity | constructor]|].
  pose proof (stepEnemy_bullets e w) as B.
  pose proof (stepEnemy_fst e w) as F.
  destruct (enemyAI_holdsFire w e He) as (P & T & C).
  destruct (stepEnemy e w) as [e' w1]. simpl in *.
  destruct (IH w1) as [B1 F1].
  destruct (enemiesLoop es w1) as [rest' w2]. simpl in *.
  split.
  - rewrite B1, B. destruct (e_isDead e); [reflexivity|].
    rewrite P. apply app_nil_r.
  - constructor; [|exact F1]. rewrite F.
    destruct (e_isDead e); [split; [reflexivity | lia] | auto].
Qed.

Lemma update_holdsFire inputs w :
  Forall (holdsFire 1) (enemies w) ->
  (enemyShots (bullets (update inputs w)) <= enemyShots (bullets w))%nat /\
  Forall2 (fun e e' => e_type e' = e_type e /\
                       (e_shootCooldown e - 1 <= e_shootCooldown e')%Z)
    (enemies w) (enemies (update inputs w)).
Proof.
  intro H. destruct (GameState_eqb (gameState w) PLAYING) eqn:G.
  - apply GameState_eqb_eq in G. rewrite (update_playing inputs w G).
    destruct (invincibility_frame (cameraUpdate (beforeCamera inputs w)))
      as (_ & B & N & _).
    destruct (cameraUpdate_frame (beforeCamera inputs w)) as (_ & B' & N' & _).
    rewrite B, B', N, N'. unfold beforeCamera.
    set (w0 := pitfallDeath (collisionDetection (playerPhysics inputs
                 (w_set_tick (tick w + 1) w)))).
    assert (E0 : enemies w0 = enemies w /\ bullets w0 = bullets w).
    { subst w0. unfold pitfallDeath.
      match goal with |- context [if ?c then _ else _] => destruct c end;
        autorewrite with frame; split; reflexivity. }
    destruct E0 as [E0 B0].
    set (w3 := shooting inputs w0).
    assert (E3 : enemies w3 = enemies w).
    { subst w3. destruct (shooting_frame inputs w0) as (_ & _ & _ & N3 & _).
      congruence. }
    assert (S3 : enemyShots (bullets w3) = enemyShots (bullets w)).
    { subst w3. rewrite shooting_enemyShots, B0. reflexivity. }
    change (bullets (particlesUpdate (enemiesUpdate (bulletsUpdate w3))))
      with (bullets (enemiesUpdate (bulletsUpdate w3))).
    change (enemies (particlesUpdate (enemiesUpdate (bulletsUpdate w3))))
      with (enemies (enemiesUpdate (bulletsUpdate w3))).
    assert (K4 : Forall2 (fun e e' => e_type e' = e_type e /\
                            e_shootCooldown e' = e_shootCooldown e)
                   (enemies w) (enemies (bulletsUpdate w3))).
    { rewrite <- E3.
      apply (bulletsUpdate_each
               (fun e e' => e_type e' = e_type e /\
                            e_shootCooldown e' = e_shootCooldown e)).
      - auto.
      - intros e1 e2 e3 [T1 C1] [T2 C2]. split; congruence.
      - intros e w' _.
        destruct (damageEnemy_cases e w') as [(_ & F & _)|(_ & F & _)];
          rewrite F; auto. }
    assert (H4 : Forall (holdsFire 1) (enemies (bulletsUpdate w3))).
    { clear - H K4. induction K4 as [|e e' es es' [T C] _ IH]; [constructor|].
      inversion H; subst. constructor; [|auto].
      unfold holdsFire in *. rewrite T, C. assumption. }
    assert (S4 : (enemyShots (bullets (bulletsUpdate w3))
                  <= enemyShots (bullets w))%nat).
    { rewrite <- S3. unfold bulletsUpdate.
      pose proof (bulletsLoop_enemyShots (bullets w3) w3) as L.
      destruct (bulletsLoop (bullets w3) w3) as [bs w4]. exact L. }
    unfold enemiesUpdate.
    destruct (enemiesLoop_holdsFire (enemies (bulletsUpdate w3))
                (bulletsUpdate w3) H4) as [B5 F5].
    destruct (enemiesLoop (enemies (bulletsUpdate w3)) (bulletsUpdate w3))
      as [es w5]. simpl in *. rewrite B5. split; [exact S4|].
    clear - K4 F5. revert es F5.
    induction K4 as [|e e' l l' [T C] _ IH]; intros es F5;
      inversion F5; subst; constructor.
    + destruct H1 as [T1 C1]. split; [congruence | lia].
    + apply IH. assumption.
  - rewrite update_not_playing.
    + split; [lia|]. clear. induction (enemies w); constructor; auto.
      split; [reflexivity | lia].
    + intro E. apply GameState_eqb_eq in E. congruence.
Qed.

(** X28.  Enemy fire is rate-limited by the enemies' cooldowns: while
    every turret and boss still has more cooldown than frames go by, the
    number of enemy bullets in the array cannot grow.  A turret or boss
    that has just fired has cooldown 120. *)
Theorem enemy_cooldown_blocks_new_shots
    (frames : list InputState) (w : World) :
  Forall (holdsFire (Z.of_nat (List.length frames))) (enemies w) ->
  (enemyShots (bullets (fold_left (fun w inputs => update inputs w) frames w))
   <= enemyShots (bullets w))%nat.
Proof.
  revert w. induction frames as [|inputs frames IH]; intros w H; [simpl; lia|].
  cbn [fold_left]. cbn [List.length] in H. rewrite Nat2Z.inj_succ in H.
  assert (H1 : Forall (holdsFire 1) (enemies w)).
  { eapply Forall_impl; [|exact H]. unfold holdsFire. intros e [T|C]; [auto|].
    right. lia. }
  destruct (update_holdsFire inputs w H1) as [S F].
  assert (H' : Forall (holdsFire (Z.of_nat (List.length frames)))
                 (enemies (update inputs w))).
  { clear - H F. induction F as [|e e' es es' [T C] _ IHF]; [constructor|].
    inversion H; subst. constructor; [|auto].
    unfold holdsFire in *. rewrite T.
    match goal with X : _ \/ _ |- _ => destruct X as [X|X] end; [auto|].
    right. lia. }
  specialize (IH (update inputs w) H'). lia.
Qed.

End GameCanvas.

(** ** The scenarios, run *)

(** C3, counterexample.  The player has hp 1 and is not invincible; two
    enemy bullets overlap it.  The bullet processed first takes hp to 0 and
    requests GAME_OVER; the other one is still processed in the same step
    and takes hp to -1, with a second GAME_OVER request. *)
Lemma damage_continues_after_game_over :
  hpOf twoBulletsOnLastLife = 1%Z /\
  hpOf (update arcade noInput twoBulletsOnLastLife) = (-1)%Z /\
  events (update arcade noInput twoBulletsOnLastLife)
    = [SetGameState GAME_OVER; SetLives (-1);
       SetGameState GAME_OVER; SetLives 0].
Proof. vm_compute. repeat split. Qed.

(** C2, counterexample.  The player's bullet kills the boss (VICTORY is
    requested, the score grows by 1000) and then, in the same step, an
    enemy bullet takes the player's last life: the step ends in GAME_OVER,
    not in VICTORY. *)
Lemma boss_kill_step_can_end_in_game_over :
  map e_isDead (enemies bossAndPlayerFall) = [false] /\
  map e_isDead (enemies (update arcade noInput bossAndPlayerFall)) = [true] /\
  scoreOf (update arcade noInput bossAndPlayerFall)
    = (scoreOf bossAndPlayerFall + 1000)%Z /\
  events (update arcade noInput bossAndPlayerFall)
    = [SetGameState GAME_OVER; SetLives 0;
       SetGameState VICTORY; SetScore 1000] /\
  gameState (update arcade noInput bossAndPlayerFall) = GAME_OVER.
Proof. vm_compute. repeat split. Qed.

(** C5, counterexample.  A player bullet hits a runner: at the end of the
    step the bullet is still in the array, with life 0. *)
Lemma spent_bullet_survives_the_step :
  map b_life (bullets shotOnRunner) = [50%Z] /\
  map e_isDead (enemies (update arcade noInput shotOnRunner)) = [true] /\
  map b_life (bullets (update arcade noInput shotOnRunner)) = [0%Z].
Proof. vm_compute. repeat split. Qed.

(** C1, witness.  The falling player of [sinkingIn] overlaps the ground
    slab, with vy = 5 and its previous bottom edge at 558 <= 560: it is put
    on the slab. *)
Lemma landing_rests_on_platform_witness :
  p_y (player (collisionDetection sinkingIn))
    + p_height (player (collisionDetection sinkingIn)) == plat_y groundSlab /\
  p_vy (player (collisionDetection sinkingIn)) == 0 /\
  p_isGrounded (player (collisionDetection sinkingIn)) = true.
Proof.
  apply (proj1 (landing_rests_on_platform sinkingIn [] [] groundSlab eq_refl)).
  - vm_compute. reflexivity.
  - vm_compute. reflexivity.
  - vm_compute. discriminate.
Defined.

(** C6, witness: the sixty-first frame of a session on the arcade
    constants, whose level (4000) is longer than the viewport (800), with
    right held throughout: the player has passed the camera offset and
    the camera moves with it. *)
Lemma camera_monotone_and_bounded_witness :
  let s := session arcade (repeat holdRight 60) sinkingIn in
  let s' := update arcade holdRight s in
  (0 <= camera s /\
   camera s <= K_LEVEL_LENGTH arcade - K_CANVAS_WIDTH arcade) /\
  camera s <= camera s' /\
  (0 <= camera s' /\
   camera s' <= K_LEVEL_LENGTH arcade - K_CANVAS_WIDTH arcade) /\
  camera s' = p_x (player s') - K_CAMERA_OFFSET_X arcade /\
  camera s < camera s'.
Proof.
  cbv zeta.
  assert (L : K_CANVAS_WIDTH arcade <= K_LEVEL_LENGTH arcade)
    by (vm_compute; discriminate).
  destruct (camera_monotone_and_bounded arcade (repeat holdRight 60)
              sinkingIn holdRight L) as (B & M & B' & _ & F & _).
  assert (G : gameState (session arcade (repeat holdRight 60) sinkingIn)
              = PLAYING) by (vm_compute; reflexivity).
  assert (A : camera (session arcade (repeat holdRight 60) sinkingIn)
                + K_CAMERA_OFFSET_X arcade
              < p_x (player (update arcade holdRight
                       (session arcade (repeat holdRight 60) sinkingIn))))
    by (vm_compute; reflexivity).
  destruct (F G A) as (F1 & _ & F3).
  split; [exact B|]. split; [exact M|]. split; [exact B'|]. split.
  - apply F1. vm_compute. discriminate.
  - apply F3. vm_compute. reflexivity.
Defined.

(** C5, witness: the step of [shotOnRunner], where the game is on and
    the player's bullet hits the runner: it ends the step in the array,
    with life 0. *)
Lemma bullets_swept_or_spent_witness :
  In (b_set_life 0 (moveBullet (shotAt 310)))
    (bullets (update arcade noInput shotOnRunner)) /\
  Forall (fun b => (0 <= b_life b)%Z)
    (bullets (update arcade noInput shotOnRunner)).
Proof.
  destruct (bullets_swept_or_spent arcade noInput shotOnRunner eq_refl)
    as (_ & _ & _ & F & _ & _ & S).
  split; [|exact F].
  apply (S [] (shotAt 310) []).
  - vm_compute. reflexivity.
  - vm_compute. reflexivity.
  - vm_compute. reflexivity.
Defined.

(** C2, witness: the last hit on the boss of [bossAndPlayerFall]. *)
Lemma score_pays_per_kill_witness :
  e_isDead (fst (damageEnemy arcade lastBoss bossAndPlayerFall)) = true /\
  scoreOf (snd (damageEnemy arcade lastBoss bossAndPlayerFall))
    = (scoreOf bossAndPlayerFall + 1000)%Z /\
  gameState (snd (damageEnemy arcade lastBoss bossAndPlayerFall)) = VICTORY /\
  events (snd (damageEnemy arcade lastBoss bossAndPlayerFall))
    = SetGameState VICTORY :: SetScore (scoreOf bossAndPlayerFall + 1000)
      :: events bossAndPlayerFall.
Proof.
  apply (proj1 (proj2
           (proj1 (proj2 (proj2 (score_pays_per_kill arcade bossAndPlayerFall)))
              lastBoss eq_refl))).
  - simpl. lia.
  - reflexivity.
Defined.

(** C3, witness: an accepted death at hp 1. *)
Lemma death_at_last_life_requests_game_over_witness :
  gameState (handlePlayerDeath arcade twoBulletsOnLastLife) = GAME_OVER /\
  events (handlePlayerDeath arcade twoBulletsOnLastLife)
    = SetGameState GAME_OVER :: SetLives (hpOf twoBulletsOnLastLife - 1)
      :: events twoBulletsOnLastLife /\
  player (handlePlayerDeath arcade twoBulletsOnLastLife)
    = p_set_hp (hpOf twoBulletsOnLastLife - 1) (player twoBulletsOnLastLife) /\
  hpOf (handlePlayerDeath arcade (handlePlayerDeath arcade twoBulletsOnLastLife))
    = (hpOf twoBulletsOnLastLife - 2)%Z.
Proof.
  apply (proj1 (death_at_last_life_requests_game_over arcade twoBulletsOnLastLife)).
  - unfold timerOf. simpl. lia.
  - unfold hpOf. simpl. lia.
Defined.

(** C4, witness: an accepted death at hp 3. *)
Lemma damage_takes_exactly_one_life_witness :
  hpOf (handlePlayerDeath arcade shotOnRunner) = (hpOf shotOnRunner - 1)%Z.
Proof.
  apply (proj1 (damage_takes_exactly_one_life arcade shotOnRunner)).
  unfold timerOf. simpl. lia.
Defined.

(** C7, witness: shoot held with the cooldown at 0, aiming straight up. *)
Lemma player_shot_fires_on_cooldown_witness :
  exists b,
    bullets (shooting arcade holdShootUp aimingUp) = bullets aimingUp ++ [b] /\
    b_owner b = OwnerPlayer /\ b_life b = 100%Z /\
    b_vx b = 0 /\ b_vy b = - K_BULLET_SPEED arcade.
Proof.
  destruct (proj1 (proj2 (proj2
              (player_shot_fires_on_cooldown arcade holdShootUp aimingUp))))
    as (b & B & O & L & _ & _ & _ & U).
  - split; [reflexivity|]. vm_compute. discriminate.
  - exists b. destruct (U eq_refl eq_refl eq_refl) as [VX VY].
    repeat apply conj; assumption.
Defined.


(** X2, witness: two boxes side by side that share an edge. *)
Lemma checkCollision_touching_witness :
  checkCollision leftBox rightBox = false /\
  checkCollision rightBox leftBox = false.
Proof.
  apply (checkCollision_touching leftBox rightBox).
  left. vm_compute. reflexivity.
Defined.

(** X4, witness: KeyA and ArrowLeft both drive the left flag. *)
Lemma releasing_either_key_clears_the_control_witness :
  held CLeft (handleKeyUp "ArrowLeft" (handleKeyDown "KeyA" noInput)) = false /\
  held CLeft (handleKeyUp "KeyA"
                (handleKeyDown "ArrowLeft" (handleKeyDown "KeyA" noInput)))
    = false.
Proof.
  apply (releasing_either_key_clears_the_control "KeyA" "ArrowLeft" CLeft
           noInput eq_refl eq_refl).
Defined.

(** X7, witness: the player of [aimingUp] is in the air. *)
Lemma no_jump_in_the_air_witness :
  update arcade (withJump true holdRight) aimingUp
    = update arcade (withJump false holdRight) aimingUp.
Proof.
  apply (no_jump_in_the_air arcade holdRight aimingUp eq_refl).
Defined.

(** X8, witness: jump and down held while standing on the ground slab. *)
Lemma drop_through_passes_the_platform_witness :
  let q := player (playerPhysics arcade jumpDown standingOn) in
  p_vy q == 1 + K_GRAVITY arcade /\
  p_y q == p_y (player standingOn) + 2 + K_GRAVITY arcade /\
  landsOn q groundSlab = false /\
  checkPlatform q groundSlab = q.
Proof.
  apply (drop_through_passes_the_platform arcade jumpDown standingOn groundSlab
           eq_refl eq_refl eq_refl).
  vm_compute. reflexivity.
Defined.

(** X9, witness: the player of [standingOn] with no key held. *)
Lemma standing_is_stable_witness :
  let w1 := playerPhysics arcade noInput standingOn in
  let r := player (collisionDetection w1) in
  landsOn (player w1) groundSlab = true /\
  p_y r + p_height r == plat_y groundSlab /\ p_vy r == 0 /\
  p_isGrounded r = true.
Proof.
  cbv zeta.
  assert (V : p_vy (player standingOn) == 0) by (vm_compute; reflexivity).
  assert (B : p_y (player standingOn) + p_height (player standingOn)
              == plat_y groundSlab) by (vm_compute; reflexivity).
  assert (G0 : 0 < K_GRAVITY arcade) by (vm_compute; reflexivity).
  assert (G1 : K_GRAVITY arcade
               < p_height (player standingOn) + plat_height groundSlab)
    by (vm_compute; reflexivity).
  assert (X1 : p_x (player (playerPhysics arcade noInput standingOn))
               < plat_x groundSlab + plat_width groundSlab)
    by (vm_compute; reflexivity).
  assert (X2 : plat_x groundSlab
               < p_x (player (playerPhysics arcade noInput standingOn))
                 + p_width (player (playerPhysics arcade noInput standingOn)))
    by (vm_compute; reflexivity).
  destruct (standing_is_stable arcade noInput standingOn groundSlab
              eq_refl V B G0 G1 X1 X2) as [L R].
  split; [exact L|].
  apply (R [] [] eq_refl). constructor.
Defined.

(** X10, witness: the landing of [sinkingIn]. *)
Lemma grounded_means_resting_witness :
  exists plat,
    In plat (platforms sinkingIn) /\
    p_y (player (collisionDetection sinkingIn))
      + p_height (player (collisionDetection sinkingIn)) == plat_y plat /\
    p_vy (player (collisionDetection sinkingIn)) = 0.
Proof.
  apply (grounded_means_resting sinkingIn).
  vm_compute. reflexivity.
Defined.

(** X12, witness: a session on the arcade constants, whose camera offset
    is 300. *)
Lemma player_never_left_of_camera_witness :
  camera (session arcade [holdRight; holdRight] sinkingIn)
    <= p_x (player (session arcade [holdRight; holdRight] sinkingIn)).
Proof.
  assert (O : 0 <= K_CAMERA_OFFSET_X arcade) by (vm_compute; discriminate).
  apply (proj2 (player_never_left_of_camera arcade [holdRight; holdRight]
                  sinkingIn O)).
Defined.

(** X14, witness: two frames with an enemy bullet on a player that has 180
    frames of invincibility left. *)
Lemma invincibility_covers_its_frames_witness :
  hpOf (fold_left (fun w inputs => update arcade inputs w)
          [noInput; noInput] justHit) = hpOf justHit.
Proof.
  apply (invincibility_covers_its_frames arcade [noInput; noInput] justHit).
  unfold timerOf. simpl. lia.
Defined.

(** X18, witness: the bullet flies past the boss and hits the runner. *)
Lemma bullet_hits_first_live_enemy_witness :
  bulletVsEnemies arcade (shotAt 310) ([lastBoss] ++ loneRunner :: [])
      shotOnRunner
    = ([lastBoss] ++ fst (damageEnemy arcade loneRunner shotOnRunner) :: [],
       snd (damageEnemy arcade loneRunner shotOnRunner), true) /\
  e_hp (fst (damageEnemy arcade loneRunner shotOnRunner))
    = (e_hp loneRunner - 1)%Z.
Proof.
  apply (bullet_hits_first_live_enemy arcade (shotAt 310) [lastBoss] []
           loneRunner shotOnRunner).
  - constructor; [vm_compute; reflexivity | constructor].
  - vm_compute. reflexivity.
Defined.

(** X19, witness: the bullet at height 310 does not reach the boss. *)
Lemma bullet_missing_every_enemy_witness :
  bulletVsEnemies arcade (shotAt 310) (enemies bossAndPlayerFall)
      bossAndPlayerFall
    = (enemies bossAndPlayerFall, bossAndPlayerFall, false).
Proof.
  apply (bullet_missing_every_enemy arcade (shotAt 310) bossAndPlayerFall).
  constructor; [vm_compute; reflexivity | constructor].
Defined.

(** X21, witness: an accepted death at hp 3, camera at 0. *)
Lemma respawn_never_moves_back_witness :
  let p := player shotOnRunner in
  let p' := player (handlePlayerDeath arcade shotOnRunner) in
  p_x p <= p_x p' /\ camera shotOnRunner + 50 <= p_x p' /\
  (p_x p' = p_x p \/ p_x p' = camera shotOnRunner + 50) /\
  p_y p' = -100 /\ p_vx p' = 0 /\ p_vy p' = 0 /\
  p_invincibleTimer p' = 180%Z /\ p_hp p' = (p_hp p - 1)%Z /\
  gameState (handlePlayerDeath arcade shotOnRunner) = gameState shotOnRunner /\
  p_isGrounded p' = p_isGrounded p /\ p_direction p' = p_direction p /\
  p_facingVertical p' = p_facingVertical p.
Proof.
  apply (respawn_never_moves_back arcade shotOnRunner).
  - unfold timerOf. simpl. lia.
  - unfold hpOf. simpl. lia.
Defined.

(** X22, witness: two frames on the game-over screen. *)
Lemma frames_outside_playing_change_nothing_witness :
  fold_left (fun w f => update arcade (snd f) w)
    [(20, holdRight); (40, holdShootUp)] gameOverScreen = gameOverScreen /\
  snd (runFrames arcade [(20, holdRight); (40, holdShootUp)]
         (0, gameOverScreen)) = gameOverScreen.
Proof.
  apply (frames_outside_playing_change_nothing arcade
           [(20, holdRight); (40, holdShootUp)] 0 gameOverScreen).
  simpl. discriminate.
Defined.

(** X23, witness: a runner 400 to the right of the player, at speed 2. *)
Lemma runner_closes_in_witness :
  let e' := fst (enemyAI arcade shotOnRunner loneRunner) in
  Math_abs (p_x (player shotOnRunner) - e_x e')
    < Math_abs (p_x (player shotOnRunner) - e_x loneRunner) /\
  (e_x loneRunner < p_x (player shotOnRunner) ->
   e_x e' == e_x loneRunner + K_ENEMY_SPEED arcade) /\
  (p_x (player shotOnRunner) < e_x loneRunner ->
   e_x e' == e_x loneRunner - K_ENEMY_SPEED arcade).
Proof.
  apply (runner_closes_in arcade shotOnRunner loneRunner eq_refl).
  - vm_compute. reflexivity.
  - vm_compute. reflexivity.
  - vm_compute. reflexivity.
  - vm_compute. discriminate.
Defined.

(** X24, witness: shoot held for three frames right after a shot. *)
Lemma cooldown_blocks_new_shots_witness :
  (playerShots
     (bullets (fold_left (fun w inputs => update arcade inputs w)
                 [holdShootUp; holdShootUp; holdShootUp] justFired))
   <= playerShots (bullets justFired))%nat.
Proof.
  apply (cooldown_blocks_new_shots arcade
           [holdShootUp; holdShootUp; holdShootUp] justFired).
  vm_compute. reflexivity.
Defined.

(** X28, witness: two frames after a turret in range has fired. *)
Lemma enemy_cooldown_blocks_new_shots_witness :
  (enemyShots
     (bullets (fold_left (fun w inputs => update arcade inputs w)
                 [noInput; noInput] afterVolley))
   <= enemyShots (bullets afterVolley))%nat.
Proof.
  apply (enemy_cooldown_blocks_new_shots arcade [noInput; noInput] afterVolley).
  constructor; [right; simpl; lia|].
  constructor; [left; reflexivity | constructor].
Defined.
